(** * robotframework-remoterunner-ssl: utility functions

    A shallow embedding of [rfremoterunner_ssl/utils.py]: the pip package
    version check [check_for_pip_package_condition], the command line
    resolvers [get_command_line_params_client] and
    [get_command_line_params_server] and the path helpers
    [resolve_output_path] and [calculate_ts_parent_path], together with the
    libraries they drive ([packaging.version], [johnnydep], [argparse],
    [posixpath]). *)

From Stdlib Require Import ZArith Ascii String.
From stdpp Require Import base option list strings gmap.

Open Scope string_scope.
Open Scope list_scope.

Set Warnings "-register-all".

(** ** Python strings and values *)

Module Py.

(** A string stands for a Python [str] by its UTF-8 bytes.  [lower] acts on
    the ASCII letters: no character outside ASCII lowers to one of the
    letters of ["latest"], so the comparison with that word is the one
    Python makes.  What Python does with a character outside ASCII in
    [str.upper], in [int] and in the pattern [\d] is not written out: these
    are the methods of the class [Unicode] below. *)
Definition ascii_lower (c : ascii) : ascii :=
  let n := N_of_ascii c in
  if ((65 <=? n) && (n <=? 90))%N then ascii_of_N (n + 32) else c.

Definition ascii_upper (c : ascii) : ascii :=
  let n := N_of_ascii c in
  if ((97 <=? n) && (n <=? 122))%N then ascii_of_N (n - 32) else c.

Fixpoint lower (s : string) : string :=
  match s with
  | EmptyString => EmptyString
  | String c r => String (ascii_lower c) (lower r)
  end.

(** [str.upper] on a string of ASCII characters. *)
Fixpoint upper_ascii (s : string) : string :=
  match s with
  | EmptyString => EmptyString
  | String c r => String (ascii_upper c) (upper_ascii r)
  end.

(** Truth value of an object that is a [str] or [None]. *)
Definition str_truthy (o : option string) : bool :=
  match o with
  | Some s => negb (String.eqb s "")
  | None => false
  end.

Inductive pyval :=
| VNone
| VBool (b : bool)
| VInt (n : Z)
| VStr (s : string)
| VList (l : list pyval).

#[global] Instance pyval_inhabited : Inhabited pyval := populate VNone.

(** Truth value of an object. *)
Definition truthy (v : pyval) : bool :=
  match v with
  | VNone => false
  | VBool b => b
  | VInt n => negb (n =? 0)%Z
  | VStr s => negb (String.eqb s "")
  | VList l => match l with [] => false | _ :: _ => true end
  end.

(** [==] on the values above (without the coercion of [bool] to [int]). *)
Fixpoint pyval_eqb (a b : pyval) : bool :=
  match a, b with
  | VNone, VNone => true
  | VBool x, VBool y => Bool.eqb x y
  | VInt x, VInt y => (x =? y)%Z
  | VStr x, VStr y => String.eqb x y
  | VList x, VList y =>
      (fix all2 (x y : list pyval) : bool :=
         match x, y with
         | [], [] => true
         | a :: x', b :: y' => pyval_eqb a b && all2 x' y'
         | _, _ => false
         end) x y
  | _, _ => false
  end.

Definition is_space (c : ascii) : bool :=
  let n := N_of_ascii c in
  (((9 <=? n) && (n <=? 13)) || ((28 <=? n) && (n <=? 32)))%N.

Fixpoint lstrip (s : string) : string :=
  match s with
  | String c r => if is_space c then lstrip r else s
  | EmptyString => s
  end.

Definition reverse_string (s : string) : string :=
  string_of_list_ascii (rev (list_ascii_of_string s)).

Definition strip (s : string) : string :=
  reverse_string (lstrip (reverse_string (lstrip s))).

Definition digit_value (c : ascii) : option Z :=
  let n := N_of_ascii c in
  if ((48 <=? n) && (n <=? 57))%N then Some (Z.of_N (n - 48)) else None.

(** Decimal digits, with single underscores between digits. *)
Fixpoint int_digits (s : string) (acc : Z) (after_digit : bool) : option Z :=
  match s with
  | EmptyString => if after_digit then Some acc else None
  | String c r =>
      match digit_value c with
      | Some d => int_digits r (10 * acc + d)%Z true
      | None =>
          if Ascii.eqb c "_" && after_digit then int_digits r acc false
          else None
      end
  end.

(** [int(s)] in base ten on a string of ASCII characters; [None] stands for
    [ValueError]. *)
Definition int_ascii (s : string) : option Z :=
  match strip s with
  | String "-" r => Z.opp <$> int_digits r 0 false
  | String "+" r => int_digits r 0 false
  | r => int_digits r 0 false
  end.

(** The pattern [^-\d+$|^-\d*\.\d+$] on a string of ASCII characters; [$]
    also matches before a final newline. *)
Definition is_digit (c : ascii) : bool :=
  let n := N_of_ascii c in ((48 <=? n) && (n <=? 57))%N.

Fixpoint all_digits (s : string) : bool :=
  match s with
  | EmptyString => true
  | String c r => is_digit c && all_digits r
  end.

Fixpoint skip_digits (s : string) : string :=
  match s with
  | String c r => if is_digit c then skip_digits r else s
  | EmptyString => s
  end.

Definition chomp (s : string) : string :=
  match reverse_string s with
  | String c r => if Ascii.eqb c "010" then reverse_string r else s
  | EmptyString => s
  end.

Definition nonempty_digits (s : string) : bool :=
  negb (String.eqb s "") && all_digits s.

Definition negative_number_ascii (s : string) : bool :=
  match s with
  | String "-" r =>
      let body := chomp r in
      nonempty_digits body
      || match skip_digits body with
         | String "." frac => nonempty_digits frac
         | _ => false
         end
  | _ => false
  end.

Fixpoint isascii (s : string) : bool :=
  match s with
  | EmptyString => true
  | String c r => (N_of_ascii c <? 128)%N && isascii r
  end.

(** The three functions of Python in this file that read text by the
    Unicode tables of the interpreter: [str.upper], [int] in base ten
    ([None] stands for [ValueError]) and the match of the pattern
    [^-\d+$|^-\d*\.\d+$].  On ASCII text they are the functions above;
    [int] refuses a string of more digits than [sys.int_max_str_digits]
    allows, a limit that is 4300 by default and never under 640. *)
Class Unicode := {
  upper : string -> string;
  int : string -> option Z;
  negative_number : string -> bool;
  upper_isascii :
    forall s, isascii s = true -> upper s = upper_ascii s;
  int_isascii :
    forall s, isascii s = true -> String.length s <= 640 ->
              int s = int_ascii s;
  negative_number_isascii :
    forall s, isascii s = true -> negative_number s = negative_number_ascii s
}.

End Py.

(** ** The libraries behind the version check *)

(** [packaging.version]: [parse] raises [InvalidVersion] on a string that is
    not a version ([None] here); the six rich comparisons of a version all
    compare the [_key] of the two versions, a total order. *)
Record Packaging := {
  Version : Type;
  version_parse : string -> option Version;
  key_compare : Version -> Version -> comparison
}.

(** [johnnydep.lib.JohnnyDist]: the constructor may raise ([None]); the
    property [version_installed] is [None] for a package that is not
    installed; the property [version_latest] may raise (outer [None]) or be
    [None] (inner [None]). *)
Record JohnnyDep := {
  Dist : Type;
  JohnnyDist : string -> option Dist;
  dist_truth : Dist -> bool;
  version_installed : Dist -> option string;
  version_latest : Dist -> option (option string)
}.

(** ** Evaluation with a record of the calls made to johnnydep *)

Inductive provider_call :=
| NewJohnnyDist (req_string : string)
| GetVersionInstalled
| GetVersionLatest.

Inductive exn :=
| AssertionError
| KeyError (key : string).

Inductive outcome (A : Type) :=
| Return (a : A)
| Raise (e : exn).
Arguments Return {A} a.
Arguments Raise {A} e.

Definition Eval (A : Type) : Type :=
  list provider_call -> outcome A * list provider_call.

Definition eval_ret {A} (a : A) : Eval A := fun t => (Return a, t).

Definition eval_bind {A B} (k : A -> Eval B) (m : Eval A) : Eval B :=
  fun t =>
    match m t with
    | (Return a, t') => k a t'
    | (Raise e, t') => (Raise e, t')
    end.

#[global] Instance Eval_ret : MRet Eval := @eval_ret.
#[global] Instance Eval_bind : MBind Eval := @eval_bind.

Definition raise {A} (e : exn) : Eval A := fun t => (Raise e, t).

Definition called {A} (c : provider_call) (r : A) : Eval A :=
  fun t => (Return r, t ++ [c]).

Definition assert_ (b : bool) : Eval unit :=
  if b then mret tt else raise AssertionError.

(** ** argparse *)

(** [ArgumentParser.parse_args] of CPython 3.11, for a parser of optional
    arguments only (no positional, no group, no required option): option
    strings matched exactly, by a unique abbreviation or as [--flag=value];
    the separator [--]; the help action; [nargs] of one, of one or more and
    of none; conversion by [type], then [choices]. *)

Module Argparse.
Import Py.

Inductive nargs_spec :=
| NargsNone      (* nargs=None: one argument string *)
| NargsPlus      (* nargs="+": one argument string or more *)
| NargsZero.     (* nargs=0: no argument string (store_true, help) *)

Inductive action_class :=
| Store
| StoreTrue
| Extend
| Help.

Inductive conversion :=
| Converted (v : pyval)
| ValueError (msg : string).

(** An action as [add_argument] builds it.  [dest] is [None] for
    [SUPPRESS], the destination of the help action. *)
Record Action := {
  option_strings : list string;
  dest : option string;
  action : action_class;
  nargs : nargs_spec;
  default : pyval;
  type : string -> conversion;
  choices : option (list pyval)
}.

Inductive usage_error :=
| AmbiguousOption (arg_string : string) (matches : list string)
| ExpectedOneArgument (option_string : string)
| ExpectedAtLeastOneArgument (option_string : string)
| IgnoredExplicitArgument (option_string explicit_arg : string)
| InvalidValue (option_string value : string)
| InvalidChoice (option_string : string) (value : pyval)
| UnrecognizedArguments (extras : list string).

(** How [parse_args] ends: with the namespace; in [parser.error], which
    prints the usage and the message and exits with status 2; or in the
    help action, which prints the help and exits with status 0. *)
Inductive parse_result (A : Type) :=
| Parsed (a : A)
| UsageError (e : usage_error)
| HelpExit.
Arguments Parsed {A} a.
Arguments UsageError {A} e.
Arguments HelpExit {A}.

#[global] Instance parse_result_ret : MRet parse_result := @Parsed.
#[global] Instance parse_result_bind : MBind parse_result :=
  λ A B f m,
    match m with
    | Parsed a => f a
    | UsageError e => UsageError e
    | HelpExit => HelpExit
    end.

Definition str (s : string) : conversion := Converted (VStr s).

(** The parser is the list [_actions], in the order of the calls to
    [add_argument]; [ArgumentParser()] starts it with the help action. *)
Definition help_action : Action := {|
  option_strings := ["-h"; "--help"];
  dest := None;
  action := Help;
  nargs := NargsZero;
  default := VNone;
  type := str;
  choices := None
|}.

Definition ArgumentParser : list Action := [help_action].

Definition add_argument (parser : list Action) (a : Action) : list Action :=
  parser ++ [a].

(** The dict [_option_string_actions], in insertion order. *)
Definition option_string_actions (parser : list Action)
  : list (string * Action) :=
  a ← parser; (λ s, (s, a)) <$> option_strings a.

Fixpoint assoc {A} (key : string) (l : list (string * A)) : option A :=
  match l with
  | [] => None
  | (k, v) :: r => if String.eqb key k then Some v else assoc key r
  end.

(** *** Option strings and argument strings *)

Definition starts_with_prefix_char (s : string) : bool :=
  match s with
  | String c _ => Ascii.eqb c "-"
  | EmptyString => false
  end.

(** The second character is a prefix character too. *)
Definition is_long (s : string) : bool :=
  match s with
  | String _ (String c _) => Ascii.eqb c "-"
  | _ => false
  end.

(** [s.split('=', 1)] when ['=' in s]. *)
Fixpoint split_equals (s : string) : option (string * string) :=
  match s with
  | EmptyString => None
  | String c r =>
      if Ascii.eqb c "=" then Some (EmptyString, r)
      else '(a, b) ← split_equals r; Some (String c a, b)
  end.

Fixpoint contains_space (s : string) : bool :=
  match s with
  | EmptyString => false
  | String c r => Ascii.eqb c " " || contains_space r
  end.

(** From here on the functions of the parser; some of them read text by
    the Unicode tables. *)
Section Parsing.

Context `{U : Unicode}.

Definition str_upper (s : string) : conversion := Converted (VStr (upper s)).

Definition int (s : string) : conversion :=
  match Py.int s with
  | Some n => Converted (VInt n)
  | None => ValueError ("invalid literal for int() with base 10: " ++ s)%string
  end.

(** An entry of [option_tuples]: the action, the option string and the
    explicit argument, if the argument string carries one. *)
Record option_tuple := OptionTuple {
  tuple_action : option Action;
  tuple_option_string : string;
  tuple_explicit_arg : option string
}.

Definition _get_option_tuples (parser : list Action) (option_string : string)
  : list option_tuple :=
  if is_long option_string then
    (* allow_abbrev is on *)
    let '(option_prefix, explicit_arg) :=
      match split_equals option_string with
      | Some (p, e) => (p, Some e)
      | None => (option_string, None)
      end in
    omap (λ '(s, a),
            if String.prefix option_prefix s
            then Some (OptionTuple (Some a) s explicit_arg) else None)
         (option_string_actions parser)
  else
    let option_prefix := option_string in
    let short_option_prefix := String.substring 0 2 option_string in
    let short_explicit_arg :=
      String.substring 2 (String.length option_string - 2) option_string in
    omap (λ '(s, a),
            if String.eqb s short_option_prefix
            then Some (OptionTuple (Some a) s (Some short_explicit_arg))
            else if String.prefix option_prefix s
            then Some (OptionTuple (Some a) s None) else None)
         (option_string_actions parser).

(** [None] when the argument string is meant to be a positional. *)
Definition _parse_optional (parser : list Action) (arg_string : string)
  : parse_result (option option_tuple) :=
  if String.eqb arg_string "" then Parsed None
  else if negb (starts_with_prefix_char arg_string) then Parsed None
  else
    match assoc arg_string (option_string_actions parser) with
    | Some a => Parsed (Some (OptionTuple (Some a) arg_string None))
    | None =>
        if (String.length arg_string =? 1)%nat then Parsed None
        else
          match
            '(option_string, explicit_arg) ← split_equals arg_string;
            a ← assoc option_string (option_string_actions parser);
            Some (OptionTuple (Some a) option_string (Some explicit_arg))
          with
          | Some t => Parsed (Some t)
          | None =>
              match _get_option_tuples parser arg_string with
              | (_ :: _ :: _) as option_tuples =>
                  UsageError (AmbiguousOption arg_string
                                (tuple_option_string <$> option_tuples))
              | [option_tuple] => Parsed (Some option_tuple)
              | [] =>
                  (* [_negative_number_matcher]; the parser has no option
                     that looks like a negative number *)
                  if negative_number arg_string then Parsed None
                  else if contains_space arg_string then Parsed None
                  else Parsed (Some (OptionTuple None arg_string None))
              end
          end
    end.

(** The letters of [arg_strings_pattern]. *)
Inductive pattern :=
| PatA                      (* 'A': an argument *)
| PatDashes                 (* '-': the string [--] *)
| PatO (t : option_tuple).  (* 'O': an option *)

Definition pattern_of (option_tuple : option option_tuple) : pattern :=
  match option_tuple with
  | None => PatA
  | Some t => PatO t
  end.

(** The first pass of [_parse_known_args]: every argument string with its
    letter; an ambiguous abbreviation ends the parse here. *)
Fixpoint arg_strings_pattern (parser : list Action) (arg_strings : list string)
  : parse_result (list (string * pattern)) :=
  match arg_strings with
  | [] => Parsed []
  | arg_string :: rest =>
      if String.eqb arg_string "--"
      then Parsed ((arg_string, PatDashes) :: ((λ s, (s, PatA)) <$> rest))
      else
        option_tuple ← _parse_optional parser arg_string;
        parts ← arg_strings_pattern parser rest;
        Parsed ((arg_string, pattern_of option_tuple) :: parts)
  end.

(** *** Taking the actions *)

Record parse_state := {
  namespace : gmap string pyval;
  extras : list string;
  seen_actions : list (list string)   (* an action is known by its option strings *)
}.

Definition add_extra (s : string) (st : parse_state) : parse_state :=
  {| namespace := namespace st;
     extras := extras st ++ [s];
     seen_actions := seen_actions st |}.

(** The name of an action in an error message. *)
Definition _get_action_name (a : Action) : string :=
  String.concat "/" (option_strings a).

Definition _get_value (a : Action) (arg_string : string) : parse_result pyval :=
  match type a arg_string with
  | Converted v => Parsed v
  | ValueError _ => UsageError (InvalidValue (_get_action_name a) arg_string)
  end.

Definition _check_value (a : Action) (value : pyval) : parse_result unit :=
  match choices a with
  | Some cs =>
      if existsb (pyval_eqb value) cs then Parsed tt
      else UsageError (InvalidChoice (_get_action_name a) value)
  | None => Parsed tt
  end.

Fixpoint _get_value_each (a : Action) (arg_strings : list string)
  : parse_result (list pyval) :=
  match arg_strings with
  | [] => Parsed []
  | s :: rest =>
      v ← _get_value a s;
      vs ← _get_value_each a rest;
      Parsed (v :: vs)
  end.

Fixpoint _check_value_each (a : Action) (values : list pyval)
  : parse_result unit :=
  match values with
  | [] => Parsed tt
  | v :: rest => _check_value a v ≫= λ _, _check_value_each a rest
  end.

(** [arg_strings.remove('--')]: the list without the first string equal to
    [--], if there is one. *)
Fixpoint remove_dashes (arg_strings : list string) : list string :=
  match arg_strings with
  | [] => []
  | s :: rest => if String.eqb s "--" then rest else s :: remove_dashes rest
  end.

(** The first [--] among the argument strings is dropped (no [nargs] here
    is [PARSER] or [REMAINDER]); then one argument string of an action with
    [nargs=None] gives a single value, and every other case gives a list.
    So [--flag=--] hands the action of a one-argument option the empty
    list, and neither [type] nor [choices] is asked. *)
Definition _get_values (a : Action) (arg_strings : list string)
  : parse_result pyval :=
  let arg_strings := remove_dashes arg_strings in
  match nargs a, arg_strings with
  | NargsNone, [arg_string] =>
      value ← _get_value a arg_string;
      _check_value a value ≫= λ _,
      Parsed value
  | _, _ =>
      value ← _get_value_each a arg_strings;
      _check_value_each a value ≫= λ _,
      Parsed (VList value)
  end.

(** The [__call__] of the four action classes.  [_copy_items] of [None] is
    the empty list; the extend actions of this file have [nargs="+"], so
    their values are a list. *)
Definition call_action (a : Action) (values : pyval) (ns : gmap string pyval)
  : parse_result (gmap string pyval) :=
  match action a, dest a with
  | Help, _ => HelpExit
  | Store, Some d => Parsed (<[d := values]> ns)
  | StoreTrue, Some d => Parsed (<[d := VBool true]> ns)
  | Extend, Some d =>
      let items := match ns !! d with Some (VList l) => l | _ => [] end in
      let values := match values with VList vs => vs | _ => [] end in
      Parsed (<[d := VList (items ++ values)]> ns)
  | _, None => Parsed ns
  end.

Definition take_action (a : Action) (argument_strings : list string)
    (st : parse_state) : parse_result parse_state :=
  argument_values ← _get_values a argument_strings;
  ns ← call_action a argument_values (namespace st);
  Parsed {| namespace := ns;
            extras := extras st;
            seen_actions := option_strings a :: seen_actions st |}.

Fixpoint take_actions (action_tuples : list (Action * list string))
    (st : parse_state) : parse_result parse_state :=
  match action_tuples with
  | [] => Parsed st
  | (a, args) :: rest => take_action a args st ≫= take_actions rest
  end.

(** The argument strings that follow an option: the run of ['A'] up to the
    next option, the string [--] or the end. *)
Fixpoint following_arguments (parts : list (string * pattern)) : list string :=
  match parts with
  | (s, PatA) :: rest => s :: following_arguments rest
  | _ => []
  end.

(** How many of the following argument strings the action takes. *)
Definition _match_argument (a : Action) (following : list string)
  : parse_result nat :=
  match nargs a, following with
  | NargsZero, _ => Parsed 0
  | NargsNone, _ :: _ => Parsed 1
  | NargsNone, [] => UsageError (ExpectedOneArgument (_get_action_name a))
  | NargsPlus, _ :: _ => Parsed (length following)
  | NargsPlus, [] => UsageError (ExpectedAtLeastOneArgument (_get_action_name a))
  end.

(** The loop of [consume_optional] for an option string that carries an
    explicit argument: an action that takes one argument takes it; a
    single-dash flag starts a run of single-dash options, read from the
    explicit argument character by character; a double-dash flag refuses
    it.  (An empty explicit argument after a single-dash flag, as in [-h=],
    is refused here.) *)
Fixpoint explicit_arg_tuples (parser : list Action) (a : Action)
    (option_string explicit_arg : string) (following : list string)
  : parse_result (list (Action * list string) * nat) :=
  match nargs a with
  | NargsZero =>
      if is_long option_string
      then UsageError (IgnoredExplicitArgument (_get_action_name a) explicit_arg)
      else
        match explicit_arg with
        | EmptyString =>
            UsageError (IgnoredExplicitArgument (_get_action_name a) explicit_arg)
        | String c new_explicit_arg =>
            let option_string := String "-" (String c EmptyString) in
            match assoc option_string (option_string_actions parser) with
            | Some a' =>
                match new_explicit_arg with
                | EmptyString =>
                    arg_count ← _match_argument a' following;
                    Parsed ([(a, []); (a', take arg_count following)], arg_count)
                | _ =>
                    '(action_tuples, stop) ←
                      explicit_arg_tuples parser a' option_string
                        new_explicit_arg following;
                    Parsed ((a, []) :: action_tuples, stop)
                end
            | None =>
                UsageError
                  (IgnoredExplicitArgument (_get_action_name a) explicit_arg)
            end
        end
  | _ => Parsed ([(a, [explicit_arg])], 0)
  end.

(** [consume_optional]: the state after the actions of the option at hand,
    and the number of following argument strings they took. *)
Definition consume_optional (parser : list Action) (arg_string : string)
    (t : option_tuple) (following : list string) (st : parse_state)
  : parse_result (nat * parse_state) :=
  match tuple_action t with
  | None => Parsed (0, add_extra arg_string st)
  | Some a =>
      '(action_tuples, arg_count) ←
        match tuple_explicit_arg t with
        | Some explicit_arg =>
            explicit_arg_tuples parser a (tuple_option_string t) explicit_arg
              following
        | None =>
            arg_count ← _match_argument a following;
            Parsed ([(a, take arg_count following)], arg_count)
        end;
      st' ← take_actions action_tuples st;
      Parsed (arg_count, st')
  end.

(** The main loop of [_parse_known_args].  The parser has no positional
    argument, so a string that no option takes goes to the extras.
    [skip] counts the strings ahead that the last option has taken. *)
Fixpoint consume (parser : list Action) (parts : list (string * pattern))
    (skip : nat) (st : parse_state) : parse_result parse_state :=
  match parts with
  | [] => Parsed st
  | (arg_string, letter) :: rest =>
      match skip with
      | S skip' => consume parser rest skip' st
      | O =>
          match letter with
          | PatA | PatDashes => consume parser rest 0 (add_extra arg_string st)
          | PatO t =>
              '(arg_count, st') ←
                consume_optional parser arg_string t
                  (following_arguments rest) st;
              consume parser rest arg_count st'
          end
      end
  end.

(** A default that is a string is converted by the type of its action when
    the action was not seen. *)
Fixpoint convert_defaults (actions : list Action) (seen : list (list string))
    (ns : gmap string pyval) : parse_result (gmap string pyval) :=
  match actions with
  | [] => Parsed ns
  | a :: rest =>
      ns' ←
        (if bool_decide (option_strings a ∈ seen) then Parsed ns
         else
           match default a, dest a with
           | VStr s, Some d =>
               (* action.default is getattr(namespace, action.dest) *)
               match ns !! d with
               | Some (VStr s') =>
                   if String.eqb s' s
                   then v ← _get_value a s; Parsed (<[d := v]> ns)
                   else Parsed ns
               | _ => Parsed ns
               end
           | _, _ => Parsed ns
           end);
      convert_defaults rest seen ns'
  end.

(** The namespace before parsing: the default of every action. *)
Definition initial_namespace (parser : list Action) : gmap string pyval :=
  foldl (λ ns a,
           match dest a with
           | Some d =>
               match ns !! d with
               | None => <[d := default a]> ns
               | Some _ => ns
               end
           | None => ns
           end) ∅ parser.

Definition parse_known_args (parser : list Action) (args : list string)
  : parse_result (gmap string pyval * list string) :=
  parts ← arg_strings_pattern parser args;
  st ← consume parser parts 0
         {| namespace := initial_namespace parser;
            extras := [];
            seen_actions := [] |};
  ns ← convert_defaults parser (seen_actions st) (namespace st);
  Parsed (ns, extras st).

Definition parse_args (parser : list Action) (args : list string)
  : parse_result (gmap string pyval) :=
  '(ns, argv) ← parse_known_args parser args;
  match argv with
  | [] => Parsed ns
  | _ :: _ => UsageError (UnrecognizedArguments argv)
  end.

(** The calls [add_argument(flag, dest=..., ...)] of this file, by action:
    the default action [store] with a default and a type, [store_true],
    and [extend] with [nargs="+"] and a type. *)
Definition store (option_string dest : string) (default : pyval)
    (type : string -> conversion) (choices : option (list pyval)) : Action := {|
  option_strings := [option_string];
  dest := Some dest;
  action := Store;
  nargs := NargsNone;
  default := default;
  type := type;
  choices := choices
|}.

Definition store_true (option_string dest : string) : Action := {|
  option_strings := [option_string];
  dest := Some dest;
  action := StoreTrue;
  nargs := NargsZero;
  default := VBool false;
  type := str;
  choices := None
|}.

Definition extend (option_string dest : string)
    (type : string -> conversion) : Action := {|
  option_strings := [option_string];
  dest := Some dest;
  action := Extend;
  nargs := NargsPlus;
  default := VNone;
  type := type;
  choices := None
|}.

End Parsing.

End Argparse.

(** ** posixpath *)

(** [os.path] on a POSIX system: the functions [isabs], [join], [normpath]
    and [abspath] of [posixpath], on byte strings. *)

Module Posixpath.

Definition startswith_sep (s : string) : bool := String.prefix "/" s.

Fixpoint endswith_sep (s : string) : bool :=
  match s with
  | EmptyString => false
  | String c EmptyString => Ascii.eqb c "/"
  | String _ r => endswith_sep r
  end.

Definition isabs (s : string) : bool := startswith_sep s.

(** One round of the loop of [join]. *)
Definition join_step (path b : string) : string :=
  if startswith_sep b then b
  else if String.eqb path "" || endswith_sep path then path +:+ b
  else path +:+ "/" +:+ b.

Definition join (a : string) (p : list string) : string :=
  foldl join_step a p.

(** [s.split('/')]. *)
Fixpoint split (s : string) : list string :=
  match s with
  | EmptyString => [EmptyString]
  | String c r =>
      if Ascii.eqb c "/" then EmptyString :: split r
      else
        match split r with
        | comp :: comps => String c comp :: comps
        | [] => [String c EmptyString]
        end
  end.

(** One round of the loop of [normpath] over the components. *)
Definition normpath_step (initial_slashes : nat) (new_comps : list string)
    (comp : string) : list string :=
  if String.eqb comp "" || String.eqb comp "." then new_comps
  else if negb (String.eqb comp "..")
          || ((initial_slashes =? 0)%nat
              && match new_comps with [] => true | _ => false end)
          || match last new_comps with
             | Some c => String.eqb c ".."
             | None => false
             end
  then new_comps ++ [comp]
  else removelast new_comps.

(** POSIX allows one or two initial slashes, and treats three or more as
    one. *)
Definition initial_slashes (path : string) : nat :=
  if startswith_sep path
  then if String.prefix "//" path && negb (String.prefix "///" path)
       then 2 else 1
  else 0.

Definition normpath (path : string) : string :=
  if String.eqb path "" then "."
  else
    let comps := split path in
    let comps := foldl (normpath_step (initial_slashes path)) [] comps in
    let path' := String.concat "/" comps in
    let path' :=
      String.concat "" (replicate (initial_slashes path) "/") +:+ path' in
    if String.eqb path' "" then "." else path'.

(** [cwd] is the answer of [os.getcwd()]. *)
Definition abspath (cwd path : string) : string :=
  let path := if negb (isabs path) then join cwd [path] else path in
  normpath path.

End Posixpath.

(** ** utils.py *)

Module Utils.

Section CommandLine.

Import Py Argparse.

(** The interpreter's reading of text; [os.path.isdir] on the file system
    of the run. *)
Context `{U : Py.Unicode}.
Context (isdir : string -> bool).

Definition check_if_input_dir_exists (dir : string) : conversion :=
  if negb (isdir dir)
  then ValueError ("Value '" ++ dir ++ "' is not a valid input directory")%string
  else Converted (VStr dir).

Definition log_levels : list pyval :=
  [VStr "TRACE"; VStr "DEBUG"; VStr "INFO"; VStr "WARN"; VStr "NONE"].

(** The parser that [get_command_line_params_client] builds. *)
Definition client_parser : list Action :=
  let parser := ArgumentParser in
  let parser := add_argument parser
    (store_true "--test-connection" "robot_test_connection") in
  let parser := add_argument parser
    (store "--host" "robot_host" (VStr "localhost") str None) in
  let parser := add_argument parser
    (store "--port" "robot_port" (VInt 8111) int None) in
  let parser := add_argument parser
    (store "--user" "robot_user" (VStr "admin") str None) in
  let parser := add_argument parser
    (store "--pass" "robot_pass" (VStr "admin") str None) in
  let parser := add_argument parser
    (store "--log-level" "robot_log_level" (VStr "WARN") str_upper
       (Some log_levels)) in
  let parser := add_argument parser (extend "--suite" "robot_suite" str) in
  let parser := add_argument parser (extend "--test" "robot_test" str) in
  let parser := add_argument parser (extend "--include" "robot_include" str) in
  let parser := add_argument parser (extend "--exclude" "robot_exclude" str) in
  let parser := add_argument parser
    (extend "--extension" "robot_extension" str) in
  let parser := add_argument parser
    (store "--output-dir" "robot_output_dir" (VStr ".") str None) in
  let parser := add_argument parser
    (extend "--input-dir" "robot_input_dir" check_if_input_dir_exists) in
  let parser := add_argument parser
    (store "--output-file" "robot_output_file" (VStr "remote_output.xml")
       str None) in
  let parser := add_argument parser
    (store "--log-file" "robot_log_file" (VStr "remote_log.html") str None) in
  let parser := add_argument parser
    (store "--report-file" "robot_report_file" (VStr "remote_report.html")
       str None) in
  let parser := add_argument parser
    (store_true "--client-enforces-server-package-upgrade"
       "robot_client_enforces_server_package_upgrade") in
  let parser := add_argument parser (store_true "--debug" "robot_debug") in
  parser.

(** The tuple that the function returns. *)
Record client_params := {
  robot_log_level : pyval;
  robot_suite : pyval;
  robot_test : pyval;
  robot_include : pyval;
  robot_exclude : pyval;
  robot_debug : pyval;
  robot_host : pyval;
  robot_port : pyval;
  robot_user : pyval;
  robot_pass : pyval;
  robot_test_connection : pyval;
  robot_output_dir : pyval;
  robot_input_dir : pyval;
  robot_extension : pyval;
  robot_output_file : pyval;
  robot_log_file : pyval;
  robot_report_file : pyval;
  robot_client_enforces_server_package_upgrade : pyval
}.

Definition default_extensions : pyval :=
  VList [VStr "robot"; VStr "txt"; VStr "text"; VStr "resource"].

Definition get_command_line_params_client (argv : list string)
  : parse_result client_params :=
  (* run the parser *)
  args ← parse_args client_parser argv;
  let robot_log_level := args !!! "robot_log_level" in
  let robot_suite := args !!! "robot_suite" in
  let robot_test := args !!! "robot_test" in
  let robot_include := args !!! "robot_include" in
  let robot_exclude := args !!! "robot_exclude" in
  let robot_debug := args !!! "robot_debug" in
  let robot_host := args !!! "robot_host" in
  let robot_port := args !!! "robot_port" in
  let robot_user := args !!! "robot_user" in
  let robot_pass := args !!! "robot_pass" in
  let robot_test_connection := args !!! "robot_test_connection" in
  let robot_output_dir := args !!! "robot_output_dir" in
  let robot_input_dir := args !!! "robot_input_dir" in
  let robot_extension := args !!! "robot_extension" in
  let robot_output_file := args !!! "robot_output_file" in
  let robot_log_file := args !!! "robot_log_file" in
  let robot_report_file := args !!! "robot_report_file" in
  let robot_client_enforces_server_package_upgrade :=
    args !!! "robot_client_enforces_server_package_upgrade" in
  (* populate defaults in case the user has not specified a value *)
  let robot_input_dir :=
    if negb (truthy robot_input_dir) then VStr "." else robot_input_dir in
  let robot_extension :=
    if negb (truthy robot_extension) then default_extensions
    else robot_extension in
  Parsed {|
    robot_log_level := robot_log_level;
    robot_suite := robot_suite;
    robot_test := robot_test;
    robot_include := robot_include;
    robot_exclude := robot_exclude;
    robot_debug := robot_debug;
    robot_host := robot_host;
    robot_port := robot_port;
    robot_user := robot_user;
    robot_pass := robot_pass;
    robot_test_connection := robot_test_connection;
    robot_output_dir := robot_output_dir;
    robot_input_dir := robot_input_dir;
    robot_extension := robot_extension;
    robot_output_file := robot_output_file;
    robot_log_file := robot_log_file;
    robot_report_file := robot_report_file;
    robot_client_enforces_server_package_upgrade :=
      robot_client_enforces_server_package_upgrade
  |}.

End CommandLine.

(** *** check_for_pip_package_condition *)

Section PipCheck.

Context (P : Packaging) (J : JohnnyDep).

(** The functions of the [operator] module on two versions. *)
Definition operator_lt (a b : Version P) : bool :=
  match key_compare P a b with Lt => true | _ => false end.
Definition operator_le (a b : Version P) : bool :=
  match key_compare P a b with Gt => false | _ => true end.
Definition operator_eq (a b : Version P) : bool :=
  match key_compare P a b with Eq => true | _ => false end.
Definition operator_ne (a b : Version P) : bool :=
  match key_compare P a b with Eq => false | _ => true end.
Definition operator_gt (a b : Version P) : bool :=
  match key_compare P a b with Gt => true | _ => false end.
Definition operator_ge (a b : Version P) : bool :=
  match key_compare P a b with Lt => false | _ => true end.

(** The dict [operator_list] of the function, entry by entry. *)
Definition operator_list : gmap string (Version P -> Version P -> bool) :=
  list_to_map
    [ ("<=", operator_lt);
      ("<", operator_le);
      ("==", operator_eq);
      ("!=", operator_ne);
      (">", operator_gt);
      (">=", operator_ge) ].

Definition valid_operators : list string :=
  [">"; ">="; "<"; "<="; "!="; "=="].

Definition check_for_pip_package_condition
    (package_name compare_operator : string)
    (specific_version : option string) : Eval (option bool) :=
  assert_ (bool_decide (compare_operator ∈ valid_operators)) ≫= λ _,
  (* distribution = current = latest = None *)
  distribution ← called (NewJohnnyDist package_name) (JohnnyDist J package_name);
  match distribution with
  | None => mret None                                (* except: return None *)
  | Some distribution =>
      '(installed, latest) ←
        (if dist_truth J distribution then
           installed ← called GetVersionInstalled
                         (version_installed J distribution);
           latest ←
             (if Py.str_truthy specific_version
                 && negb (bool_decide (Py.lower <$> specific_version = Some "latest"))
              then mret specific_version
              else
                l ← called GetVersionLatest (version_latest J distribution);
                mret (match l with
                      | Some v => v
                      | None => None                 (* except: latest = None *)
                      end));
           mret (installed, latest)
         else
           (* [installed] stays unbound; [latest] is None, and the test
              below returns on [not latest] before reading [installed] *)
           mret (None, None));
      if negb (Py.str_truthy latest) || negb (Py.str_truthy installed)
      then mret None
      else
        match installed, latest with
        | Some installed, Some latest =>
            match version_parse P installed with
            | None => mret None                      (* except: return None *)
            | Some installed_version =>
                match version_parse P latest with
                | None => mret None                  (* except: return None *)
                | Some latest_version =>
                    match operator_list !! compare_operator with
                    | None => raise (KeyError compare_operator)
                    | Some op => mret (Some (op installed_version latest_version))
                    end
                end
            end
        | _, _ => mret None
        end
  end.

(** The function as a caller sees it: the result or the exception, and
    the calls it made to johnnydep, in order. *)
Definition run_check (package_name compare_operator : string)
    (specific_version : option string)
  : outcome (option bool) * list provider_call :=
  check_for_pip_package_condition package_name compare_operator
    specific_version [].

End PipCheck.

(** *** resolve_output_path *)

Section Paths.

Import Posixpath.

(** [cwd] is the answer of [os.getcwd()] at the call, which [abspath]
    reads. *)
Definition resolve_output_path (cwd : string) (filename output_dir : string)
  : string :=
  let ret_val := filename in
  let ret_val :=
    if negb (isabs filename)
    then abspath cwd (join output_dir [filename])
    else ret_val in
  normpath ret_val.

(** *** calculate_ts_parent_path *)

(** A [robot.running.model.TestSuite] as the function reads it: its name
    and its parent, [None] at the root.  A suite object is true. *)
Inductive TestSuite :=
| Suite (name : string) (parent : option TestSuite).

Definition name (suite : TestSuite) : string :=
  match suite with Suite n _ => n end.

Definition parent (suite : TestSuite) : option TestSuite :=
  match suite with Suite _ p => p end.

(** The list [family_tree] after the [while] loop started at
    [current_suite]. *)
Fixpoint family_tree (current_suite : TestSuite) : list string :=
  match current_suite with
  | Suite n p =>
      n :: match p with
           | Some current_suite => family_tree current_suite
           | None => []
           end
  end.

(** [s.replace("\\", "/")]. *)
Fixpoint replace_backslash (s : string) : string :=
  match s with
  | EmptyString => EmptyString
  | String c r =>
      String (if Ascii.eqb c "\" then "/"%char else c) (replace_backslash r)
  end.

Definition calculate_ts_parent_path (suite : TestSuite) : string :=
  match parent suite with
  | None => ""
  | Some current_suite =>
      match reverse (family_tree current_suite) with
      | a :: p => replace_backslash (join a p)
      | [] => ""
      end
  end.

End Paths.

(** *** get_command_line_params_server *)

Section ServerCommandLine.

Import Py Argparse.

Context `{U : Unicode}.

Definition upgrade_policies : list pyval :=
  [VStr "NEVER"; VStr "OUTDATED"; VStr "ALWAYS"].

(** The parser that [get_command_line_params_server] builds. *)
Definition server_parser : list Action :=
  let parser := ArgumentParser in
  let parser := add_argument parser
    (store "--host" "robot_host" (VStr "localhost") str None) in
  let parser := add_argument parser
    (store "--port" "robot_port" (VInt 8111) int None) in
  let parser := add_argument parser
    (store "--user" "robot_user" (VStr "admin") str None) in
  let parser := add_argument parser
    (store "--pass" "robot_pass" (VStr "admin") str None) in
  let parser := add_argument parser
    (store "--keyfile" "robot_keyfile" (VStr "privkey.pem") str None) in
  let parser := add_argument parser
    (store "--certfile" "robot_certfile" (VStr "cacert.pem") str None) in
  let parser := add_argument parser
    (store "--log-level" "robot_log_level" (VStr "WARN") str_upper
       (Some log_levels)) in
  let parser := add_argument parser
    (store "--upgrade-server-packages" "robot_upgrade_server_packages"
       (VStr "NEVER") str_upper (Some upgrade_policies)) in
  let parser := add_argument parser (store_true "--debug" "robot_debug") in
  parser.

(** The tuple that the function returns.  Its variables are named
    [robot_...] as those of the client are; the fields here say [server_...]
    to tell the two records apart. *)
Record server_params := {
  server_log_level : pyval;
  server_debug : pyval;
  server_host : pyval;
  server_port : pyval;
  server_user : pyval;
  server_pass : pyval;
  server_keyfile : pyval;
  server_certfile : pyval;
  server_upgrade_server_packages : pyval
}.

Definition get_command_line_params_server (argv : list string)
  : parse_result server_params :=
  args ← parse_args server_parser argv;
  let robot_log_level := args !!! "robot_log_level" in
  let robot_debug := args !!! "robot_debug" in
  let robot_host := args !!! "robot_host" in
  let robot_port := args !!! "robot_port" in
  let robot_user := args !!! "robot_user" in
  let robot_pass := args !!! "robot_pass" in
  let robot_keyfile := args !!! "robot_keyfile" in
  let robot_certfile := args !!! "robot_certfile" in
  let robot_upgrade_server_packages :=
    args !!! "robot_upgrade_server_packages" in
  Parsed {|
    server_log_level := robot_log_level;
    server_debug := robot_debug;
    server_host := robot_host;
    server_port := robot_port;
    server_user := robot_user;
    server_pass := robot_pass;
    server_keyfile := robot_keyfile;
    server_certfile := robot_certfile;
    server_upgrade_server_packages := robot_upgrade_server_packages
  |}.

End ServerCommandLine.

End Utils.

(** ** The upgrade decision *)

Module Policy.

Inductive UpgradePolicy := NEVER | OUTDATED | ALWAYS.

Inductive ComparisonResult := Satisfied | Violated | Indeterminate.

Record DependencyStatus := {
  installedVersion : option string;
  resolvedTarget : option string;
  comparisonResult : ComparisonResult
}.

Definition is_satisfied (r : ComparisonResult) : bool :=
  match r with Satisfied => true | _ => false end.

(** Modelled from the spec: the function [decide] of the upgrade policy
    resolver is not part of [utils.py]; this is the precedence table of
    section 4.4, evaluated top to bottom, first match wins. *)
Definition decide (serverPolicy : UpgradePolicy) (enforcementFlag : bool)
    (status : DependencyStatus) : bool :=
  match serverPolicy with
  | NEVER => false
  | _ =>
      if enforcementFlag then true
      else
        match serverPolicy with
        | ALWAYS => true
        | _ => negb (is_satisfied (comparisonResult status))
        end
  end.

End Policy.

(** ** Fixtures: a small version library and a package index *)

Module Fixtures.

Definition digit_of (c : ascii) : option N :=
  let n := N_of_ascii c in
  if ((48 <=? n) && (n <=? 57))%N then Some (n - 48)%N else None.

(** Release segments [N(.N)*]; any other string is refused. *)
Fixpoint parse_segments (s : string) (cur : option N) (acc : list N)
  : option (list N) :=
  match s with
  | EmptyString =>
      match cur with Some n => Some (acc ++ [n]) | None => None end
  | String c r =>
      if Ascii.eqb c "."
      then match cur with
           | Some n => parse_segments r None (acc ++ [n])
           | None => None
           end
      else match digit_of c with
           | Some d =>
               parse_segments r (Some (10 * default 0 cur + d)%N) acc
           | None => None
           end
  end.

Fixpoint drop_zeros (l : list N) : list N :=
  match l with
  | 0%N :: r => drop_zeros r
  | _ => l
  end.

Definition strip_trailing_zeros (l : list N) : list N :=
  rev (drop_zeros (rev l)).

Fixpoint lex_compare (a b : list N) : comparison :=
  match a, b with
  | [], [] => Eq
  | [], _ :: _ => Lt
  | _ :: _, [] => Gt
  | x :: a', y :: b' =>
      match N.compare x y with
      | Eq => lex_compare a' b'
      | c => c
      end
  end.

Definition release_packaging : Packaging := {|
  Version := list N;
  version_parse s := strip_trailing_zeros <$> parse_segments s None [];
  key_compare := lex_compare
|}.

(** A package index with three packages: one installed at 1.0.0 with
    2.5.0 on the index, one not installed, one whose index lookup
    raises.  Every other name makes the constructor raise. *)
Definition sample_index : JohnnyDep := {|
  Dist := option string * option (option string);
  JohnnyDist name :=
    if String.eqb name "requests"
    then Some (Some "1.0.0", Some (Some "2.5.0"))
    else if String.eqb name "notinstalled"
    then Some (None, Some (Some "1.0"))
    else if String.eqb name "offline"
    then Some (Some "1.2.0", None)
    else None;
  dist_truth _ := true;
  version_installed := fst;
  version_latest := snd
|}.

(** An interpreter that reads every string as ASCII text. *)
Definition ascii_unicode : Py.Unicode := {|
  Py.upper := Py.upper_ascii;
  Py.int := Py.int_ascii;
  Py.negative_number := Py.negative_number_ascii;
  Py.upper_isascii := λ _ _, eq_refl;
  Py.int_isascii := λ _ _ _, eq_refl;
  Py.negative_number_isascii := λ _ _, eq_refl
|}.

(** A file system with the directories [/tmp] and [.]. *)
Definition two_dirs (path : string) : bool :=
  String.eqb path "/tmp" || String.eqb path ".".

End Fixtures.

(** ** Vocabulary of the statements *)

Module Spec.

(** The target asks for the latest version: it is absent, empty, or the
    word "latest" in any letter case. *)
Definition latest_requested (specific_version : option string) : Prop :=
  match specific_version with
  | None => True
  | Some s => s = "" \/ Py.lower s = "latest"
  end.

(** The latest-version lookup fails: the property raises or is [None]. *)
Definition latest_lookup_fails (J : JohnnyDep) (d : Dist J) : Prop :=
  version_latest J d = None \/ version_latest J d = Some None.

(** The relation a compare operator denotes on two versions. *)
Definition denotes (P : Packaging) (op : string) (a b : Version P) : bool :=
  match key_compare P a b with
  | Lt => bool_decide (op ∈ ["<"; "<="; "!="])
  | Eq => bool_decide (op ∈ ["<="; "=="; ">="])
  | Gt => bool_decide (op ∈ [">"; ">="; "!="])
  end.

(** The same library with another answer to [version_latest]. *)
Definition with_version_latest (J : JohnnyDep)
    (f : Dist J -> option (option string)) : JohnnyDep := {|
  Dist := Dist J;
  JohnnyDist := JohnnyDist J;
  dist_truth := dist_truth J;
  version_installed := version_installed J;
  version_latest := f
|}.

(** Command line: the option of an ['O'] part stores to [d]. *)
Definition names (d : string) (t : Argparse.option_tuple) : bool :=
  match Argparse.tuple_action t with
  | Some a => bool_decide (Argparse.dest a = Some d)
  | None => false
  end.

(** The option of an ['O'] part is a help action. *)
Definition asks_help (part : string * Argparse.pattern) : bool :=
  match part.2 with
  | Argparse.PatO t =>
      match Argparse.tuple_action t with
      | Some a =>
          match Argparse.action a with Argparse.Help => true | _ => false end
      | None => false
      end
  | _ => false
  end.

(** The argument strings that an occurrence of an option is given: the
    explicit argument of [--flag=value], or else the argument strings that
    follow the flag. *)
Definition values_of (t : Argparse.option_tuple)
    (rest : list (string * Argparse.pattern)) : list string :=
  match Argparse.tuple_explicit_arg t with
  | Some explicit_arg => [explicit_arg]
  | None => Argparse.following_arguments rest
  end.

(** The occurrences on the command line of the options that store to [d],
    each with the argument strings it is given. *)
Fixpoint occurrences (d : string) (parts : list (string * Argparse.pattern))
  : list (list string) :=
  match parts with
  | [] => []
  | (_, Argparse.PatO t) :: rest =>
      if names d t
      then values_of t rest :: occurrences d rest
      else occurrences d rest
  | _ :: rest => occurrences d rest
  end.

(** The argument strings that the occurrences of the options that store to
    [d] hand to their actions, in order: of the strings of an occurrence
    argparse drops the first [--], which only the spelling [--flag=--]
    brings. *)
Definition kept (d : string) (parts : list (string * Argparse.pattern))
  : list string :=
  concat (Argparse.remove_dashes <$> occurrences d parts).

(** The option of a tuple is an action of the parser, under one of its
    own option strings. *)
Definition from_parser (parser : list Argparse.Action)
    (t : Argparse.option_tuple) : Prop :=
  forall a, Argparse.tuple_action t = Some a ->
    a ∈ parser /\ Argparse.tuple_option_string t ∈ Argparse.option_strings a.

Definition parts_from_parser (parser : list Argparse.Action)
    (parts : list (string * Argparse.pattern)) : Prop :=
  Forall (λ part, forall t, part.2 = Argparse.PatO t -> from_parser parser t)
    parts.

(** The list held under [d], as [_copy_items] reads it. *)
Definition items_of (o : option Py.pyval) : list Py.pyval :=
  match o with
  | Some (Py.VList l) => l
  | _ => []
  end.

(** What the namespace holds under [d] after the occurrences [occs], when
    it held [o] before them. *)
Definition accumulated (o : option Py.pyval) (occs : list (list string))
  : option Py.pyval :=
  match occs with
  | [] => o
  | _ :: _ => Some (Py.VList (items_of o ++ (Py.VStr <$> concat occs)))
  end.

(** An option that accumulates strings: [action="extend"], [nargs="+"], no
    choices, no default, no flag of two characters, and a type that returns
    its argument when it returns. *)
Definition extends_strings (a : Argparse.Action) : Prop :=
  Argparse.action a = Argparse.Extend /\
  Argparse.nargs a = Argparse.NargsPlus /\
  Argparse.choices a = None /\
  Argparse.default a = Py.VNone /\
  Forall (λ s, String.length s <> 2) (Argparse.option_strings a) /\
  (forall s v, Argparse.type a s = Argparse.Converted v -> v = Py.VStr s).

(** Every option of the parser that stores to [d] accumulates strings. *)
Definition accumulates (parser : list Argparse.Action) (d : string) : Prop :=
  Forall (λ a, Argparse.dest a = Some d -> extends_strings a) parser.

(** Only help actions have a single-dash flag. *)
Definition short_flags_are_help (parser : list Argparse.Action) : Prop :=
  Forall (λ a, Forall (λ s, Argparse.is_long s = true)
                 (Argparse.option_strings a)
               \/ Argparse.action a = Argparse.Help) parser.

(** Version check: the operator whose relation [operator_list] computes
    under the name [op]; [<] and [<=] stand for each other. *)
Definition exchanged (op : string) : string :=
  if String.eqb op "<" then "<="
  else if String.eqb op "<=" then "<"
  else op.

(** The target string of the comparison: the answer of the latest-version
    lookup when the latest version is asked for, else the target given. *)
Definition target_of (J : JohnnyDep) (d : Dist J)
    (specific_version : option string) (t : string) : Prop :=
  (latest_requested specific_version /\
   version_latest J d = Some (Some t))
  \/ (~ latest_requested specific_version /\
      specific_version = Some t).

(** The calls that the version check can make to johnnydep, in order. *)
Definition lookups (package_name : string) : list provider_call :=
  [NewJohnnyDist package_name; GetVersionInstalled; GetVersionLatest].

(** Paths: the string holds a separator. *)
Fixpoint has_sep (s : string) : bool :=
  match s with
  | EmptyString => false
  | String c r => Ascii.eqb c "/" || has_sep r
  end.

(** A component that [normpath] keeps: not empty, not [.], no separator. *)
Definition clean (c : string) : Prop :=
  c <> "" /\ c <> "." /\ has_sep c = false.

(** The components of a normal path that starts with [k] slashes: clean,
    and [..] only at the front of a relative path. *)
Definition normal_comps (k : nat) (comps : list string) : Prop :=
  Forall clean comps /\
  exists j rest,
    comps = replicate j ".." ++ rest /\ (".." ∉ rest) /\ (k <> 0 -> j = 0).

(** The string of [k] slashes. *)
Definition slashes (k : nat) : string := String.concat "" (replicate k "/").

(** The string holds a backslash. *)
Fixpoint has_backslash (s : string) : bool :=
  match s with
  | EmptyString => false
  | String c r => Ascii.eqb c "\" || has_backslash r
  end.

(** A suite name that is one path component: not empty, without slash or
    backslash. *)
Definition plain_name (n : string) : Prop :=
  n <> "" /\ has_sep n = false /\ has_backslash n = false.

(** Command line: the uses of the options that store to [d], each with its
    action and the argument strings that stand for it. *)
Fixpoint uses (d : string) (parts : list (string * Argparse.pattern))
  : list (Argparse.Action * list string) :=
  match parts with
  | [] => []
  | (_, Argparse.PatO t) :: rest =>
      match Argparse.tuple_action t with
      | Some a =>
          if bool_decide (Argparse.dest a = Some d)
          then (a, values_of t rest) :: uses d rest
          else uses d rest
      | None => uses d rest
      end
  | _ :: rest => uses d rest
  end.

(** The argument strings that an action takes of those that stand for it. *)
Definition given (a : Argparse.Action) (vals : list string) : list string :=
  match Argparse.nargs a with
  | Argparse.NargsNone => take 1 vals
  | Argparse.NargsPlus => vals
  | Argparse.NargsZero => []
  end.

(** What a [store] or [store_true] action writes for the value [v] of its
    argument strings. *)
Definition stored (a : Argparse.Action) (v : Py.pyval) : Py.pyval :=
  match Argparse.action a with
  | Argparse.StoreTrue => Py.VBool true
  | _ => v
  end.

(** An option that overwrites its destination: [store] or [store_true],
    under double-dash flags only, with a string default that its type
    leaves as it is. *)
Definition overwrites (a : Argparse.Action) : Prop :=
  (Argparse.action a = Argparse.Store
   \/ Argparse.action a = Argparse.StoreTrue) /\
  Forall (λ s, Argparse.is_long s = true /\ String.length s <> 2)
    (Argparse.option_strings a) /\
  (forall s, Argparse.default a = Py.VStr s ->
     Argparse.type a s = Argparse.Converted (Py.VStr s)).

Definition overwritten (parser : list Argparse.Action) (d : string) : Prop :=
  Forall (λ a, Argparse.dest a = Some d -> overwrites a) parser.

(** The value under [d] after the uses [us], from first to last, when it
    was [o] before them: every use is given what its action needs and
    writes the value of its argument strings. *)
Fixpoint overwrite_result (o o' : option Py.pyval)
    (us : list (Argparse.Action * list string)) : Prop :=
  match us with
  | [] => o' = o
  | (a, vals) :: us =>
      (Argparse.nargs a <> Argparse.NargsZero -> vals <> []) /\
      exists v,
        Argparse._get_values a (given a vals) = Argparse.Parsed v /\
        overwrite_result (Some (stored a v)) o' us
  end.

(** The argument string that each occurrence of a one-argument option
    takes: the first of those that stand for it. *)
Definition taken (occs : list (list string)) : list string :=
  omap head occs.

(** The argument string that the last occurrence of a one-argument option
    takes, if the option occurs. *)
Definition last_taken (d : string) (parts : list (string * Argparse.pattern))
  : option string :=
  last (taken (occurrences d parts)).

(** Every occurrence of the option is given an argument string. *)
Definition each_given (d : string) (parts : list (string * Argparse.pattern))
  : Prop :=
  Forall (λ vals, vals <> []) (occurrences d parts).

(** The option occurs. *)
Definition occurs (d : string) (parts : list (string * Argparse.pattern))
  : bool :=
  match occurrences d parts with [] => false | _ :: _ => true end.

(** An argument string that no option of the parser can take: the
    separator [--] or an option string that the parser does not know. *)
Definition stray (part : string * Argparse.pattern) : bool :=
  match part.2 with
  | Argparse.PatDashes => true
  | Argparse.PatO t =>
      match Argparse.tuple_action t with None => true | Some _ => false end
  | Argparse.PatA => false
  end.

(** A part at which no parse goes on to a result: a stray argument string
    or the option of a help action. *)
Definition ends_parse (part : string * Argparse.pattern) : bool :=
  stray part || asks_help part.

(** How [_parse_optional] reads an argument string that ends every parse:
    as the separator, as an option that the parser does not know, or as an
    option of a help action. *)
Definition read_as_end `{U : Py.Unicode} (parser : list Argparse.Action)
    (s : string) : Prop :=
  s = "--" \/
  exists t, Argparse._parse_optional parser s = Argparse.Parsed (Some t) /\
            ends_parse (s, Argparse.PatO t) = true.

End Spec.

(** * Properties of the version check *)

Section PipCheckFacts.

Context (P : Packaging) (J : JohnnyDep).
Import Utils.

Ltac eval_unfold :=
  unfold run_check, check_for_pip_package_condition, assert_, called, raise,
    mbind, mret, Eval_bind, Eval_ret, eval_bind, eval_ret.

Lemma valid_operator_cases (op : string) :
  op ∈ valid_operators ->
  op = ">" \/ op = ">=" \/ op = "<" \/ op = "<=" \/ op = "!=" \/ op = "==".
Proof.
  unfold valid_operators. rewrite !elem_of_cons, elem_of_nil. tauto.
Qed.

Lemma operator_list_total (op : string) :
  op ∈ valid_operators -> is_Some (operator_list P !! op).
Proof.
  intros H. apply valid_operator_cases in H.
  destruct H as [-> | [-> | [-> | [-> | [-> | ->]]]]]; eexists; reflexivity.
Qed.


Lemma operator_list_defined (op : string) :
  is_Some (operator_list P !! op) -> op ∈ valid_operators.
Proof.
  intros [g Hg].
  destruct (decide (op ∈ valid_operators)) as [|Hn]; [assumption|].
  exfalso. unfold operator_list in Hg.
  rewrite (not_elem_of_list_to_map_1 _ op) in Hg; [discriminate|].
  intros Hin. apply Hn. revert Hin. unfold valid_operators. simpl.
  rewrite !elem_of_cons, !elem_of_nil. tauto.
Qed.

Lemma latest_requested_branch (ver : option string) :
  Spec.latest_requested ver <->
  Py.str_truthy ver
    && negb (bool_decide (Py.lower <$> ver = Some "latest")) = false.
Proof.
  destruct ver as [s|]; simpl; [|tauto].
  destruct (String.eqb_spec s "") as [->|Hne]; simpl.
  - tauto.
  - rewrite negb_false_iff, bool_decide_eq_true. split.
    + intros [?| ->]; [contradiction | reflexivity].
    + intros [= ->]. now right.
Qed.

Lemma literal_target_branch (s : string) :
  s <> "" -> Py.lower s <> "latest" ->
  Py.str_truthy (Some s)
    && negb (bool_decide (Py.lower <$> Some s = Some "latest")) = true.
Proof.
  intros Hne Hl. apply not_false_iff_true. intros Hf.
  apply latest_requested_branch in Hf. destruct Hf; contradiction.
Qed.

(** C2. An operator outside the six recognised symbols makes the function
    raise at its first statement: the exception is [AssertionError] and the
    record of calls to johnnydep is the one the function started with. *)
Theorem invalid_operator_raises_before_lookup
    (name op : string) (ver : option string) (t : list provider_call) :
  op ∉ valid_operators ->
  check_for_pip_package_condition P J name op ver t
  = (Raise AssertionError, t).
Proof.
  intros H. eval_unfold.
  rewrite bool_decide_eq_false_2 by exact H. reflexivity.
Qed.


(** C3. With one of the six operators the function returns and does not
    raise; a constructor that raises, an absent installed version, a failed
    latest-version lookup, and an installed, literal or looked-up version
    string that does not parse each give [None]. *)
Theorem valid_operator_never_raises
    (name op : string) (ver : option string) :
  op ∈ valid_operators ->
  (exists r calls, run_check P J name op ver = (Return r, calls)) /\
  (JohnnyDist J name = None ->
     (run_check P J name op ver).1 = Return None) /\
  (forall d, JohnnyDist J name = Some d -> version_installed J d = None ->
     (run_check P J name op ver).1 = Return None) /\
  (forall d, JohnnyDist J name = Some d -> Spec.latest_requested ver ->
     Spec.latest_lookup_fails J d ->
     (run_check P J name op ver).1 = Return None) /\
  (forall d i, JohnnyDist J name = Some d ->
     version_installed J d = Some i -> version_parse P i = None ->
     (run_check P J name op ver).1 = Return None) /\
  (forall s, ver = Some s -> ~ Spec.latest_requested ver ->
     version_parse P s = None ->
     (run_check P J name op ver).1 = Return None) /\
  (forall d l, JohnnyDist J name = Some d -> Spec.latest_requested ver ->
     version_latest J d = Some (Some l) -> version_parse P l = None ->
     (run_check P J name op ver).1 = Return None).
Proof.
  intros Hop.
  pose proof (operator_list_total op Hop) as [f Hf].
  assert (Hb : bool_decide (op ∈ valid_operators) = true)
    by (apply bool_decide_eq_true; exact Hop).
  pose proof (latest_requested_branch ver) as Hbr.
  unfold Spec.latest_lookup_fails.
  eval_unfold. rewrite Hb, Hf. simpl.
  destruct (JohnnyDist J name) as [d|] eqn:Hd; simpl.
  2:{ repeat split; eauto; intros; congruence. }
  destruct (dist_truth J d) eqn:Ht; simpl.
  2:{ repeat split; eauto. }
  destruct (Py.str_truthy ver
            && negb (bool_decide (Py.lower <$> ver = Some "latest")))
    eqn:Hlit; simpl.
  - assert (Hnl : ~ Spec.latest_requested ver)
      by (intros Hx; apply Hbr in Hx; discriminate).
    destruct ver as [s|]; [|discriminate].
    destruct (Py.str_truthy (Some s)) eqn:Hs; [|discriminate]. simpl.
    destruct (version_installed J d) as [i|] eqn:Hi; simpl.
    2:{ repeat split; eauto; intros; try contradiction; congruence. }
    destruct (negb (i =? "")); simpl.
    2:{ repeat split; eauto. }
    destruct (version_parse P i) as [vi|] eqn:Hpi; simpl.
    2:{ repeat split; eauto. }
    destruct (version_parse P s) as [vs|] eqn:Hps; simpl.
    2:{ repeat split; eauto. }
    repeat split; eauto; intros; simplify_eq; try contradiction.
  - assert (Hl : Spec.latest_requested ver) by (apply Hbr; reflexivity).
    destruct (version_latest J d) as [[l|]|] eqn:Hlat; simpl.
    2,3: repeat split; eauto.
    destruct (negb (l =? "")); simpl.
    2:{ repeat split; eauto. }
    destruct (version_installed J d) as [i|] eqn:Hi; simpl.
    2:{ repeat split; eauto. }
    destruct (negb (i =? "")); simpl.
    2:{ repeat split; eauto. }
    destruct (version_parse P i) as [vi|] eqn:Hpi; simpl.
    2:{ repeat split; eauto. }
    destruct (version_parse P l) as [vl|] eqn:Hpl; simpl.
    2:{ repeat split; eauto. }
    repeat split; eauto; intros; simplify_eq; try contradiction;
      try (destruct H1; congruence).
Qed.


Ltac enter_check Hop :=
  let f := fresh "f" in
  let Hf := fresh "Hf" in
  let Hb := fresh "Hb" in
  pose proof (operator_list_total _ Hop) as [f Hf];
  assert (Hb : bool_decide (_ ∈ valid_operators) = true)
    by (apply bool_decide_eq_true; exact Hop);
  eval_unfold; rewrite ?Hb, ?Hf; simpl.

(** C4. When the target is the word "latest" in any letter case and the
    latest-version lookup fails, the result is [None] whatever the installed
    version is; and when the installed version is absent the result is
    [None] whatever the target is. *)
Theorem failed_lookup_is_indeterminate
    (name op : string) (ver : option string) :
  op ∈ valid_operators ->
  ((exists s, ver = Some s /\ Py.lower s = "latest") ->
   (forall d, JohnnyDist J name = Some d -> Spec.latest_lookup_fails J d) ->
   (run_check P J name op ver).1 = Return None) /\
  ((forall d, JohnnyDist J name = Some d -> version_installed J d = None) ->
   (run_check P J name op ver).1 = Return None).
Proof.
  intros Hop. split.
  - intros (s & -> & Hs) Hfail.
    assert (Hbr : Py.str_truthy (Some s)
              && negb (bool_decide (Py.lower <$> Some s = Some "latest"))
              = false).
    { apply latest_requested_branch. simpl. now right. }
    enter_check Hop.
    destruct (JohnnyDist J name) as [d|] eqn:Hd; simpl; [|reflexivity].
    destruct (dist_truth J d); simpl; [|reflexivity].
    simpl in Hbr. rewrite Hbr. simpl.
    destruct (Hfail d eq_refl) as [-> | ->]; reflexivity.
  - intros Habs. enter_check Hop.
    destruct (JohnnyDist J name) as [d|] eqn:Hd; simpl; [|reflexivity].
    destruct (dist_truth J d); simpl; [|reflexivity].
    rewrite (Habs d eq_refl).
    repeat (case_match; simpl in *; simplify_eq; try reflexivity).
Qed.


(** C8. A target that is neither empty nor the word "latest" is the
    comparison target as it stands: [version_latest] is not read, the
    outcome and the calls are the same whatever [version_latest] would
    answer, and the result compares the installed version with the parsed
    target. *)
Theorem literal_target_is_used_verbatim (name op s : string) :
  s <> "" -> Py.lower s <> "latest" ->
  (GetVersionLatest ∉ (run_check P J name op (Some s)).2) /\
  (forall f,
     run_check P (Spec.with_version_latest J f) name op (Some s)
     = run_check P J name op (Some s)) /\
  (forall d i vi vt g,
     JohnnyDist J name = Some d -> dist_truth J d = true ->
     version_installed J d = Some i -> i <> "" ->
     version_parse P i = Some vi -> version_parse P s = Some vt ->
     operator_list P !! op = Some g ->
     (run_check P J name op (Some s)).1 = Return (Some (g vi vt))).
Proof.
  intros Hne Hl.
  pose proof (literal_target_branch s Hne Hl) as Hbr. simpl in Hbr.
  split; [|split].
  - eval_unfold. simpl. rewrite Hbr.
    repeat (case_match; simpl in *; simplify_eq);
      rewrite ?elem_of_cons, ?elem_of_nil; intuition discriminate.
  - intros f. eval_unfold. simpl. rewrite Hbr. reflexivity.
  - intros d i vi vt g Hd Ht Hi Hin Hpi Hps Hg.
    assert (Hop : bool_decide (op ∈ valid_operators) = true)
      by (apply bool_decide_eq_true, operator_list_defined; eauto).
    eval_unfold. simpl. rewrite Hop, Hd. simpl. rewrite Ht. simpl.
    rewrite Hi, Hbr. simpl.
    destruct (String.eqb_spec s "") as [|_]; [contradiction|].
    destruct (String.eqb_spec i "") as [|_]; [contradiction|]. simpl.
    rewrite Hpi, Hps, Hg. reflexivity.
Qed.

(** C10. An absent or empty target takes the branch of the word "latest":
    the function behaves as it does for ["latest"], reads [version_latest]
    once the distribution is found, and compares the installed version with
    the version that lookup answers. *)
Theorem empty_target_is_treated_as_latest (name op : string) :
  (forall t,
     check_for_pip_package_condition P J name op None t
     = check_for_pip_package_condition P J name op (Some "latest") t) /\
  (forall t,
     check_for_pip_package_condition P J name op (Some "") t
     = check_for_pip_package_condition P J name op (Some "latest") t) /\
  (forall ver d,
     ver = None \/ ver = Some "" ->
     op ∈ valid_operators ->
     JohnnyDist J name = Some d -> dist_truth J d = true ->
     GetVersionLatest ∈ (run_check P J name op ver).2 /\
     (forall i l vi vl g,
        version_installed J d = Some i -> i <> "" ->
        version_latest J d = Some (Some l) -> l <> "" ->
        version_parse P i = Some vi -> version_parse P l = Some vl ->
        operator_list P !! op = Some g ->
        (run_check P J name op ver).1 = Return (Some (g vi vl)))).
Proof.
  split; [|split].
  - intros t. reflexivity.
  - intros t. reflexivity.
  - intros ver d Hver Hop Hd Ht.
    assert (Hb : bool_decide (op ∈ valid_operators) = true)
      by (apply bool_decide_eq_true; exact Hop).
    split.
    + eval_unfold. rewrite Hb. simpl. rewrite Hd. simpl. rewrite Ht.
      destruct Hver as [-> | ->]; simpl;
        repeat (case_match; simpl in *; simplify_eq);
        rewrite ?elem_of_cons; tauto.
    + intros i l vi vl g Hi Hin Hl Hln Hpi Hpl Hg.
      eval_unfold. rewrite Hb. simpl. rewrite Hd. simpl. rewrite Ht.
      destruct Hver as [-> | ->]; simpl; rewrite Hi, Hl; simpl;
        destruct (String.eqb_spec l "") as [|_]; try contradiction;
        destruct (String.eqb_spec i "") as [|_]; try contradiction; simpl;
        rewrite Hpi, Hpl, Hg; reflexivity.
Qed.

(** What each entry of [operator_list] computes: the four operators
    [==], [!=], [>] and [>=] compute the relation they denote, while [<]
    computes less-or-equal and [<=] computes strictly-less. *)
Lemma operator_list_relations (a b : Version P) :
  (forall op g, op ∈ ["=="; "!="; ">"; ">="] ->
     operator_list P !! op = Some g -> g a b = Spec.denotes P op a b) /\
  operator_list P !! "<" = Some (operator_le P) /\
  operator_list P !! "<=" = Some (operator_lt P).
Proof.
  split; [|split; reflexivity].
  intros op g Hop.
  rewrite !elem_of_cons, elem_of_nil in Hop.
  destruct Hop as [-> | [-> | [-> | [-> | []]]]]; intros Hg;
    [ replace g with (operator_eq P) by (now injection Hg)
    | replace g with (operator_ne P) by (now injection Hg)
    | replace g with (operator_gt P) by (now injection Hg)
    | replace g with (operator_ge P) by (now injection Hg) ];
    unfold Spec.denotes, operator_eq, operator_ne, operator_gt, operator_ge;
    destruct (key_compare P a b); reflexivity.
Qed.

End PipCheckFacts.

(** C7. Under the server policy [NEVER] the decision is [false] for every
    enforcement flag and every status, so also for an enforcing client and a
    violated requirement. *)
Theorem never_policy_vetoes_upgrade
    (enforcementFlag : bool) (status : Policy.DependencyStatus) :
  Policy.decide Policy.NEVER enforcementFlag status = false.
Proof. reflexivity. Qed.

(** * The properties at concrete inputs *)

Section PipCheckExamples.

Import Utils Fixtures.
Abbreviation run := (run_check release_packaging sample_index).

(** C1. With 1.0.0 installed and the target 1.0.0, the function answers
    [True] for [<] and [False] for [<=], although 1.0.0 < 1.0.0 does not
    hold and 1.0.0 <= 1.0.0 does: the two entries of [operator_list] are
    exchanged. *)
Theorem less_than_accepts_equal_versions :
  run "requests" "<" (Some "1.0.0")
  = (Return (Some true), [NewJohnnyDist "requests"; GetVersionInstalled]) /\
  run "requests" "<=" (Some "1.0.0")
  = (Return (Some false), [NewJohnnyDist "requests"; GetVersionInstalled]) /\
  Spec.denotes release_packaging "<" [1%N] [1%N] = false /\
  Spec.denotes release_packaging "<=" [1%N] [1%N] = true.
Proof. repeat split; vm_compute; reflexivity. Qed.

Lemma invalid_operator_raises_before_lookup_witness :
("~=" ∉ valid_operators) /\
  check_for_pip_package_condition release_packaging sample_index
    "requests" "~=" (Some "1.0.0") []
  = (Raise AssertionError, []).
Proof.
  assert (H : "~=" ∉ valid_operators)
    by (apply (bool_decide_unpack _); vm_compute; exact I).
  split; [exact H|].
  exact (invalid_operator_raises_before_lookup release_packaging
           sample_index "requests" "~=" (Some "1.0.0") [] H).
Defined.

Lemma valid_operator_never_raises_witness :
("==" ∈ valid_operators) /\
  (run "requests" "==" (Some "not-a-version")).1 = Return None.
Proof.
  assert (H : "==" ∈ valid_operators)
    by (apply (bool_decide_unpack _); vm_compute; exact I).
  split; [exact H|].
  pose proof (valid_operator_never_raises release_packaging sample_index
                "requests" "==" (Some "not-a-version") H)
    as (_ & _ & _ & _ & _ & Hlit & _).
  apply (Hlit "not-a-version").
  - reflexivity.
  - simpl. intros [?|?]; discriminate.
  - reflexivity.
Defined.

Lemma failed_lookup_is_indeterminate_witness :
(">=" ∈ valid_operators) /\
  (run "offline" ">=" (Some "LATEST")).1 = Return None /\
  (run "notinstalled" ">=" (Some "1.0")).1 = Return None.
Proof.
  assert (H : ">=" ∈ valid_operators)
    by (apply (bool_decide_unpack _); vm_compute; exact I).
  split; [exact H|]. split.
  - apply (proj1 (failed_lookup_is_indeterminate release_packaging
                    sample_index "offline" ">=" (Some "LATEST") H)).
    + exists "LATEST". split; reflexivity.
    + intros d [= <-]. left. reflexivity.
  - apply (proj2 (failed_lookup_is_indeterminate release_packaging
                    sample_index "notinstalled" ">=" (Some "1.0") H)).
    intros d [= <-]. reflexivity.
Defined.

Lemma literal_target_is_used_verbatim_witness :
  "2.0.0" <> "" /\ Py.lower "2.0.0" <> "latest" /\
  (GetVersionLatest ∉ (run "requests" ">" (Some "2.0.0")).2) /\
  (run "requests" ">" (Some "2.0.0")).1 = Return (Some false).
Proof.
  assert (H1 : "2.0.0" <> "") by discriminate.
  assert (H2 : Py.lower "2.0.0" <> "latest") by discriminate.
  destruct (literal_target_is_used_verbatim release_packaging sample_index
              "requests" ">" "2.0.0" H1 H2) as (Hcalls & _ & Hcmp).
  split; [exact H1|]. split; [exact H2|]. split; [exact Hcalls|].
  apply (Hcmp (Some "1.0.0", Some (Some "2.5.0")) "1.0.0" [1%N] [2%N]
           (operator_gt release_packaging));
    try reflexivity; discriminate.
Defined.

Lemma empty_target_is_treated_as_latest_witness :
  run "requests" "==" None = run "requests" "==" (Some "latest") /\
  (GetVersionLatest ∈ (run "requests" "==" (Some "")).2) /\
  (run "requests" "==" (Some "")).1 = Return (Some false).
Proof.
  destruct (empty_target_is_treated_as_latest release_packaging
              sample_index "requests" "==") as (Hnone & _ & Hlook).
  split; [exact (Hnone [])|].
  assert (Hop : "==" ∈ valid_operators)
    by (apply (bool_decide_unpack _); vm_compute; exact I).
  destruct (Hlook (Some "") (Some "1.0.0", Some (Some "2.5.0"))
              (or_intror eq_refl) Hop eq_refl eq_refl) as [Hin Hcmp].
  split; [exact Hin|].
  apply (Hcmp "1.0.0" "2.5.0" [1%N] [2%N; 5%N]
           (operator_eq release_packaging));
    try reflexivity; discriminate.
Defined.

End PipCheckExamples.

(** * Properties of the command line parser *)

Section ArgparseFacts.

Import Py Argparse.

Context `{U : Py.Unicode}.

Context (parser : list Action).

Lemma assoc_elem_of {A} (k : string) (l : list (string * A)) (v : A) :
  assoc k l = Some v -> (k, v) ∈ l.
Proof.
  induction l as [|[k' v'] l IH]; simpl; [discriminate|].
  destruct (String.eqb_spec k k') as [->|_].
  - intros [= ->]. left.
  - intros H. right. auto.
Qed.

Lemma option_string_actions_elem_of (s : string) (a : Action) :
  (s, a) ∈ option_string_actions parser ->
  a ∈ parser /\ s ∈ option_strings a.
Proof.
  unfold option_string_actions. rewrite list_elem_of_bind.
  intros (a' & Hin & Ha'). apply list_elem_of_fmap in Hin.
  destruct Hin as (s' & [= -> ->] & Hs'). auto.
Qed.

Lemma _get_option_tuples_from_parser (s : string) (t : option_tuple) :
  t ∈ _get_option_tuples parser s -> Spec.from_parser parser t.
Proof.
  unfold _get_option_tuples.
  destruct (is_long s).
  - destruct (match split_equals s with
              | Some (p, e) => (p, Some e) | None => (s, None) end)
      as [option_prefix explicit_arg].
    rewrite list_elem_of_omap. intros ([s' a] & Hin & Ht).
    destruct (String.prefix option_prefix s'); [|discriminate].
    injection Ht as <-. intros a' [= <-]. simpl.
    now apply option_string_actions_elem_of.
  - rewrite list_elem_of_omap. intros ([s' a] & Hin & Ht).
    destruct (String.eqb s' _).
    + injection Ht as <-. intros a' [= <-]. simpl.
      now apply option_string_actions_elem_of.
    + destruct (String.prefix s s'); [|discriminate].
      injection Ht as <-. intros a' [= <-]. simpl.
      now apply option_string_actions_elem_of.
Qed.

Lemma _parse_optional_from_parser (s : string) (t : option_tuple) :
  _parse_optional parser s = Parsed (Some t) -> Spec.from_parser parser t.
Proof.
  unfold _parse_optional.
  destruct (String.eqb s ""); [discriminate|].
  destruct (negb (starts_with_prefix_char s)); [discriminate|].
  destruct (assoc s (option_string_actions parser)) as [a|] eqn:Ha.
  { intros [= <-] a' [= <-]. simpl.
    apply option_string_actions_elem_of, assoc_elem_of, Ha. }
  destruct (String.length s =? 1)%nat; [discriminate|].
  destruct (split_equals s) as [[option_string explicit_arg]|] eqn:Hsp; simpl.
  - destruct (assoc option_string (option_string_actions parser))
      as [a|] eqn:Ha'; simpl.
    { intros [= <-] a' [= <-]. simpl.
      apply option_string_actions_elem_of, assoc_elem_of, Ha'. }
    destruct (_get_option_tuples parser s) as [|t1 [|t2 ts]] eqn:Hts.
    + repeat case_match; try discriminate.
      intros [= <-] a' Hn. discriminate.
    + intros [= <-]. apply (_get_option_tuples_from_parser s).
      rewrite Hts. left.
    + discriminate.
  - destruct (_get_option_tuples parser s) as [|t1 [|t2 ts]] eqn:Hts.
    + repeat case_match; try discriminate.
      intros [= <-] a' Hn. discriminate.
    + intros [= <-]. apply (_get_option_tuples_from_parser s).
      rewrite Hts. left.
    + discriminate.
Qed.

Lemma arg_strings_pattern_from_parser (args : list string)
    (parts : list (string * pattern)) :
  arg_strings_pattern parser args = Parsed parts ->
  Spec.parts_from_parser parser parts.
Proof.
  unfold Spec.parts_from_parser.
  revert parts. induction args as [|s args IH]; intros parts; simpl.
  - intros [= <-]. constructor.
  - destruct (String.eqb s "--").
    + intros [= <-]. constructor; [intros t; discriminate|].
      apply Forall_fmap, Forall_true. intros x t. discriminate.
    + destruct (_parse_optional parser s) as [o| |] eqn:Ho; simpl;
        try discriminate.
      destruct (arg_strings_pattern parser args) as [parts'| |]; simpl;
        try discriminate.
      intros [= <-]. constructor; [|auto].
      simpl. destruct o as [t|]; simpl; [|discriminate].
      intros t' [= <-]. now apply _parse_optional_from_parser with s.
Qed.


Lemma _match_argument_bound (a : Action) (following : list string) (n : nat) :
  _match_argument a following = Parsed n -> n <= length following.
Proof.
  unfold _match_argument.
  destruct (nargs a), following; simpl; intros [= <-]; simpl; lia.
Qed.

Lemma explicit_arg_tuples_bound (e : string) :
  forall (a : Action) (os : string) (following : list string)
         (tuples : list (Action * list string)) (n : nat),
  explicit_arg_tuples parser a os e following = Parsed (tuples, n) ->
  n <= length following.
Proof.
  induction e as [|c e IH]; intros a os following tuples n; simpl.
  - destruct (nargs a); try (intros [= <- <-]; lia).
    destruct (is_long os); discriminate.
  - destruct (nargs a); try (intros [= <- <-]; lia).
    destruct (is_long os); [discriminate|].
    destruct (assoc _ _) as [a'|]; [|discriminate].
    destruct e as [|c' e'].
    + destruct (_match_argument a' following) as [j| |] eqn:Hj; simpl;
        try discriminate.
      intros [= <- <-]. now apply _match_argument_bound with a'.
    + destruct (explicit_arg_tuples parser a' _ (String c' e') following)
        as [[tuples' j]| |] eqn:Hrec; simpl; try discriminate.
      intros [= <- <-]. eapply IH, Hrec.
Qed.

Lemma consume_optional_bound (s : string) (t : option_tuple)
    (following : list string) (st st' : parse_state) (n : nat) :
  consume_optional parser s t following st = Parsed (n, st') ->
  n <= length following.
Proof.
  unfold consume_optional.
  destruct (tuple_action t) as [a|]; [|intros [= <- <-]; lia].
  destruct (tuple_explicit_arg t) as [e|].
  - destruct (explicit_arg_tuples parser a _ e following)
      as [[tuples k]| |] eqn:He; simpl; try discriminate.
    destruct (take_actions tuples st); simpl; try discriminate.
    intros [= <- <-]. eapply explicit_arg_tuples_bound, He.
  - destruct (_match_argument a following) as [j| |] eqn:Hj; simpl;
      try discriminate.
    destruct (take_action a _ st); simpl; try discriminate.
    intros [= <- <-]. now apply _match_argument_bound with a.
Qed.

(** ** One destination *)

Context (d : string) (Hacc : Spec.accumulates parser d).

(** A property of the strings that the types of these options accept. *)
Context (ok : string -> Prop).
Context (Hok : Forall (λ a, dest a = Some d ->
                        forall s v, type a s = Converted v -> ok s) parser).

Lemma accepted_elem_of (a : Action) :
  a ∈ parser -> dest a = Some d ->
  forall s v, type a s = Converted v -> ok s.
Proof.
  intros Hin Hd. pose proof Hok as H. rewrite Forall_forall in H.
  exact (H a Hin Hd).
Qed.

Lemma accumulates_elem_of (a : Action) :
  a ∈ parser -> dest a = Some d -> Spec.extends_strings a.
Proof.
  intros Hin Hd. pose proof Hacc as H. unfold Spec.accumulates in H.
  rewrite Forall_forall in H. exact (H a Hin Hd).
Qed.

Lemma _get_value_each_strings (a : Action) (args : list string)
    (vs : list pyval) :
  (forall s v, type a s = Converted v -> v = VStr s) ->
  _get_value_each a args = Parsed vs -> vs = VStr <$> args.
Proof.
  intros Hty. revert vs. induction args as [|s args IH]; intros vs; simpl.
  - now intros [= <-].
  - unfold _get_value at 1. destruct (type a s) as [v|] eqn:Hv; simpl;
      [|discriminate].
    destruct (_get_value_each a args) as [vs'| |]; simpl; try discriminate.
    intros [= <-]. rewrite (Hty _ _ Hv), (IH vs' eq_refl). reflexivity.
Qed.

Lemma _get_value_each_accepted (a : Action) (args : list string)
    (vs : list pyval) :
  (forall s v, type a s = Converted v -> ok s) ->
  _get_value_each a args = Parsed vs -> Forall ok args.
Proof.
  intros Hty. revert vs. induction args as [|s args IH]; intros vs; simpl.
  - constructor.
  - unfold _get_value at 1. destruct (type a s) as [v|] eqn:Hv; simpl;
      [|discriminate].
    destruct (_get_value_each a args) as [vs'| |]; simpl; try discriminate.
    intros _. constructor; eauto.
Qed.

Lemma take_action_other (a : Action) (args : list string)
    (st st' : parse_state) :
  dest a <> Some d ->
  take_action a args st = Parsed st' ->
  namespace st' !! d = namespace st !! d.
Proof.
  intros Hd. unfold take_action.
  destruct (_get_values a args) as [v| |]; simpl; try discriminate.
  unfold call_action.
  destruct (action a), (dest a) as [d'|]; simpl; try discriminate;
    intros [= <-]; simpl; try reflexivity;
    apply lookup_insert_ne; congruence.
Qed.

Lemma take_action_extends (a : Action) (args : list string)
    (st st' : parse_state) :
  Spec.extends_strings a -> dest a = Some d ->
  (forall s v, type a s = Converted v -> ok s) ->
  take_action a args st = Parsed st' ->
  namespace st' !! d
  = Some (VList (Spec.items_of (namespace st !! d)
                 ++ (VStr <$> remove_dashes args)))
  /\ Forall ok (remove_dashes args).
Proof.
  intros (Hact & Hn & Hch & _ & _ & Hty) Hd Hacc'.
  unfold take_action, _get_values. cbv zeta.
  rewrite Hn.
  destruct (_get_value_each a (remove_dashes args)) as [vs| |] eqn:Hvs;
    simpl; try discriminate.
  destruct (_check_value_each a vs) as [[]| |]; simpl; try discriminate.
  unfold call_action. rewrite Hact, Hd. simpl. intros [= <-]. simpl.
  rewrite lookup_insert_eq.
  rewrite (_get_value_each_strings a _ vs Hty Hvs).
  split; [reflexivity|]. now apply _get_value_each_accepted with a vs.
Qed.

Lemma take_actions_other (tuples : list (Action * list string))
    (st st' : parse_state) :
  Forall (λ x, dest x.1 <> Some d) tuples ->
  take_actions tuples st = Parsed st' ->
  namespace st' !! d = namespace st !! d.
Proof.
  intros Hall. revert st. induction Hall as [|[a args] tuples Ha _ IH];
    intros st; simpl.
  - now intros [= <-].
  - destruct (take_action a args st) as [st1| |] eqn:H1; simpl;
      try discriminate.
    intros H2. rewrite (IH _ H2). now apply take_action_other with a args.
Qed.

Lemma short_flag_other (c : ascii) (a : Action) :
  assoc (String "-" (String c EmptyString)) (option_string_actions parser)
  = Some a ->
  a ∈ parser /\ dest a <> Some d.
Proof.
  intros H. apply assoc_elem_of, option_string_actions_elem_of in H.
  destruct H as [Hin Hs]. split; [assumption|]. intros Hd.
  destruct (accumulates_elem_of a Hin Hd) as (_ & _ & _ & _ & Hlen & _).
  rewrite Forall_forall in Hlen. now apply (Hlen _ Hs).
Qed.

Lemma explicit_arg_tuples_names (e : string) :
  forall (a : Action) (os : string) (following : list string)
         (tuples : list (Action * list string)) (n : nat),
  a ∈ parser ->
  explicit_arg_tuples parser a os e following = Parsed (tuples, n) ->
  n <= length following /\
  (dest a = Some d -> tuples = [(a, [e])]) /\
  (dest a <> Some d -> Forall (λ x, dest x.1 <> Some d) tuples).
Proof.
  induction e as [|c e IH]; intros a os following tuples n Hin; simpl.
  - destruct (nargs a) eqn:Hn.
    + intros [= <- <-]. split; [simpl; lia|]. split; intros Hd;
        [reflexivity | repeat constructor; exact Hd].
    + intros [= <- <-]. split; [simpl; lia|]. split; intros Hd;
        [reflexivity | repeat constructor; exact Hd].
    + destruct (is_long os); discriminate.
  - destruct (nargs a) eqn:Hn.
    + intros [= <- <-]. split; [simpl; lia|]. split; intros Hd;
        [reflexivity | repeat constructor; exact Hd].
    + intros [= <- <-]. split; [simpl; lia|]. split; intros Hd;
        [reflexivity | repeat constructor; exact Hd].
    + assert (Hnd : dest a <> Some d).
      { intros Hd. destruct (accumulates_elem_of a Hin Hd) as (_ & Hp & _).
        congruence. }
      destruct (is_long os); [discriminate|].
      destruct (assoc _ (option_string_actions parser)) as [a'|] eqn:Ha';
        [|discriminate].
      destruct (short_flag_other c a' Ha') as [Hin' Hnd'].
      destruct e as [|c' e'].
      * destruct (_match_argument a' following) as [k| |] eqn:Hk; simpl;
          try discriminate.
        intros [= <- <-]. split; [now apply _match_argument_bound with a'|].
        split; [contradiction|]. intros _. repeat constructor; assumption.
      * destruct (explicit_arg_tuples parser a' _ (String c' e') following)
          as [[tuples' k]| |] eqn:Hrec; simpl; try discriminate.
        intros [= <- <-].
        destruct (IH a' _ following tuples' k Hin' Hrec) as (Hk & _ & Hall).
        split; [assumption|]. split; [contradiction|].
        intros _. constructor; [assumption | auto].
Qed.


Lemma accumulated_cons (o : option pyval) (vals : list string)
    (occs : list (list string)) :
  Spec.accumulated o (vals :: occs)
  = Spec.accumulated
      (Some (VList (Spec.items_of o ++ (VStr <$> vals)))) occs.
Proof.
  destruct occs as [|vals' occs]; simpl.
  - now rewrite app_nil_r.
  - now rewrite !fmap_app, !app_assoc.
Qed.

Lemma consume_optional_names (s : string) (t : option_tuple)
    (rest : list (string * pattern)) (st st' : parse_state) (n : nat) :
  Spec.from_parser parser t ->
  consume_optional parser s t (following_arguments rest) st = Parsed (n, st') ->
  n <= length (following_arguments rest) /\
  if Spec.names d t
  then namespace st' !! d
       = Some (VList (Spec.items_of (namespace st !! d)
                      ++ (VStr <$> remove_dashes (Spec.values_of t rest))))
       /\ Spec.values_of t rest <> []
       /\ Forall ok (remove_dashes (Spec.values_of t rest))
  else namespace st' !! d = namespace st !! d.
Proof.
  intros Hfrom. unfold consume_optional, Spec.names, Spec.values_of.
  destruct (tuple_action t) as [a|] eqn:Ha.
  2:{ intros [= <- <-]. split; [lia|reflexivity]. }
  destruct (Hfrom a Ha) as [Hin Hos].
  destruct (tuple_explicit_arg t) as [e|].
  - destruct (explicit_arg_tuples parser a (tuple_option_string t) e
                (following_arguments rest)) as [[tuples k]| |] eqn:He; simpl;
      try discriminate.
    destruct (take_actions tuples st) as [st1| |] eqn:Ht; simpl;
      try discriminate.
    intros [= <- <-].
    destruct (explicit_arg_tuples_names e a _ _ tuples k Hin He)
      as (Hk & Hone & Hall).
    split; [assumption|]. case_bool_decide as Hd.
    + rewrite (Hone Hd) in Ht. simpl in Ht.
      destruct (take_action a [e] st) as [st2| |] eqn:H2; simpl in Ht;
        try discriminate.
      injection Ht as <-.
      destruct (take_action_extends a [e] st st2) as [Hns Hall'];
        eauto using accumulates_elem_of, accepted_elem_of.
    + now apply take_actions_other with tuples; auto.
  - destruct (_match_argument a (following_arguments rest)) as [k| |] eqn:Hk;
      simpl; try discriminate.
    destruct (take_action a (take k (following_arguments rest)) st)
      as [st1| |] eqn:Ht; simpl; try discriminate.
    intros [= <- <-].
    split; [now apply _match_argument_bound with a|].
    case_bool_decide as Hd.
    + pose proof (accumulates_elem_of a Hin Hd) as Hext.
      assert (Hn : nargs a = NargsPlus) by apply Hext.
      unfold _match_argument in Hk. rewrite Hn in Hk.
      destruct (following_arguments rest) as [|x l] eqn:Hf; [discriminate|].
      injection Hk as <-. rewrite take_ge in Ht by (simpl; lia).
      destruct (take_action_extends a (x :: l) st st1) as [Hns Hall];
        eauto using accepted_elem_of.
    + now apply take_action_other with a (take k (following_arguments rest)).
Qed.

Lemma following_arguments_skip (s : string) (letter : pattern)
    (rest : list (string * pattern)) (k : nat) :
  S k <= length (following_arguments ((s, letter) :: rest)) ->
  letter = PatA /\ k <= length (following_arguments rest).
Proof. destruct letter; simpl; intros H; try lia. split; [reflexivity|lia]. Qed.

Lemma consume_occurrences (parts : list (string * pattern)) :
  forall (skip : nat) (st st' : parse_state),
  Spec.parts_from_parser parser parts ->
  skip <= length (following_arguments parts) ->
  consume parser parts skip st = Parsed st' ->
  namespace st' !! d
  = Spec.accumulated (namespace st !! d)
      (remove_dashes <$> Spec.occurrences d parts)
  /\ Forall (λ vals, vals <> [] /\ Forall ok (remove_dashes vals))
       (Spec.occurrences d parts).
Proof.
  induction parts as [|[s letter] rest IH]; intros skip st st' Hfrom Hskip;
    simpl.
  - intros [= <-]. split; [reflexivity|constructor].
  - apply Forall_cons in Hfrom as [Hhead Hfrom].
    destruct skip as [|k].
    + destruct letter as [| |t].
      * intros H. apply (IH 0 _ _ Hfrom) in H; [assumption|lia].
      * intros H. apply (IH 0 _ _ Hfrom) in H; [assumption|lia].
      * destruct (consume_optional parser s t (following_arguments rest) st)
          as [[n st1]| |] eqn:Hopt; simpl; try discriminate.
        intros H.
        destruct (consume_optional_names s t rest st st1 n
                    (Hhead t eq_refl) Hopt) as [Hn Hns].
        apply (IH n _ _ Hfrom Hn) in H. destruct H as [H Hall].
        destruct (Spec.names d t).
        -- destruct Hns as (Hns & Hne & Hvals).
           rewrite fmap_cons, accumulated_cons, <- Hns.
           split; [assumption|]. constructor; auto.
        -- rewrite <- Hns. auto.
    + apply following_arguments_skip in Hskip as [-> Hk].
      intros H. now apply (IH k _ _ Hfrom Hk) in H.
Qed.

Lemma convert_defaults_other (actions : list Action)
    (seen : list (list string)) :
  forall ns ns' : gmap string pyval,
  Forall (λ a, dest a = Some d -> default a = VNone) actions ->
  convert_defaults actions seen ns = Parsed ns' ->
  ns' !! d = ns !! d.
Proof.
  induction actions as [|a actions IH]; intros ns ns' Hall; simpl.
  - now intros [= <-].
  - apply Forall_cons in Hall as [Ha Hall].
    match goal with
    | |- context [mbind _ ?m] => destruct m as [ns1| |] eqn:H1
    end; simpl; try discriminate.
    intros H. rewrite (IH _ _ Hall H).
    destruct (bool_decide (option_strings a ∈ seen)); [now injection H1 as <-|].
    destruct (default a) as [| | |s|] eqn:Hdef;
      try (now injection H1 as <-).
    destruct (dest a) as [d'|] eqn:Hdest; [|now injection H1 as <-].
    destruct (ns !! d') as [[| | |s'|]|]; try (now injection H1 as <-).
    destruct (String.eqb s' s); [|now injection H1 as <-].
    destruct (_get_value a s) as [v| |]; simpl in H1; try discriminate.
    injection H1 as <-. apply lookup_insert_ne.
    intros ->. specialize (Ha eq_refl). discriminate.
Qed.

Lemma parse_args_occurrences (argv : list string) (ns : gmap string pyval) :
  initial_namespace parser !! d = Some VNone ->
  parse_args parser argv = Parsed ns ->
  exists parts,
    arg_strings_pattern parser argv = Parsed parts /\
    ns !! d
    = Spec.accumulated (Some VNone)
        (remove_dashes <$> Spec.occurrences d parts) /\
    Forall (λ vals, vals <> [] /\ Forall ok (remove_dashes vals))
      (Spec.occurrences d parts).
Proof.
  intros Hinit. unfold parse_args, parse_known_args.
  destruct (arg_strings_pattern parser argv) as [parts| |] eqn:Hparts; simpl;
    try discriminate.
  match goal with
  | |- context [consume parser parts 0 ?st0] =>
      destruct (consume parser parts 0 st0) as [st| |] eqn:Hcons
  end; simpl; try discriminate.
  destruct (convert_defaults parser (seen_actions st) (namespace st))
    as [ns1| |] eqn:Hconv; simpl; try discriminate.
  destruct (extras st); [|discriminate]. intros [= <-].
  exists parts. split; [reflexivity|].
  apply consume_occurrences in Hcons;
    [|now apply arg_strings_pattern_from_parser with argv | lia].
  destruct Hcons as [Hns Hall]. simpl in Hns. rewrite Hinit in Hns.
  split; [|assumption]. rewrite <- Hns.
  apply convert_defaults_other with parser (seen_actions st); [|assumption].
  unfold Spec.accumulates in Hacc. eapply Forall_impl; [exact Hacc|].
  intros a Ha Hd. apply (Ha Hd).
Qed.

End ArgparseFacts.

(** ** How a parse ends *)

Section ArgparseFlow.

Import Py Argparse.

Context `{U : Py.Unicode}.

Context (parser : list Action) (Hshort : Spec.short_flags_are_help parser).

Lemma _get_value_each_no_help (a : Action) (args : list string) :
  _get_value_each a args <> HelpExit.
Proof.
  induction args as [|s args IH]; simpl; [discriminate|].
  unfold _get_value at 1. destruct (type a s); simpl; [|discriminate].
  destruct (_get_value_each a args); simpl; congruence.
Qed.

Lemma _check_value_each_no_help (a : Action) (vs : list pyval) :
  _check_value_each a vs <> HelpExit.
Proof.
  induction vs as [|v vs IH]; simpl; [discriminate|].
  unfold _check_value at 1.
  destruct (choices a) as [cs|]; simpl; [|assumption].
  destruct (existsb (pyval_eqb v) cs); simpl; [assumption|discriminate].
Qed.

Lemma _get_values_no_help (a : Action) (args : list string) :
  _get_values a args <> HelpExit.
Proof.
  unfold _get_values. cbv zeta. generalize (remove_dashes args) as l.
  intros l.
  assert (Hlist : (_get_value_each a l
                   ≫= λ value, _check_value_each a value
                   ≫= λ _, Parsed (VList value)) <> HelpExit).
  { pose proof (_get_value_each_no_help a l) as H1.
    destruct (_get_value_each a l) as [vs| |]; simpl; try congruence.
    pose proof (_check_value_each_no_help a vs) as H2.
    destruct (_check_value_each a vs); simpl; congruence. }
  destruct (nargs a); try exact Hlist.
  destruct l as [|s [|s' l]]; try exact Hlist.
  unfold _get_value, _check_value.
  destruct (type a s) as [v|]; simpl; [|discriminate].
  destruct (choices a) as [cs|]; simpl; [|discriminate].
  destruct (existsb (pyval_eqb v) cs); simpl; discriminate.
Qed.

Lemma take_action_help (a : Action) (args : list string) (st : parse_state) :
  take_action a args st = HelpExit -> action a = Help.
Proof.
  unfold take_action.
  pose proof (_get_values_no_help a args) as H1.
  destruct (_get_values a args) as [v| |]; simpl; try congruence.
  unfold call_action.
  destruct (action a), (dest a); simpl; try discriminate; reflexivity.
Qed.

Lemma _match_argument_no_help (a : Action) (following : list string) :
  _match_argument a following <> HelpExit.
Proof. unfold _match_argument. destruct (nargs a), following; discriminate. Qed.

Lemma flags_of_other_actions (a : Action) (os : string) :
  a ∈ parser -> os ∈ option_strings a -> action a <> Help ->
  is_long os = true.
Proof.
  intros Hin Hos Hact. pose proof Hshort as H.
  unfold Spec.short_flags_are_help in H. rewrite Forall_forall in H.
  destruct (H a Hin) as [Hl | ?]; [|contradiction].
  rewrite Forall_forall in Hl. auto.
Qed.

Lemma explicit_arg_tuples_long (a : Action) (os e : string)
    (following : list string) :
  is_long os = true ->
  explicit_arg_tuples parser a os e following = Parsed ([(a, [e])], 0)
  \/ exists err, explicit_arg_tuples parser a os e following = UsageError err.
Proof.
  intros Hl. destruct e; simpl; rewrite Hl; destruct (nargs a); eauto.
Qed.

Lemma consume_optional_no_help (s : string) (t : option_tuple)
    (following : list string) (st : parse_state) :
  Spec.from_parser parser t ->
  Spec.asks_help (s, PatO t) = false ->
  consume_optional parser s t following st <> HelpExit.
Proof.
  intros Hfrom. unfold Spec.asks_help, consume_optional. simpl.
  destruct (tuple_action t) as [a|] eqn:Ha; [|discriminate].
  destruct (Hfrom a Ha) as [Hin Hos]. intros Hact.
  assert (Hnh : action a <> Help) by (intros E; rewrite E in Hact; discriminate).
  assert (Hone : forall args,
            (take_actions [(a, args)] st ≫= λ st', Parsed (0, st'))
            <> (HelpExit : parse_result (nat * parse_state))).
  { intros args. simpl.
    destruct (take_action a args st) eqn:Ht; simpl; try discriminate.
    now apply take_action_help in Ht. }
  destruct (tuple_explicit_arg t) as [e|].
  - destruct (explicit_arg_tuples_long a (tuple_option_string t) e following)
      as [-> | [err ->]]; [eauto using flags_of_other_actions | | ].
    + apply Hone.
    + discriminate.
  - pose proof (_match_argument_no_help a following) as Hm.
    destruct (_match_argument a following) as [k| |]; simpl; try congruence.
    destruct (take_action a (take k following) st) eqn:Ht; simpl;
      try discriminate.
    now apply take_action_help in Ht.
Qed.

Lemma consume_blocked (s : string) (t : option_tuple)
    (rest : list (string * pattern)) (pre : list (string * pattern)) :
  forall (skip : nat) (st : parse_state),
  Spec.parts_from_parser parser (pre ++ (s, PatO t) :: rest) ->
  skip <= length (following_arguments (pre ++ (s, PatO t) :: rest)) ->
  (forall st0, exists e,
     consume_optional parser s t (following_arguments rest) st0
     = UsageError e) ->
  (exists e, consume parser (pre ++ (s, PatO t) :: rest) skip st = UsageError e)
  \/ (consume parser (pre ++ (s, PatO t) :: rest) skip st = HelpExit
      /\ Exists (λ part, Spec.asks_help part = true) pre).
Proof.
  induction pre as [|[s' letter] pre IH]; intros skip st Hfrom Hskip Hrej.
  - simpl in Hskip. assert (skip = 0) as -> by lia. simpl.
    destruct (Hrej st) as [e ->]. left. eauto.
  - simpl in Hfrom. apply Forall_cons in Hfrom as [Hhead Hfrom].
    rewrite <- app_comm_cons in Hskip |- *.
    destruct skip as [|k].
    + cbn [consume]. destruct letter as [| |t'].
      * destruct (IH 0 (add_extra s' st) Hfrom ltac:(lia) Hrej)
          as [? | [? ?]];
          [left; assumption | right; split; [assumption | now right]].
      * destruct (IH 0 (add_extra s' st) Hfrom ltac:(lia) Hrej)
          as [? | [? ?]];
          [left; assumption | right; split; [assumption | now right]].
      * match goal with
        | |- context [consume_optional ?p ?x ?y ?f ?z] =>
            destruct (consume_optional p x y f z) as [[n st1]| |] eqn:Hopt
        end; simpl.
        -- assert (Hn : n <= length (following_arguments
                                       (pre ++ (s, PatO t) :: rest)))
             by (eapply consume_optional_bound, Hopt).
           destruct (IH n st1 Hfrom Hn Hrej) as [? | [? ?]];
             [left; assumption | right; split; [assumption | now right]].
        -- left. eauto.
        -- right. split; [reflexivity|]. left.
           destruct (Spec.asks_help (s', PatO t')) eqn:Hh; [reflexivity|].
           exfalso.
           exact (consume_optional_no_help s' t' _ st (Hhead t' eq_refl) Hh
                    Hopt).
    + cbn [consume].
      destruct letter; simpl in Hskip; try lia.
      destruct (IH k st Hfrom ltac:(lia) Hrej) as [? | [? ?]];
        [left; assumption | right; split; [assumption | now right]].
Qed.

End ArgparseFlow.

Section ArgparseRejection.

Import Py Argparse.

Context `{U : Py.Unicode}.

Context (parser : list Action) (Hshort : Spec.short_flags_are_help parser).
Context (d : string) (Hacc : Spec.accumulates parser d).
Context (ok : string -> Prop).
Context (Hok : Forall (λ a, dest a = Some d ->
                        forall s v, type a s = Converted v -> ok s) parser).

Lemma names_not_help (s : string) (t : option_tuple) :
  Spec.from_parser parser t -> Spec.names d t = true ->
  Spec.asks_help (s, PatO t) = false.
Proof.
  unfold Spec.names, Spec.asks_help. simpl. intros Hfrom.
  destruct (tuple_action t) as [a|] eqn:Ha; [|reflexivity].
  destruct (Hfrom a Ha) as [Hin _].
  intros Hd. apply bool_decide_eq_true in Hd.
  destruct (accumulates_elem_of parser d Hacc a Hin Hd) as (-> & _).
  reflexivity.
Qed.

Lemma consume_optional_rejected (s : string) (t : option_tuple)
    (rest : list (string * pattern)) (v : string) :
  Spec.from_parser parser t -> Spec.names d t = true ->
  v ∈ remove_dashes (Spec.values_of t rest) -> ~ ok v ->
  forall st0, exists e,
    consume_optional parser s t (following_arguments rest) st0 = UsageError e.
Proof.
  intros Hfrom Hn Hv Hnok st0.
  destruct (consume_optional parser s t (following_arguments rest) st0)
    as [[n st1]| |] eqn:Hopt.
  - exfalso.
    destruct (consume_optional_names parser d Hacc ok Hok s t rest st0 st1 n
                Hfrom Hopt) as [_ H].
    rewrite Hn in H. destruct H as (_ & _ & Hall).
    rewrite Forall_forall in Hall. exact (Hnok (Hall v Hv)).
  - eauto.
  - exfalso.
    exact (consume_optional_no_help parser Hshort s t _ st0 Hfrom
             (names_not_help s t Hfrom Hn) Hopt).
Qed.

Lemma parse_args_blocked (argv : list string)
    (pre rest : list (string * pattern)) (s : string) (t : option_tuple)
    (v : string) :
  arg_strings_pattern parser argv = Parsed (pre ++ (s, PatO t) :: rest) ->
  Spec.names d t = true ->
  v ∈ remove_dashes (Spec.values_of t rest) -> ~ ok v ->
  (exists e, parse_args parser argv = UsageError e)
  \/ (parse_args parser argv = HelpExit
      /\ Exists (λ part, Spec.asks_help part = true) pre).
Proof.
  intros Hparts Hn Hv Hnok.
  pose proof (arg_strings_pattern_from_parser parser argv _ Hparts) as Hfrom.
  assert (Ht : Spec.from_parser parser t).
  { unfold Spec.parts_from_parser in Hfrom.
    rewrite Forall_app, Forall_cons in Hfrom.
    destruct Hfrom as (_ & Ht & _). now apply Ht. }
  unfold parse_args, parse_known_args. rewrite Hparts. simpl.
  match goal with
  | |- context [consume parser _ 0 ?st0] =>
      destruct (consume_blocked parser Hshort s t rest pre 0 st0 Hfrom
                  ltac:(lia)
                  (consume_optional_rejected s t rest v Ht Hn Hv Hnok))
        as [[e ->] | [-> Hex]]
  end; simpl; eauto.
Qed.

End ArgparseRejection.

(** * Properties of the client command line *)

Section ClientFacts.

Import Py Argparse Utils.

Context `{U : Py.Unicode}.

Context (isdir : string -> bool).

Ltac each_action :=
  unfold client_parser, ArgumentParser, add_argument; simpl;
  repeat (apply List.Forall_cons); try apply List.Forall_nil.


Lemma client_accumulates_input_dir :
  Spec.accumulates (client_parser isdir) "robot_input_dir".
Proof.
  unfold Spec.accumulates. each_action; simpl; intros Hd; try discriminate.
  repeat split; simpl.
  - repeat constructor; simpl; lia.
  - intros s v. unfold check_if_input_dir_exists.
    destruct (negb (isdir s)); [discriminate|]. now intros [= <-].
Qed.

Lemma client_input_dir_checked :
  Forall (λ a, dest a = Some "robot_input_dir" ->
               forall s v, type a s = Converted v -> isdir s = true)
    (client_parser isdir).
Proof.
  each_action; simpl; intros Hd; try discriminate.
  intros s v. unfold check_if_input_dir_exists.
  destruct (isdir s); [reflexivity|discriminate].
Qed.

Lemma client_any_string :
  forall d, Forall (λ a, dest a = Some d ->
                 forall (s : string) (v : pyval),
                   type a s = Converted v -> True)
    (client_parser isdir).
Proof. intros d. apply Forall_true. auto. Qed.

Lemma client_short_flags : Spec.short_flags_are_help (client_parser isdir).
Proof.
  unfold Spec.short_flags_are_help. each_action;
    first [ right; reflexivity | left; repeat constructor ].
Qed.


Lemma remove_dashes_nil (vals : list string) :
  vals <> [] -> (remove_dashes vals = [] <-> vals = ["--"]).
Proof.
  intros Hne. destruct vals as [|s vals]; [contradiction|]. simpl.
  destruct (String.eqb_spec s "--") as [->|Hs].
  - split; [now intros -> | now intros [= ->]].
  - split; [discriminate | intros [= ? _]; contradiction].
Qed.

Lemma elem_of_remove_dashes (v : string) (vals : list string) :
  v ∈ vals -> v <> "--" -> v ∈ remove_dashes vals.
Proof.
  intros Hin Hv. induction vals as [|s vals IH]; simpl.
  - now apply elem_of_nil in Hin.
  - apply elem_of_cons in Hin as [<-|Hin].
    + destruct (String.eqb_spec v "--"); [contradiction|]. left.
    + destruct (String.eqb s "--"); [assumption|]. right. auto.
Qed.

Lemma remove_dashes_elem_of (v : string) (vals : list string) :
  v ∈ remove_dashes vals -> v ∈ vals.
Proof.
  induction vals as [|s vals IH]; simpl; [auto|].
  destruct (String.eqb s "--").
  - intros H. now right.
  - intros H. apply elem_of_cons in H as [->|H]; [left | right; auto].
Qed.

Lemma kept_nil (d : string) (parts : list (string * pattern)) :
  Forall (λ vals, vals <> []) (Spec.occurrences d parts) ->
  (Spec.kept d parts = []
   <-> Forall (λ vals, vals = ["--"]) (Spec.occurrences d parts)).
Proof.
  unfold Spec.kept.
  induction 1 as [|vals occs Hne _ IH]; simpl.
  - split; [constructor | reflexivity].
  - rewrite Forall_cons, <- IH, <- (remove_dashes_nil vals Hne).
    split.
    + intros H. now apply app_eq_nil in H.
    + intros [H1 H2]. rewrite H1. exact H2.
Qed.

Lemma client_namespace_field (d : string) (argv : list string)
    (args : gmap string pyval) :
  Spec.accumulates (client_parser isdir) d ->
  initial_namespace (client_parser isdir) !! d = Some VNone ->
  parse_args (client_parser isdir) argv = Parsed args ->
  exists parts,
    arg_strings_pattern (client_parser isdir) argv = Parsed parts /\
    Forall (λ vals, vals <> []) (Spec.occurrences d parts) /\
    args !!! d
    = match Spec.occurrences d parts with
      | [] => VNone
      | _ :: _ => VList (VStr <$> Spec.kept d parts)
      end.
Proof.
  intros Hacc Hinit Hparse.
  destruct (parse_args_occurrences (client_parser isdir) d Hacc
              (λ _, True) (client_any_string d) argv args Hinit Hparse)
    as (parts & Hparts & Hns & Hall).
  exists parts. split; [assumption|]. split.
  - eapply Forall_impl; [exact Hall|]. now intros vals [? _].
  - rewrite lookup_total_alt, Hns. unfold Spec.kept.
    destruct (Spec.occurrences d parts); reflexivity.
Qed.

Lemma client_defaulted_field (d : string) (argv : list string)
    (args : gmap string pyval) (dflt : pyval) :
  Spec.accumulates (client_parser isdir) d ->
  initial_namespace (client_parser isdir) !! d = Some VNone ->
  parse_args (client_parser isdir) argv = Parsed args ->
  exists parts,
    arg_strings_pattern (client_parser isdir) argv = Parsed parts /\
    Forall (λ vals, vals <> []) (Spec.occurrences d parts) /\
    (if negb (truthy (args !!! d)) then dflt else args !!! d)
    = match Spec.kept d parts with
      | [] => dflt
      | l => VList (VStr <$> l)
      end /\
    (Spec.kept d parts = []
     <-> Forall (λ vals, vals = ["--"]) (Spec.occurrences d parts)).
Proof.
  intros Hacc Hinit Hparse.
  destruct (client_namespace_field d argv args Hacc Hinit Hparse)
    as (parts & Hparts & Hall & Hfield).
  exists parts. split; [assumption|]. split; [assumption|].
  split; [|now apply kept_nil].
  rewrite Hfield. unfold Spec.kept.
  destruct (Spec.occurrences d parts) as [|vals occs]; [reflexivity|].
  destruct (concat (remove_dashes <$> vals :: occs)); reflexivity.
Qed.


(** C9, amended. When the resolver returns, the input directory is the
    list of the argument strings that the occurrences of [--input-dir] hand
    to the parser; it is the string ["."], not a list, exactly when there is
    no such string: the flag does not occur, or every occurrence is spelled
    [--input-dir=--], whose [--] argparse drops. *)
Theorem input_dir_is_a_string_when_nothing_is_kept
    (argv : list string) (params : client_params) :
  get_command_line_params_client isdir argv = Parsed params ->
  exists parts,
    arg_strings_pattern (client_parser isdir) argv = Parsed parts /\
    Forall (λ vals, vals <> []) (Spec.occurrences "robot_input_dir" parts) /\
    robot_input_dir params
    = match Spec.kept "robot_input_dir" parts with
      | [] => VStr "."
      | l => VList (VStr <$> l)
      end /\
    (Spec.kept "robot_input_dir" parts = []
     <-> Forall (λ vals, vals = ["--"])
           (Spec.occurrences "robot_input_dir" parts)).
Proof.
  unfold get_command_line_params_client.
  destruct (parse_args (client_parser isdir) argv) as [args| |] eqn:Hparse;
    simpl; try discriminate.
  intros [= <-]. simpl.
  exact (client_defaulted_field "robot_input_dir" argv args (VStr ".")
           client_accumulates_input_dir eq_refl Hparse).
Qed.

Lemma input_dir_rejected
    (argv : list string) (pre rest : list (string * pattern))
    (s : string) (t : option_tuple) (v : string) :
  arg_strings_pattern (client_parser isdir) argv
  = Parsed (pre ++ (s, PatO t) :: rest) ->
  Spec.names "robot_input_dir" t = true ->
  v ∈ Spec.values_of t rest -> v <> "--" ->
  isdir v = false ->
  (forall params, get_command_line_params_client isdir argv <> Parsed params)
  /\ (Forall (λ part, Spec.asks_help part = false) pre ->
      exists e, get_command_line_params_client isdir argv = UsageError e).
Proof.
  intros Hparts Hn Hv Hdashes Hdir.
  assert (Hnok : ~ isdir v = true) by (rewrite Hdir; discriminate).
  unfold get_command_line_params_client.
  destruct (parse_args_blocked (client_parser isdir) client_short_flags
              "robot_input_dir" client_accumulates_input_dir
              (λ s, isdir s = true) client_input_dir_checked
              argv pre rest s t v Hparts Hn
              (elem_of_remove_dashes v _ Hv Hdashes) Hnok)
    as [[e ->] | [-> Hex]]; simpl.
  - split; [discriminate|]. eauto.
  - split; [discriminate|]. intros Hall. exfalso.
    apply Exists_exists in Hex as (part & Hin & Hh).
    rewrite Forall_forall in Hall. rewrite (Hall part Hin) in Hh.
    discriminate.
Qed.

Lemma input_dirs_of_a_configuration_exist
    (argv : list string) (parts : list (string * pattern))
    (params : client_params) :
  get_command_line_params_client isdir argv = Parsed params ->
  arg_strings_pattern (client_parser isdir) argv = Parsed parts ->
  Forall (Forall (λ v, v <> "--" -> isdir v = true))
    (Spec.occurrences "robot_input_dir" parts).
Proof.
  unfold get_command_line_params_client.
  destruct (parse_args (client_parser isdir) argv) as [args| |] eqn:Hparse;
    simpl; try discriminate.
  intros _ Hparts.
  destruct (parse_args_occurrences (client_parser isdir) "robot_input_dir"
              client_accumulates_input_dir (λ s, isdir s = true)
              client_input_dir_checked argv args eq_refl Hparse)
    as (parts' & Hparts' & _ & Hall).
  rewrite Hparts in Hparts'. injection Hparts' as <-.
  eapply Forall_impl; [exact Hall|]. intros vals [_ Hvals].
  apply Forall_forall. intros v Hv Hdashes.
  rewrite Forall_forall in Hvals.
  now apply Hvals, elem_of_remove_dashes.
Qed.

(** C6, amended. When an occurrence of the [--input-dir] flag is given an
    argument string, other than the string [--], that is not an existing
    directory, the resolver returns no configuration, wherever the
    occurrence stands in the argument list, and it ends in a usage error
    unless a help flag stands before the occurrence; and when the resolver
    returns a configuration, every argument string given to the flag is an
    existing directory or the string [--].  (Only the spelling
    [--input-dir=--] gives the flag that string; argparse drops it before
    the directory is looked up.) *)
Theorem missing_input_dir_aborts (argv : list string) :
  (forall (pre rest : list (string * pattern)) (s : string)
          (t : option_tuple) (v : string),
     arg_strings_pattern (client_parser isdir) argv
     = Parsed (pre ++ (s, PatO t) :: rest) ->
     Spec.names "robot_input_dir" t = true ->
     v ∈ Spec.values_of t rest -> v <> "--" ->
     isdir v = false ->
     (forall params,
        get_command_line_params_client isdir argv <> Parsed params)
     /\ (Forall (λ part, Spec.asks_help part = false) pre ->
         exists e, get_command_line_params_client isdir argv = UsageError e))
  /\ (forall (parts : list (string * pattern)) (params : client_params),
        get_command_line_params_client isdir argv = Parsed params ->
        arg_strings_pattern (client_parser isdir) argv = Parsed parts ->
        Forall (Forall (λ v, v <> "--" -> isdir v = true))
          (Spec.occurrences "robot_input_dir" parts)).
Proof.
  split.
  - intros pre rest s t v. apply input_dir_rejected.
  - intros parts params. apply input_dirs_of_a_configuration_exist.
Qed.

End ClientFacts.

(** * The command line at concrete argument lists *)

Section ClientExamples.

Import Py Argparse Utils.

Import Fixtures.

#[local] Existing Instance ascii_unicode.



Lemma input_dir_is_a_string_when_nothing_is_kept_witness :
  (exists params,
     get_command_line_params_client two_dirs [] = Parsed params
     /\ robot_input_dir params = VStr ".")
  /\ (exists params,
        get_command_line_params_client two_dirs ["--input-dir"; "/tmp"; "."]
        = Parsed params
        /\ robot_input_dir params = VList [VStr "/tmp"; VStr "."]).
Proof.
  split.
  - destruct (get_command_line_params_client two_dirs [])
      as [params| |] eqn:Hget; try (vm_compute in Hget; discriminate).
    exists params. split; [reflexivity|].
    destruct (input_dir_is_a_string_when_nothing_is_kept two_dirs
                [] params Hget) as (parts & Hparts & _ & H & _).
    vm_compute in Hparts. injection Hparts as <-. exact H.
  - destruct (get_command_line_params_client two_dirs
                ["--input-dir"; "/tmp"; "."])
      as [params| |] eqn:Hget; try (vm_compute in Hget; discriminate).
    exists params. split; [reflexivity|].
    destruct (input_dir_is_a_string_when_nothing_is_kept two_dirs
                ["--input-dir"; "/tmp"; "."] params Hget)
      as (parts & Hparts & _ & H & _).
    vm_compute in Hparts. injection Hparts as <-. exact H.
Defined.

(** C9 as stated fails for the spelling [--input-dir=--]: the flag is
    supplied, and the resolver returns the string ["."], not a list; the
    string [--] is no directory of the file system, and it is not looked
    up. *)
Lemma input_dir_of_dashes_is_the_default_string :
  two_dirs "--" = false
  /\ (exists parts,
        arg_strings_pattern (client_parser two_dirs) ["--input-dir=--"]
        = Parsed parts
        /\ Spec.occurrences "robot_input_dir" parts = [["--"]])
  /\ robot_input_dir
     <$> match get_command_line_params_client two_dirs ["--input-dir=--"] with
         | Parsed params => Some params
         | _ => None
         end
     = Some (VStr ".").
Proof.
  split; [reflexivity|]. split.
  - eexists. split; reflexivity.
  - reflexivity.
Qed.

Lemma missing_input_dir_aborts_witness :
  two_dirs "/does/not/exist" = false /\
  exists e,
    get_command_line_params_client two_dirs
      ["--debug"; "--input-dir"; "/tmp"; "/does/not/exist"]
    = UsageError e.
Proof.
  split; [reflexivity|].
  apply (proj1 (missing_input_dir_aborts two_dirs
                  ["--debug"; "--input-dir"; "/tmp"; "/does/not/exist"])
           [("--debug",
             PatO (OptionTuple (Some (store_true "--debug" "robot_debug"))
                     "--debug" None))]
           [("/tmp", PatA); ("/does/not/exist", PatA)]
           "--input-dir"
           (OptionTuple
              (Some (extend "--input-dir" "robot_input_dir"
                       (check_if_input_dir_exists two_dirs)))
              "--input-dir" None)
           "/does/not/exist").
  - reflexivity.
  - reflexivity.
  - unfold Spec.values_of. simpl. rewrite !elem_of_cons. tauto.
  - discriminate.
  - reflexivity.
  - repeat constructor.
Defined.

(** Section 8 of the specification: two occurrences of [--extension] give
    the values of both, in order. *)
Example extension_occurrences_accumulate :
  robot_extension
  <$> match get_command_line_params_client two_dirs
              ["--extension"; "py"; "--extension"; "robot"] with
      | Parsed params => Some params
      | _ => None
      end
  = Some (VList [VStr "py"; VStr "robot"]).
Proof. reflexivity. Qed.

(** The path that is not a directory at the start, in the middle and at the
    end of the argument list. *)
Example missing_input_dir_at_any_position :
  Forall (λ argv,
            match get_command_line_params_client two_dirs argv with
            | UsageError (InvalidValue _ "/does/not/exist") => True
            | _ => False
            end)
    [ ["--input-dir"; "/does/not/exist"; "--debug"; "--host"; "server"];
      ["--debug"; "--input-dir=/does/not/exist"; "--host"; "server"];
      ["--debug"; "--host"; "server"; "--input"; "/tmp"; "/does/not/exist"] ].
Proof. repeat constructor. Qed.

(** C6 as stated fails when a help flag stands before the flag: the
    argument list below gives [--input-dir] a path that is not a directory,
    and the resolver prints the help and exits instead of reporting the
    path. *)
Lemma help_flag_preempts_input_dir_check :
  (exists parts,
     arg_strings_pattern (client_parser (λ _, false))
       ["-h"; "--input-dir"; "/does/not/exist"] = Parsed parts
     /\ Spec.occurrences "robot_input_dir" parts = [["/does/not/exist"]])
  /\ get_command_line_params_client (λ _, false)
       ["-h"; "--input-dir"; "/does/not/exist"]
     = HelpExit
  /\ ~ (exists e,
         get_command_line_params_client (λ _, false)
           ["-h"; "--input-dir"; "/does/not/exist"]
         = UsageError e).
Proof.
  split; [|split].
  - eexists. split; reflexivity.
  - reflexivity.
  - intros [e He]. vm_compute in He. discriminate.
Qed.

End ClientExamples.

(** * Properties of the path functions *)

Section PathFacts.

Import Posixpath Utils.

Lemma string_app_cons (c : ascii) (a b : string) :
  String c a +:+ b = String c (a +:+ b).
Proof. reflexivity. Qed.

Lemma string_app_nil_l (b : string) : "" +:+ b = b.
Proof. reflexivity. Qed.

Lemma string_app_nil_r (s : string) : s +:+ "" = s.
Proof.
  induction s as [|c s IH]; [reflexivity|].
  now rewrite string_app_cons, IH.
Qed.

Lemma string_app_assoc (a b c : string) : (a +:+ b) +:+ c = a +:+ (b +:+ c).
Proof.
  induction a as [|x a IH]; [reflexivity|].
  now rewrite !string_app_cons, IH.
Qed.

Lemma string_app_eq_nil (a b : string) : a +:+ b = "" -> a = "" /\ b = "".
Proof. destruct a; [auto|rewrite string_app_cons; discriminate]. Qed.

Lemma startswith_sep_cons (s : string) :
  startswith_sep s = true <-> exists r, s = String "/" r.
Proof.
  unfold startswith_sep. destruct s as [|c r].
  - split; [discriminate|]. intros [r H]. discriminate H.
  - change (String.prefix "/" (String c r))
      with (if ascii_dec "/" c then String.prefix "" r else false).
    destruct (ascii_dec "/" c) as [<-|Hne].
    + split; eauto. intros _. now destruct r.
    + split; [discriminate|]. intros [r' [= E _]]. congruence.
Qed.

Lemma startswith_sep_app (a b : string) :
  startswith_sep a = true -> startswith_sep (a +:+ b) = true.
Proof.
  intros H. apply startswith_sep_cons in H as [r ->].
  apply startswith_sep_cons. rewrite string_app_cons. eauto.
Qed.

Lemma startswith_sep_app_false (a b : string) :
  a <> "" -> startswith_sep a = false -> startswith_sep (a +:+ b) = false.
Proof.
  intros Hne H. destruct (startswith_sep (a +:+ b)) eqn:E; [|reflexivity].
  apply startswith_sep_cons in E as [r E].
  destruct a as [|c a]; [contradiction|].
  rewrite string_app_cons in E. injection E as -> _.
  rewrite <- H. symmetry. apply startswith_sep_cons. eauto.
Qed.

Lemma endswith_sep_app (a b : string) :
  b <> "" -> endswith_sep (a +:+ b) = endswith_sep b.
Proof.
  intros Hb. induction a as [|c a IH]; [reflexivity|].
  rewrite string_app_cons. simpl. rewrite IH.
  destruct (a +:+ b) eqn:E; [|reflexivity].
  apply string_app_eq_nil in E as [_ ?]. contradiction.
Qed.

(** ** join *)

Lemma join_step_assoc (a b c : string) :
  join_step a (join_step b c) = join_step (join_step a b) c.
Proof.
  destruct (startswith_sep c) eqn:Hc.
  { unfold join_step. now rewrite !Hc. }
  destruct (startswith_sep b) eqn:Hb.
  { assert (Hbc : forall x, startswith_sep (b +:+ x) = true)
      by (intros x; now apply startswith_sep_app).
    unfold join_step. rewrite !Hc, !Hb.
    destruct (String.eqb b "" || endswith_sep b); rewrite Hbc, ?Hc;
      reflexivity. }
  destruct (String.eqb_spec b "") as [->|Hbne].
  { assert (E1 : join_step "" c = c).
    { unfold join_step. now rewrite Hc. }
    rewrite E1. unfold join_step. rewrite Hc, Hb.
    destruct (String.eqb_spec a "") as [->|Hane]; simpl.
    - reflexivity.
    - destruct (endswith_sep a) eqn:Ha.
      + now rewrite string_app_nil_r, Ha, orb_true_r.
      + rewrite string_app_nil_r.
        rewrite endswith_sep_app by discriminate. simpl.
        now rewrite orb_true_r, string_app_assoc. }
  assert (Hrel : forall x, startswith_sep (b +:+ x) = false)
    by (intros x; now apply startswith_sep_app_false).
  assert (Hab : forall pre, pre +:+ b <> "").
  { intros pre E. apply string_app_eq_nil in E as [_ ?]. contradiction. }
  assert (Hne : forall x, (x =? "") = false <-> x <> "")
    by (intros x; apply String.eqb_neq).
  unfold join_step. rewrite !Hc, !Hb.
  rewrite (proj2 (Hne b) Hbne). simpl.
  destruct (endswith_sep b) eqn:Hbe; rewrite Hrel.
  - destruct (String.eqb a "" || endswith_sep a).
    + rewrite endswith_sep_app, Hbe, orb_true_r by assumption.
      now rewrite string_app_assoc.
    + rewrite <- (string_app_assoc a "/" b).
      rewrite endswith_sep_app, Hbe, orb_true_r by assumption.
      now rewrite !string_app_assoc.
  - destruct (String.eqb a "" || endswith_sep a).
    + rewrite endswith_sep_app, Hbe by assumption.
      rewrite (proj2 (Hne (a +:+ b)) (Hab a)). simpl.
      now rewrite !string_app_assoc.
    + rewrite <- (string_app_assoc a "/" b).
      rewrite (endswith_sep_app (a +:+ "/") b), Hbe by assumption.
      rewrite (proj2 (Hne ((a +:+ "/") +:+ b)) (Hab _)). simpl.
      now rewrite !string_app_assoc.
Qed.

Lemma join_step_isabs (a b : string) :
  isabs a = true -> isabs (join_step a b) = true.
Proof.
  unfold isabs, join_step. intros Ha.
  destruct (startswith_sep b) eqn:Hb; [assumption|].
  destruct (String.eqb a "" || endswith_sep a);
    now apply startswith_sep_app.
Qed.


(** ** split and concat *)

Import Spec.

Lemma split_nonempty (s : string) : split s <> [].
Proof.
  induction s as [|c s IH]; simpl; [discriminate|].
  destruct (Ascii.eqb c "/"); [discriminate|].
  destruct (split s); [contradiction|discriminate].
Qed.

Lemma split_no_sep (s : string) : Forall (λ c, has_sep c = false) (split s).
Proof.
  induction s as [|c s IH]; simpl.
  - repeat constructor.
  - destruct (Ascii.eqb c "/") eqn:Hc.
    + constructor; [reflexivity|assumption].
    + destruct (split s) as [|comp comps]; [repeat constructor; simpl|].
      * now rewrite Hc.
      * apply Forall_cons in IH as [H1 H2].
        constructor; [|assumption]. simpl. now rewrite Hc, H1.
Qed.

Lemma split_app_sep (x r : string) :
  has_sep x = false -> split (x +:+ String "/" r) = x :: split r.
Proof.
  induction x as [|c x IH]; intros Hx.
  - reflexivity.
  - simpl in Hx. apply orb_false_iff in Hx as [Hc Hx].
    rewrite string_app_cons. simpl. rewrite Hc, (IH Hx). reflexivity.
Qed.

Lemma split_one (x : string) : has_sep x = false -> split x = [x].
Proof.
  induction x as [|c x IH]; intros Hx; [reflexivity|].
  simpl in Hx. apply orb_false_iff in Hx as [Hc Hx].
  simpl. now rewrite Hc, (IH Hx).
Qed.

Lemma split_concat (l : list string) :
  l <> [] -> Forall (λ c, has_sep c = false) l ->
  split (String.concat "/" l) = l.
Proof.
  induction l as [|x l IH]; intros Hne Hall; [contradiction|].
  apply Forall_cons in Hall as [Hx Hall].
  destruct l as [|y l].
  - simpl. now apply split_one.
  - change (String.concat "/" (x :: y :: l))
      with (x +:+ String "/" (String.concat "/" (y :: l))).
    rewrite split_app_sep by assumption.
    now rewrite IH.
Qed.

Lemma concat_clean_head (l : list string) :
  l <> [] -> Forall clean l ->
  exists c r, String.concat "/" l = String c r /\ c <> "/"%char.
Proof.
  destruct l as [|x l]; intros Hne Hall; [contradiction|].
  apply Forall_cons in Hall as [(Hx & _ & Hs) _].
  destruct x as [|c x]; [contradiction|].
  simpl in Hs. apply orb_false_iff in Hs as [Hc _].
  apply Ascii.eqb_neq in Hc.
  destruct l as [|y l]; [now exists c, x|].
  change (String.concat "/" (String c x :: y :: l))
    with (String c x +:+ String "/" (String.concat "/" (y :: l))).
  rewrite string_app_cons. eauto.
Qed.


(** ** normpath *)

Lemma last_replicate_dotdot (j : nat) :
  last (replicate (S j) "..") = Some "..".
Proof. induction j as [|j IH]; [reflexivity|]. exact IH. Qed.

Lemma replicate_snoc (j : nat) (x : string) :
  replicate j x ++ [x] = replicate (S j) x.
Proof. induction j as [|j IH]; simpl; [reflexivity|]. now f_equal. Qed.

Lemma Forall_removelast {A} (P : A -> Prop) (l : list A) :
  Forall P l -> Forall P (removelast l).
Proof.
  induction 1 as [|x l Hx Hl IH]; simpl; [constructor|].
  destruct l; [constructor|]. constructor; assumption.
Qed.

Lemma not_elem_of_removelast (x : string) (l : list string) :
  x ∉ l -> x ∉ removelast l.
Proof.
  induction l as [|y l IH]; simpl; [auto|].
  destruct l as [|z l]; [intros _; apply not_elem_of_nil|].
  rewrite !not_elem_of_cons. intros [H1 H2]. split; [assumption|].
  apply IH. now rewrite not_elem_of_cons.
Qed.

Lemma last_in_rest (j : nat) (rest : list string) :
  rest <> [] -> ".." ∉ rest ->
  last (replicate j ".." ++ rest) <> Some "..".
Proof.
  intros Hne Hnot H. apply Hnot.
  destruct (exists_last Hne) as (l' & x & ->).
  rewrite app_assoc, last_snoc in H. injection H as ->.
  apply elem_of_app. right. apply list_elem_of_singleton. reflexivity.
Qed.

Lemma normpath_step_normal (k : nat) (l : list string) (comp : string) :
  has_sep comp = false -> normal_comps k l ->
  normal_comps k (normpath_step k l comp).
Proof.
  intros Hsep [Hclean (j & rest & -> & Hrest & Hk)]. unfold normpath_step.
  destruct (String.eqb_spec comp "") as [->|Hne1]; simpl.
  { split; [assumption|]. now exists j, rest. }
  destruct (String.eqb_spec comp ".") as [->|Hne2]; simpl.
  { split; [assumption|]. now exists j, rest. }
  assert (Hc : clean comp) by (repeat split; assumption).
  destruct (String.eqb_spec comp "..") as [->|Hne3]; simpl.
  - destruct ((k =? 0)%nat
              && match replicate j ".." ++ rest with
                 | [] => true | _ => false end) eqn:Hfirst; simpl.
    { apply andb_true_iff in Hfirst as [Hk0 Hnil].
      apply Nat.eqb_eq in Hk0.
      destruct (replicate j ".." ++ rest) eqn:E; [|discriminate].
      split; [repeat constructor; apply Hc|].
      exists 1, []. repeat split; [apply not_elem_of_nil|].
      intros Hk1. contradiction. }
    destruct (last (replicate j ".." ++ rest)) as [c|] eqn:Hlast.
    + destruct (String.eqb_spec c "..") as [->|Hnd].
      * destruct rest as [|r rest'].
        2:{ exfalso. now apply (last_in_rest j (r :: rest')). }
        rewrite app_nil_r in *.
        split; [apply Forall_app; split;
                [assumption | repeat constructor; apply Hc]|].
        rewrite replicate_snoc.
        exists (S j), []. rewrite app_nil_r.
        repeat split; [apply not_elem_of_nil|].
        intros Hk0. specialize (Hk Hk0). subst j. discriminate.
      * split; [now apply Forall_removelast|].
        destruct rest as [|r rest'].
        { rewrite app_nil_r in Hlast. destruct j; [discriminate|].
          rewrite last_replicate_dotdot in Hlast. congruence. }
        rewrite removelast_app by discriminate.
        exists j, (removelast (r :: rest')).
        repeat split; [now apply not_elem_of_removelast | assumption].
    + apply last_None in Hlast. rewrite Hlast. simpl.
      split; [constructor|]. exists 0, [].
      repeat split; [apply not_elem_of_nil].
  - split; [apply Forall_app; split; [assumption|repeat constructor; apply Hc]|].
    exists j, (rest ++ [comp]). rewrite app_assoc.
    repeat split; [|assumption].
    rewrite not_elem_of_app, not_elem_of_cons. repeat split; auto.
    apply not_elem_of_nil.
Qed.

Lemma fold_normpath_step_normal (k : nat) (comps : list string) :
  forall acc,
  Forall (λ c, has_sep c = false) comps -> normal_comps k acc ->
  normal_comps k (foldl (normpath_step k) acc comps).
Proof.
  induction comps as [|c comps IH]; intros acc Hall Hacc; simpl;
    [assumption|].
  apply Forall_cons in Hall as [Hc Hall].
  apply IH; [assumption|]. now apply normpath_step_normal.
Qed.

Lemma normal_comps_nil (k : nat) : normal_comps k [].
Proof.
  split; [constructor|]. exists 0, [].
  repeat split; apply not_elem_of_nil.
Qed.

Lemma normpath_step_appends (k : nat) (acc comps : list string) (c : string) :
  normal_comps k (acc ++ c :: comps) ->
  normpath_step k acc c = acc ++ [c].
Proof.
  intros [Hclean (j & rest & E & Hrest & Hk)].
  apply Forall_app in Hclean as [_ Hclean].
  apply Forall_cons in Hclean as [(Hne1 & Hne2 & _) _].
  unfold normpath_step.
  destruct (String.eqb_spec c "") as [|_]; [contradiction|].
  destruct (String.eqb_spec c ".") as [|_]; [contradiction|]. simpl.
  destruct (String.eqb_spec c "..") as [->|_]; [|reflexivity]. simpl.
  assert (Hlt : length acc < j).
  { destruct (decide (length acc < j)) as [|Hge]; [assumption|].
    exfalso. apply Hrest.
    assert (Hl : (acc ++ ".." :: comps) !! length acc = Some "..")
      by apply list_lookup_middle, eq_refl.
    rewrite E, lookup_app_r in Hl by (rewrite length_replicate; lia).
    now apply list_elem_of_lookup_2 in Hl. }
  assert (Hacc : acc = replicate (length acc) "..").
  { apply (f_equal (take (length acc))) in E.
    rewrite take_app_length in E. rewrite E.
    rewrite take_app_le by (rewrite length_replicate; lia).
    rewrite take_replicate, length_replicate.
    now replace (length acc `min` j) with (length acc) by lia. }
  assert (Hk0 : k = 0).
  { destruct k; [reflexivity|]. rewrite Hk in Hlt by discriminate. lia. }
  destruct acc as [|a acc]; [now rewrite Hk0|].
  simpl in Hacc. injection Hacc as -> Hacc.
  replace (last (".." :: acc)) with (Some "..").
  - simpl. now rewrite orb_true_r.
  - symmetry. rewrite Hacc.
    exact (last_replicate_dotdot (length acc)).
Qed.

Lemma fold_normpath_step_id (k : nat) (comps : list string) :
  forall acc,
  normal_comps k (acc ++ comps) ->
  foldl (normpath_step k) acc comps = acc ++ comps.
Proof.
  induction comps as [|c comps IH]; intros acc Hn; simpl.
  - now rewrite app_nil_r.
  - rewrite (normpath_step_appends k acc comps c Hn).
    rewrite IH; rewrite <- app_assoc; [reflexivity|assumption].
Qed.


Lemma initial_slashes_cases (p : string) :
  (initial_slashes p = 0 /\ startswith_sep p = false)
  \/ ((initial_slashes p = 1 \/ initial_slashes p = 2)
      /\ startswith_sep p = true).
Proof.
  unfold initial_slashes. destruct (startswith_sep p); [right|left; auto].
  split; [|reflexivity].
  destruct (String.prefix "//" p && negb (String.prefix "///" p)); auto.
Qed.

Lemma normpath_step_empty (k : nat) (acc : list string) :
  normpath_step k acc "" = acc.
Proof. reflexivity. Qed.

Lemma prefix_nil (s : string) : String.prefix "" s = true.
Proof. now destruct s. Qed.

Lemma prefix_cons (a b : ascii) (s t : string) :
  String.prefix (String a s) (String b t)
  = if ascii_dec a b then String.prefix s t else false.
Proof. reflexivity. Qed.

(** The string that [normpath] builds from normal components is read
    back into the same slashes and components. *)
Lemma normpath_rebuild (k : nat) (comps : list string) :
  k <= 2 -> comps <> [] -> normal_comps k comps ->
  let path := slashes k +:+ String.concat "/" comps in
  path <> "" /\
  initial_slashes path = k /\
  foldl (normpath_step k) [] (split path) = comps.
Proof.
  intros Hk Hne Hn.
  destruct (concat_clean_head comps Hne (proj1 Hn)) as (c & r & Hbody & Hc).
  assert (Hsplit : split (String.concat "/" comps) = comps).
  { apply split_concat; [assumption|].
    eapply Forall_impl; [exact (proj1 Hn)|]. now intros x (_ & _ & ?). }
  assert (Hfold : foldl (normpath_step k) [] comps = comps)
    by (now apply (fold_normpath_step_id k comps [])).
  assert (Hd : forall (A : Type) (x y : A),
             (if ascii_dec "/" c then x else y) = y).
  { intros A x y. destruct (ascii_dec "/" c); [congruence|reflexivity]. }
  cbv zeta. rewrite Hbody in *.
  destruct k as [|[|[|k]]]; [| | |lia].
  - change (slashes 0 +:+ String c r) with (String c r).
    split; [discriminate|]. split; [|now rewrite Hsplit].
    unfold initial_slashes, startswith_sep.
    now rewrite prefix_cons, Hd.
  - change (slashes 1 +:+ String c r) with (String "/" (String c r)).
    split; [discriminate|]. split.
    + unfold initial_slashes, startswith_sep.
      rewrite !prefix_cons, prefix_nil. simpl.
      now rewrite Hd.
    + change (split (String "/" (String c r)))
        with ("" :: split (String c r)).
      rewrite Hsplit. exact Hfold.
  - change (slashes 2 +:+ String c r)
      with (String "/" (String "/" (String c r))).
    split; [discriminate|]. split.
    + unfold initial_slashes, startswith_sep.
      rewrite !prefix_cons, !prefix_nil. simpl.
      now rewrite Hd.
    + change (split (String "/" (String "/" (String c r))))
        with ("" :: "" :: split (String c r)).
      rewrite Hsplit. exact Hfold.
Qed.

Lemma normpath_comps_normal (p : string) :
  normal_comps (initial_slashes p)
    (foldl (normpath_step (initial_slashes p)) [] (split p)).
Proof.
  apply fold_normpath_step_normal;
    [apply split_no_sep | apply normal_comps_nil].
Qed.

Lemma initial_slashes_le (p : string) : initial_slashes p <= 2.
Proof. destruct (initial_slashes_cases p) as [[-> _]|[[->| ->] _]]; lia. Qed.

Lemma normpath_unfold (p : string) :
  p <> "" ->
  let k := initial_slashes p in
  let comps := foldl (normpath_step k) [] (split p) in
  normpath p
  = match comps with
    | [] => if (k =? 0)%nat then "." else slashes k
    | _ => slashes k +:+ String.concat "/" comps
    end.
Proof.
  intros Hne. cbv zeta. unfold normpath.
  destruct (String.eqb_spec p "") as [|_]; [contradiction|].
  pose proof (normpath_comps_normal p) as Hn.
  pose proof (initial_slashes_le p) as Hk.
  fold (slashes (initial_slashes p)).
  destruct (foldl (normpath_step (initial_slashes p)) [] (split p))
    as [|x l] eqn:Hcomps.
  - destruct (initial_slashes p) as [|[|[|k]]]; try reflexivity; lia.
  - destruct (normpath_rebuild (initial_slashes p) (x :: l) Hk
                ltac:(discriminate) Hn) as (Hne' & _ & _).
    cbv zeta in Hne'.
    destruct (String.eqb_spec
                (slashes (initial_slashes p) +:+ String.concat "/" (x :: l))
                "") as [E|_]; [contradiction|reflexivity].
Qed.

Lemma normpath_idempotent (p : string) : normpath (normpath p) = normpath p.
Proof.
  destruct (String.eqb_spec p "") as [->|Hne]; [reflexivity|].
  rewrite (normpath_unfold p Hne). cbv zeta.
  pose proof (normpath_comps_normal p) as Hn.
  pose proof (initial_slashes_le p) as Hk.
  destruct (foldl (normpath_step (initial_slashes p)) [] (split p))
    as [|x l] eqn:Hcomps.
  - destruct (initial_slashes p) as [|[|[|k]]]; try reflexivity; lia.
  - destruct (normpath_rebuild (initial_slashes p) (x :: l) Hk
                ltac:(discriminate) Hn) as (Hne' & Hinit & Hfold).
    cbv zeta in Hne', Hinit, Hfold.
    rewrite (normpath_unfold _ Hne'). cbv zeta.
    rewrite Hinit, Hfold. reflexivity.
Qed.

Lemma normpath_isabs (p : string) : isabs (normpath p) = isabs p.
Proof.
  destruct (String.eqb_spec p "") as [->|Hne]; [reflexivity|].
  rewrite (normpath_unfold p Hne). cbv zeta.
  pose proof (normpath_comps_normal p) as Hn.
  unfold isabs.
  destruct (initial_slashes_cases p) as [[Hk Hp]|[Hk Hp]]; rewrite Hp.
  - rewrite Hk in *.
    destruct (foldl (normpath_step 0) [] (split p)) as [|x l] eqn:Hcomps;
      [reflexivity|].
    destruct (concat_clean_head (x :: l) ltac:(discriminate) (proj1 Hn))
      as (c & r & -> & Hc).
    change (slashes 0 +:+ String c r) with (String c r).
    unfold startswith_sep. rewrite prefix_cons.
    destruct (ascii_dec "/" c); [congruence|reflexivity].
  - destruct (foldl (normpath_step (initial_slashes p)) [] (split p));
      destruct Hk as [-> | ->]; try reflexivity;
      now apply startswith_sep_app.
Qed.


(** ** resolve_output_path *)

Lemma resolve_output_path_joined (cwd filename output_dir : string) :
  resolve_output_path cwd filename output_dir
  = normpath (join cwd [output_dir; filename]).
Proof.
  unfold resolve_output_path, abspath, join. simpl.
  rewrite <- join_step_assoc.
  destruct (isabs filename) eqn:Hf; simpl.
  - unfold isabs in Hf. unfold join_step. now rewrite !Hf.
  - rewrite normpath_idempotent.
    destruct (isabs (join_step output_dir filename)) eqn:Hj; simpl;
      [|reflexivity].
    unfold isabs in Hj. unfold join_step at 2. now rewrite Hj.
Qed.

(** X1. The result is [normpath] of the join of the working directory, the
    output directory and the file name: the two normalisations of a
    relative file name count as one, and an absolute file name or output
    directory discards what stands before it. *)
Theorem resolve_output_path_is_normalised_join
    (cwd filename output_dir : string) :
  resolve_output_path cwd filename output_dir
  = normpath (join cwd [output_dir; filename]).
Proof. apply resolve_output_path_joined. Qed.

(** X2. With an absolute working directory the result is an absolute path,
    and resolving the result again, against any directories, returns it
    unchanged. *)
Theorem resolve_output_path_is_absolute_and_stable
    (cwd filename output_dir : string) :
  isabs cwd = true ->
  isabs (resolve_output_path cwd filename output_dir) = true /\
  forall cwd' output_dir',
    resolve_output_path cwd' (resolve_output_path cwd filename output_dir)
      output_dir'
    = resolve_output_path cwd filename output_dir.
Proof.
  intros Hcwd.
  assert (Habs : isabs (resolve_output_path cwd filename output_dir) = true).
  { rewrite resolve_output_path_joined, normpath_isabs.
    unfold join. simpl. now apply join_step_isabs, join_step_isabs. }
  split; [assumption|]. intros cwd' output_dir'.
  unfold resolve_output_path at 1. rewrite Habs. simpl.
  rewrite resolve_output_path_joined.
  apply normpath_idempotent.
Qed.

(** X3. With an absolute working directory the result is one or two
    slashes followed by components joined by single slashes, and no
    component is empty, [.] or [..]. *)
Theorem resolve_output_path_has_clean_components
    (cwd filename output_dir : string) :
  isabs cwd = true ->
  exists k comps,
    (k = 1 \/ k = 2) /\
    Forall (λ c, clean c /\ c <> "..") comps /\
    resolve_output_path cwd filename output_dir
    = slashes k +:+ String.concat "/" comps.
Proof.
  intros Hcwd. rewrite resolve_output_path_joined.
  set (p := join cwd [output_dir; filename]).
  assert (Hp : isabs p = true).
  { unfold p, join. simpl. now apply join_step_isabs, join_step_isabs. }
  assert (Hne : p <> "") by (intros E; rewrite E in Hp; discriminate).
  rewrite (normpath_unfold p Hne). cbv zeta.
  pose proof (normpath_comps_normal p) as [Hclean (j & rest & E & Hrest & Hk)].
  destruct (initial_slashes_cases p) as [[_ Hrel]|[Hk12 _]].
  { unfold isabs in Hp. congruence. }
  exists (initial_slashes p),
         (foldl (normpath_step (initial_slashes p)) [] (split p)).
  split; [assumption|]. split.
  - rewrite Hk in E by (destruct Hk12; lia). simpl in E.
    rewrite E in *. apply Forall_forall. intros c Hc.
    split; [now apply (proj1 (Forall_forall _ _) Hclean)|].
    intros ->. contradiction.
  - destruct (foldl (normpath_step (initial_slashes p)) [] (split p)).
    + destruct Hk12 as [-> | ->]; reflexivity.
    + reflexivity.
Qed.

(** X4. An absolute file name is returned normalised, whatever the output
    directory and the working directory are; and with an absolute output
    directory the working directory does not matter. *)
Theorem resolve_output_path_ignores_directories
    (cwd cwd' filename output_dir output_dir' : string) :
  (isabs filename = true ->
   resolve_output_path cwd filename output_dir = normpath filename /\
   resolve_output_path cwd filename output_dir
   = resolve_output_path cwd' filename output_dir') /\
  (isabs output_dir = true ->
   resolve_output_path cwd filename output_dir
   = resolve_output_path cwd' filename output_dir).
Proof.
  split.
  - intros Hf. unfold resolve_output_path. rewrite Hf. auto.
  - intros Hd. rewrite !resolve_output_path_joined.
    unfold join. simpl. unfold isabs in Hd.
    unfold join_step at 2 4. now rewrite Hd.
Qed.

(** ** calculate_ts_parent_path *)

Lemma replace_backslash_clears (s : string) :
  has_backslash (replace_backslash s) = false.
Proof.
  induction s as [|c s IH]; [reflexivity|]. simpl. rewrite IH.
  destruct (Ascii.eqb c "\") eqn:Hc; [reflexivity|]. now rewrite Hc.
Qed.

Lemma replace_backslash_id (s : string) :
  has_backslash s = false -> replace_backslash s = s.
Proof.
  induction s as [|c s IH]; [reflexivity|]. simpl.
  intros H. apply orb_false_iff in H as [Hc Hs]. now rewrite Hc, IH.
Qed.

Lemma has_backslash_app (a b : string) :
  has_backslash (a +:+ b) = has_backslash a || has_backslash b.
Proof.
  induction a as [|c a IH]; [reflexivity|].
  rewrite string_app_cons. simpl. now rewrite IH, orb_assoc.
Qed.

Lemma has_backslash_concat (l : list string) :
  Forall (λ n, has_backslash n = false) l ->
  has_backslash (String.concat "/" l) = false.
Proof.
  induction 1 as [|x l Hx Hl IH]; [reflexivity|].
  destruct l as [|y l]; [exact Hx|].
  change (String.concat "/" (x :: y :: l))
    with (x +:+ "/" +:+ String.concat "/" (y :: l)).
  now rewrite !has_backslash_app, Hx, IH.
Qed.

Lemma family_tree_nonempty (suite : TestSuite) : family_tree suite <> [].
Proof. destruct suite. discriminate. Qed.

Lemma endswith_sep_no_sep (s : string) :
  has_sep s = false -> endswith_sep s = false.
Proof.
  induction s as [|c s IH]; [reflexivity|]. simpl.
  intros H. apply orb_false_iff in H as [Hc Hs].
  destruct s; [assumption|]. now apply IH.
Qed.

Lemma startswith_sep_no_sep (s : string) :
  has_sep s = false -> startswith_sep s = false.
Proof.
  intros H. destruct (startswith_sep s) eqn:E; [|reflexivity].
  apply startswith_sep_cons in E as [r ->]. discriminate.
Qed.

Lemma join_plain (l : list string) :
  forall acc,
  acc <> "" -> endswith_sep acc = false -> Forall plain_name l ->
  foldl join_step acc l
  = match l with
    | [] => acc
    | _ => acc +:+ "/" +:+ String.concat "/" l
    end.
Proof.
  induction l as [|b l IH]; intros acc Hne Hend Hall; [reflexivity|].
  apply Forall_cons in Hall as [(Hb & Hsep & _) Hall]. simpl foldl.
  assert (Hstep : join_step acc b = acc +:+ "/" +:+ b).
  { unfold join_step. rewrite (startswith_sep_no_sep b Hsep), Hend.
    now destruct (String.eqb_spec acc "") as [|_]. }
  rewrite Hstep, IH; [| | |assumption].
  - destruct l as [|c l]; [reflexivity|].
    change (String.concat "/" (b :: c :: l))
      with (b +:+ "/" +:+ String.concat "/" (c :: l)).
    now rewrite !string_app_assoc.
  - intros E. apply string_app_eq_nil in E as [? _]. contradiction.
  - rewrite <- string_app_assoc, endswith_sep_app by assumption.
    now apply endswith_sep_no_sep.
Qed.

Lemma join_plain_names (a : string) (p : list string) :
  Forall plain_name (a :: p) -> join a p = String.concat "/" (a :: p).
Proof.
  intros Hall. apply Forall_cons in Hall as [(Ha & Hsep & _) Hall].
  unfold join. rewrite join_plain;
    [|assumption | now apply endswith_sep_no_sep | assumption].
  now destruct p.
Qed.

(** X5. The path never holds a backslash. *)
Theorem calculate_ts_parent_path_has_no_backslash (suite : TestSuite) :
  has_backslash (calculate_ts_parent_path suite) = false.
Proof.
  unfold calculate_ts_parent_path.
  destruct (parent suite) as [p|]; [|reflexivity].
  destruct (reverse (family_tree p)); [reflexivity|].
  apply replace_backslash_clears.
Qed.

Lemma parent_path_of_plain_names (n : string) (p : TestSuite) :
  Forall plain_name (family_tree p) ->
  calculate_ts_parent_path (Suite n (Some p))
  = String.concat "/" (reverse (family_tree p)).
Proof.
  intros Hall. unfold calculate_ts_parent_path. simpl.
  assert (Hrev : Forall plain_name (reverse (family_tree p)))
    by (now apply Forall_reverse).
  destruct (reverse (family_tree p)) as [|a l] eqn:E; [reflexivity|].
  rewrite (join_plain_names a l Hrev).
  apply replace_backslash_id, has_backslash_concat.
  eapply Forall_impl; [exact Hrev|]. now intros x (_ & _ & ?).
Qed.

(** X6. A suite without parent has the empty path.  When the names of the
    ancestors are plain components, the path is these names from the root
    down to the parent, joined by single slashes; the name of the suite
    itself is not part of it. *)
Theorem calculate_ts_parent_path_joins_ancestors
    (n : string) (p : TestSuite) :
  calculate_ts_parent_path (Suite n None) = "" /\
  (Forall plain_name (family_tree p) ->
   calculate_ts_parent_path (Suite n (Some p))
   = String.concat "/" (reverse (family_tree p))).
Proof. split; [reflexivity | apply parent_path_of_plain_names]. Qed.

Lemma concat_snoc (l : list string) (x : string) :
  l <> [] ->
  String.concat "/" (l ++ [x]) = String.concat "/" l +:+ "/" +:+ x.
Proof.
  induction l as [|y l IH]; intros Hne; [contradiction|].
  destruct l as [|z l]; [reflexivity|].
  change (String.concat "/" ((y :: z :: l) ++ [x]))
    with (y +:+ "/" +:+ String.concat "/" ((z :: l) ++ [x])).
  rewrite IH by discriminate.
  change (String.concat "/" (y :: z :: l))
    with (y +:+ "/" +:+ String.concat "/" (z :: l)).
  now rewrite !string_app_assoc.
Qed.

(** X7. With plain names, the path of a suite is the name of its parent
    when the parent is the root, and otherwise the path of the parent, a
    slash and the name of the parent. *)
Theorem calculate_ts_parent_path_extends_parent
    (n : string) (p : TestSuite) :
  Forall plain_name (family_tree p) ->
  calculate_ts_parent_path (Suite n (Some p))
  = match parent p with
    | None => name p
    | Some _ => calculate_ts_parent_path p +:+ "/" +:+ name p
    end.
Proof.
  intros Hall. rewrite parent_path_of_plain_names by assumption.
  destruct p as [m [q|]]; simpl.
  - simpl in Hall. apply Forall_cons in Hall as [_ Hq].
    rewrite (parent_path_of_plain_names m q Hq).
    rewrite reverse_cons. apply concat_snoc.
    intros E. apply (f_equal reverse) in E.
    rewrite reverse_involutive in E. now apply family_tree_nonempty in E.
  - reflexivity.
Qed.

(** X8. A parent whose name starts with a slash hides every ancestor
    above it: the path is that name, with its backslashes replaced. *)
Theorem calculate_ts_parent_path_restarts_at_absolute_name
    (n : string) (p : TestSuite) :
  isabs (name p) = true ->
  calculate_ts_parent_path (Suite n (Some p)) = replace_backslash (name p).
Proof.
  intros Habs. unfold calculate_ts_parent_path. simpl.
  destruct p as [m q]. simpl in *. rewrite reverse_cons.
  destruct (reverse match q with
                    | Some s => family_tree s
                    | None => []
                    end) as [|a l]; simpl; [reflexivity|].
  unfold join. rewrite foldl_app. simpl.
  unfold join_step at 1. unfold isabs in Habs. now rewrite Habs.
Qed.

End PathFacts.

(** * More properties of the version check *)

Section PipCheckAnswers.

Context (P : Packaging) (J : JohnnyDep).
Import Utils Spec.

Ltac check_unfold :=
  unfold run_check, check_for_pip_package_condition, assert_, called, raise,
    mbind, mret, Eval_bind, Eval_ret, eval_bind, eval_ret.

Lemma operator_list_exchanged (op : string)
    (g : Version P -> Version P -> bool) (a b : Version P) :
  operator_list P !! op = Some g ->
  g a b = Spec.denotes P (exchanged op) a b.
Proof.
  intros Hg.
  assert (Hop : op ∈ valid_operators)
    by (apply operator_list_defined with P; eauto).
  apply valid_operator_cases in Hop.
  destruct Hop as [-> | [-> | [-> | [-> | [-> | ->]]]]];
    [ replace g with (operator_gt P) by (now injection Hg)
    | replace g with (operator_ge P) by (now injection Hg)
    | replace g with (operator_le P) by (now injection Hg)
    | replace g with (operator_lt P) by (now injection Hg)
    | replace g with (operator_ne P) by (now injection Hg)
    | replace g with (operator_eq P) by (now injection Hg) ];
    unfold Spec.denotes, exchanged, operator_eq, operator_ne, operator_gt,
      operator_ge, operator_lt, operator_le; simpl;
    destruct (key_compare P a b); reflexivity.
Qed.

Lemma target_branch (ver : option string) :
  Py.str_truthy ver
    && negb (bool_decide (Py.lower <$> ver = Some "latest")) = true ->
  ~ Spec.latest_requested ver.
Proof.
  intros H Hl. apply latest_requested_branch in Hl. congruence.
Qed.

(** X9. A definite answer of the version check means that every step
    succeeded: the distribution was built, the installed version and the
    target (the latest version when that is asked for, else the target
    given) are non-empty strings that parse, and the answer is the relation
    of the operator between the two versions, with [<] and [<=] standing for
    each other. *)
Theorem definite_answer_compares_parsed_versions
    (name op : string) (ver : option string) (b : bool) :
  (run_check P J name op ver).1 = Return (Some b) ->
  op ∈ valid_operators /\
  exists d i t vi vt,
    JohnnyDist J name = Some d /\ dist_truth J d = true /\
    version_installed J d = Some i /\ i <> "" /\
    target_of J d ver t /\ t <> "" /\
    version_parse P i = Some vi /\ version_parse P t = Some vt /\
    b = Spec.denotes P (exchanged op) vi vt.
Proof.
  intros Hrun.
  destruct (decide (op ∈ valid_operators)) as [Hop|Hop].
  2:{ revert Hrun. check_unfold.
      rewrite bool_decide_eq_false_2 by assumption. discriminate. }
  split; [assumption|].
  destruct (operator_list_total P op Hop) as [g Hg].
  pose proof (operator_list_exchanged op g) as Hrel.
  pose proof (latest_requested_branch ver) as Hbr.
  pose proof (target_branch ver) as Hlit.
  revert Hrun. check_unfold.
  rewrite bool_decide_eq_true_2 by assumption. rewrite Hg. simpl.
  destruct (JohnnyDist J name) as [d|] eqn:Hd; simpl; [|discriminate].
  destruct (dist_truth J d) eqn:Ht; simpl; [|discriminate].
  destruct (Py.str_truthy ver
            && negb (bool_decide (Py.lower <$> ver = Some "latest")));
    simpl.
  - destruct ver as [s|]; simpl; [|discriminate].
    destruct (String.eqb_spec s "") as [|Hs]; simpl; [discriminate|].
    destruct (version_installed J d) as [i|] eqn:Hi; simpl; [|discriminate].
    destruct (String.eqb_spec i "") as [|Hin]; simpl; [discriminate|].
    destruct (version_parse P i) as [vi|] eqn:Hpi; simpl; [|discriminate].
    destruct (version_parse P s) as [vs|] eqn:Hps; simpl; [|discriminate].
    intros [= <-]. exists d, i, s, vi, vs.
    repeat (split; [first [assumption | reflexivity | right; auto]|]).
    now apply Hrel.
  - destruct (version_latest J d) as [[l|]|] eqn:Hl; simpl;
      try discriminate.
    destruct (String.eqb_spec l "") as [|Hln]; simpl; [discriminate|].
    destruct (version_installed J d) as [i|] eqn:Hi; simpl; [|discriminate].
    destruct (String.eqb_spec i "") as [|Hin]; simpl; [discriminate|].
    destruct (version_parse P i) as [vi|] eqn:Hpi; simpl; [|discriminate].
    destruct (version_parse P l) as [vl|] eqn:Hpl; simpl; [|discriminate].
    intros [= <-]. exists d, i, l, vi, vl.
    repeat (split;
            [first [assumption | reflexivity
                   | left; split; [apply Hbr; reflexivity | assumption]]|]).
    now apply Hrel.
Qed.

(** X10. The version check adds to the record of calls a front part of
    the three lookups, in their order: the constructor, the installed
    version, the latest version.  It adds none when the operator is not one
    of the six; the constructor alone when the constructor raises or the
    distribution is false; and otherwise the constructor and the installed
    version, followed by the latest version exactly when the latest version
    is asked for. *)
Theorem lookups_are_made_in_order
    (name op : string) (ver : option string) (t : list provider_call) :
  exists k,
    (check_for_pip_package_condition P J name op ver t).2
    = t ++ take k (lookups name) /\
    k <= 3 /\
    (k = 0 <-> op ∉ valid_operators) /\
    (k = 1 <->
     op ∈ valid_operators /\
     (JohnnyDist J name = None \/
      exists d, JohnnyDist J name = Some d /\ dist_truth J d = false)) /\
    (k = 2 <->
     op ∈ valid_operators /\ ~ Spec.latest_requested ver /\
     exists d, JohnnyDist J name = Some d /\ dist_truth J d = true) /\
    (k = 3 <->
     op ∈ valid_operators /\ Spec.latest_requested ver /\
     exists d, JohnnyDist J name = Some d /\ dist_truth J d = true).
Proof.
  pose proof (latest_requested_branch ver) as Hbr.
  pose proof (target_branch ver) as Hlit.
  destruct (decide (op ∈ valid_operators)) as [Hop|Hop].
  2:{ check_unfold. rewrite bool_decide_eq_false_2 by assumption.
      exists 0. simpl. rewrite app_nil_r.
      repeat split; try tauto; try lia; try discriminate;
        intros (? & _); contradiction. }
  destruct (operator_list_total P op Hop) as [g Hg].
  check_unfold. rewrite bool_decide_eq_true_2 by assumption. rewrite Hg.
  simpl.
  destruct (JohnnyDist J name) as [d|] eqn:Hd; simpl.
  2:{ exists 1. split; [reflexivity|]. split; [lia|].
      repeat split; try discriminate; try tauto; try (intros; contradiction);
        intros (_ & _ & d & Hd' & _); discriminate. }
  destruct (dist_truth J d) eqn:Ht; simpl.
  2:{ exists 1. split; [reflexivity|]. split; [lia|].
      repeat split; try discriminate; try (intros; contradiction); eauto;
        intros (_ & _ & d' & Hd' & Ht'); congruence. }
  destruct (Py.str_truthy ver
            && negb (bool_decide (Py.lower <$> ver = Some "latest")))
    eqn:Hbranch; simpl.
  - assert (Hnl : ~ Spec.latest_requested ver) by (now apply Hlit).
    exists 2. split.
    { repeat (case_match; simpl in *; simplify_eq);
        rewrite <- ?app_assoc; reflexivity. }
    split; [lia|].
    repeat split; try discriminate; try (intros; contradiction); eauto;
      try (intros (_ & [Hn | (d' & Hd' & Ht')]); congruence);
      intros (_ & Hl & _); contradiction.
  - assert (Hl : Spec.latest_requested ver) by (apply Hbr; reflexivity).
    exists 3. split.
    { repeat (case_match; simpl in *; simplify_eq);
        rewrite <- ?app_assoc; reflexivity. }
    split; [lia|].
    repeat split; try discriminate; try (intros; contradiction); eauto;
      try (intros (_ & [Hn | (d' & Hd' & Ht')]); congruence);
      intros (_ & Hn & _); contradiction.
Qed.

(** X11. Which of the six operators is asked for changes neither the
    lookups that are made nor whether the check has an answer: two of the
    six make the same calls to johnnydep, and one gives [None] exactly when
    the other does. *)
Theorem operator_changes_only_the_answer
    (name op op' : string) (ver : option string) :
  op ∈ valid_operators -> op' ∈ valid_operators ->
  (run_check P J name op ver).2 = (run_check P J name op' ver).2 /\
  ((run_check P J name op ver).1 = Return None <->
   (run_check P J name op' ver).1 = Return None).
Proof.
  intros Hop Hop'.
  destruct (operator_list_total P op Hop) as [g Hg].
  destruct (operator_list_total P op' Hop') as [g' Hg'].
  check_unfold.
  rewrite (bool_decide_eq_true_2 (op ∈ valid_operators)) by assumption.
  rewrite (bool_decide_eq_true_2 (op' ∈ valid_operators)) by assumption.
  rewrite Hg, Hg'. simpl.
  repeat (case_match; simpl in *; simplify_eq);
    split; try reflexivity; split; intros; congruence.
Qed.

(** X12. A target that is the word "latest" in any letter case is the
    target ["latest"]: outcome and calls are the same. *)
Theorem latest_in_any_letter_case
    (name op s : string) (t : list provider_call) :
  Py.lower s = "latest" ->
  check_for_pip_package_condition P J name op (Some s) t
  = check_for_pip_package_condition P J name op (Some "latest") t.
Proof.
  intros Hs.
  assert (Hbr : Py.str_truthy (Some s)
            && negb (bool_decide (Py.lower <$> Some s = Some "latest"))
            = false).
  { apply latest_requested_branch. simpl. now right. }
  check_unfold. simpl in *. rewrite Hbr. reflexivity.
Qed.

End PipCheckAnswers.

(** * More properties of the command line parser *)

Section ArgparseOverwrite.

Import Py Argparse Spec.

Context `{U : Py.Unicode}.

Context (parser : list Action) (d : string).
Context (Hover : overwritten parser d).

Lemma overwrites_elem_of (a : Action) :
  a ∈ parser -> dest a = Some d -> overwrites a.
Proof.
  intros Hin Hd. pose proof Hover as H. unfold overwritten in H.
  rewrite Forall_forall in H. exact (H a Hin Hd).
Qed.

Lemma short_flag_elsewhere (c : ascii) (a : Action) :
  assoc (String "-" (String c EmptyString)) (option_string_actions parser)
  = Some a ->
  a ∈ parser /\ dest a <> Some d.
Proof.
  intros H. apply assoc_elem_of, option_string_actions_elem_of in H.
  destruct H as [Hin Hs]. split; [assumption|]. intros Hd.
  destruct (overwrites_elem_of a Hin Hd) as (_ & Hflags & _).
  rewrite Forall_forall in Hflags. destruct (Hflags _ Hs) as [_ Hlen].
  now apply Hlen.
Qed.

Lemma explicit_arg_tuples_dest (e : string) :
  forall (a : Action) (os : string) (following : list string)
         (tuples : list (Action * list string)) (n : nat),
  a ∈ parser -> os ∈ option_strings a ->
  explicit_arg_tuples parser a os e following = Parsed (tuples, n) ->
  (dest a = Some d -> tuples = [(a, [e])] /\ nargs a <> NargsZero) /\
  (dest a <> Some d -> Forall (λ x, dest x.1 <> Some d) tuples).
Proof.
  induction e as [|c e IH]; intros a os following tuples n Hin Hos.
  - simpl. destruct (nargs a) eqn:Hn.
    + intros [= <- <-]. split; intros Hd;
        [split; [reflexivity|discriminate] | repeat constructor; exact Hd].
    + intros [= <- <-]. split; intros Hd;
        [split; [reflexivity|discriminate] | repeat constructor; exact Hd].
    + destruct (is_long os); discriminate.
  - simpl. destruct (nargs a) eqn:Hn.
    + intros [= <- <-]. split; intros Hd;
        [split; [reflexivity|discriminate] | repeat constructor; exact Hd].
    + intros [= <- <-]. split; intros Hd;
        [split; [reflexivity|discriminate] | repeat constructor; exact Hd].
    + destruct (is_long os) eqn:Hl; [discriminate|].
      assert (Hnd : dest a <> Some d).
      { intros Hd. destruct (overwrites_elem_of a Hin Hd) as (_ & Hflags & _).
        rewrite Forall_forall in Hflags.
        destruct (Hflags _ Hos) as [Hlong _]. congruence. }
      destruct (assoc _ (option_string_actions parser)) as [a'|] eqn:Ha';
        [|discriminate].
      destruct (short_flag_elsewhere c a' Ha') as [Hin' Hnd'].
      assert (Hos' : String "-" (String c "") ∈ option_strings a')
        by (now apply assoc_elem_of, option_string_actions_elem_of in Ha').
      destruct e as [|c' e'].
      * destruct (_match_argument a' following) as [k| |]; simpl;
          try discriminate.
        intros [= <- <-]. split; [contradiction|].
        intros _. repeat constructor; assumption.
      * destruct (explicit_arg_tuples parser a' _ (String c' e') following)
          as [[tuples' k]| |] eqn:Hrec; simpl; try discriminate.
        intros [= <- <-].
        destruct (IH a' _ following tuples' k Hin' Hos' Hrec) as [_ Hall].
        split; [contradiction|]. intros _. constructor; auto.
Qed.

Lemma take_action_stored (a : Action) (args : list string)
    (st st' : parse_state) :
  overwrites a -> dest a = Some d ->
  take_action a args st = Parsed st' ->
  exists v, _get_values a args = Parsed v /\
            namespace st' !! d = Some (stored a v).
Proof.
  intros (Hact & _) Hd. unfold take_action.
  destruct (_get_values a args) as [v| |]; simpl; try discriminate.
  unfold call_action, stored. rewrite Hd.
  destruct Hact as [-> | ->]; simpl; intros [= <-]; simpl;
    exists v; (split; [reflexivity|]); apply lookup_insert_eq.
Qed.

Lemma consume_optional_overwrite (s : string) (t : option_tuple)
    (rest : list (string * pattern)) (st st' : parse_state) (n : nat) :
  Spec.from_parser parser t ->
  consume_optional parser s t (following_arguments rest) st
  = Parsed (n, st') ->
  match tuple_action t with
  | Some a =>
      if bool_decide (dest a = Some d)
      then (nargs a <> NargsZero -> Spec.values_of t rest <> []) /\
           exists v,
             _get_values a (given a (Spec.values_of t rest)) = Parsed v /\
             namespace st' !! d = Some (stored a v)
      else namespace st' !! d = namespace st !! d
  | None => namespace st' !! d = namespace st !! d
  end.
Proof.
  intros Hfrom. unfold consume_optional, Spec.values_of, given.
  destruct (tuple_action t) as [a|] eqn:Ha; [|now intros [= <- <-]].
  destruct (Hfrom a Ha) as [Hin Hos].
  destruct (tuple_explicit_arg t) as [e|].
  - destruct (explicit_arg_tuples parser a (tuple_option_string t) e
                (following_arguments rest)) as [[tuples k]| |] eqn:He; simpl;
      try discriminate.
    destruct (take_actions tuples st) as [st1| |] eqn:Ht; simpl;
      try discriminate.
    intros [= <- <-].
    destruct (explicit_arg_tuples_dest e a _ _ tuples k Hin Hos He)
      as [Hone Hall].
    case_bool_decide as Hd.
    + destruct (Hone Hd) as [-> Hnz]. simpl in Ht.
      destruct (take_action a [e] st) as [st2| |] eqn:H2; simpl in Ht;
        try discriminate.
      injection Ht as <-. split; [discriminate|].
      destruct (take_action_stored a [e] st st2
                  (overwrites_elem_of a Hin Hd) Hd H2) as (v & Hv & Hns).
      exists v. split; [|assumption].
      destruct (nargs a); [assumption|assumption|contradiction].
    + exact (take_actions_other d tuples st st1 (Hall Hd) Ht).
  - destruct (_match_argument a (following_arguments rest)) as [k| |] eqn:Hk;
      simpl; try discriminate.
    destruct (take_action a (take k (following_arguments rest)) st)
      as [st1| |] eqn:Ht; simpl; try discriminate.
    intros [= <- <-].
    case_bool_decide as Hd.
    + destruct (take_action_stored a _ st st1
                  (overwrites_elem_of a Hin Hd) Hd Ht) as (v & Hv & Hns).
      unfold _match_argument in Hk.
      destruct (nargs a) eqn:Hn;
        destruct (following_arguments rest) as [|x l] eqn:Hf;
        try discriminate; injection Hk as <-.
      * split; [discriminate|]. exists v. split; assumption.
      * split; [discriminate|]. exists v.
        rewrite take_ge in Hv by (simpl; lia). split; assumption.
      * split; [contradiction|]. exists v. split; assumption.
      * split; [contradiction|]. exists v. split; assumption.
    + exact (take_action_other d a _ st st1 Hd Ht).
Qed.

Lemma consume_overwrite (parts : list (string * pattern)) :
  forall (skip : nat) (st st' : parse_state),
  Spec.parts_from_parser parser parts ->
  skip <= length (following_arguments parts) ->
  consume parser parts skip st = Parsed st' ->
  overwrite_result (namespace st !! d) (namespace st' !! d) (uses d parts).
Proof.
  induction parts as [|[s letter] rest IH]; intros skip st st' Hfrom Hskip.
  - simpl. now intros [= <-].
  - apply Forall_cons in Hfrom as [Hhead Hfrom].
    destruct skip as [|k]; simpl.
    + destruct letter as [| |t].
      * intros H. apply (IH 0 _ _ Hfrom) in H; [assumption|lia].
      * intros H. apply (IH 0 _ _ Hfrom) in H; [assumption|lia].
      * destruct (consume_optional parser s t (following_arguments rest) st)
          as [[n st1]| |] eqn:Hopt; simpl; try discriminate.
        intros H.
        pose proof (consume_optional_bound parser s t _ st st1 n Hopt) as Hn.
        pose proof (consume_optional_overwrite s t rest st st1 n
                      (Hhead t eq_refl) Hopt) as Hstep.
        apply (IH n _ _ Hfrom Hn) in H.
        destruct (tuple_action t) as [a|]; [|now rewrite <- Hstep].
        case_bool_decide as Hd; [|now rewrite <- Hstep].
        destruct Hstep as (Hne & v & Hv & Hns).
        simpl. split; [assumption|]. exists v. split; [assumption|].
        now rewrite <- Hns.
    + apply following_arguments_skip in Hskip as [-> Hk].
      intros H. now apply (IH k _ _ Hfrom Hk) in H.
Qed.

Lemma convert_defaults_overwrite (actions : list Action)
    (seen : list (list string)) :
  forall ns ns' : gmap string pyval,
  Forall (λ a, dest a = Some d -> overwrites a) actions ->
  convert_defaults actions seen ns = Parsed ns' ->
  ns' !! d = ns !! d.
Proof.
  induction actions as [|a actions IH]; intros ns ns' Hall; simpl.
  - now intros [= <-].
  - apply Forall_cons in Hall as [Ha Hall].
    match goal with
    | |- context [mbind _ ?m] => destruct m as [ns1| |] eqn:H1
    end; simpl; try discriminate.
    intros H. rewrite (IH _ _ Hall H).
    destruct (bool_decide (option_strings a ∈ seen)); [now injection H1 as <-|].
    destruct (default a) as [| | |s|] eqn:Hdef;
      try (now injection H1 as <-).
    destruct (dest a) as [d'|] eqn:Hdest; [|now injection H1 as <-].
    destruct (ns !! d') as [[| | |s'|]|] eqn:Hlook;
      try (now injection H1 as <-).
    destruct (String.eqb_spec s' s) as [->|_]; [|now injection H1 as <-].
    destruct (_get_value a s) as [v| |] eqn:Hv; simpl in H1;
      try discriminate.
    injection H1 as <-.
    destruct (decide (d' = d)) as [->|Hne].
    + destruct (Ha eq_refl) as (_ & _ & Hty).
      unfold _get_value in Hv. rewrite (Hty s Hdef) in Hv.
      injection Hv as <-. now rewrite lookup_insert_eq.
    + now apply lookup_insert_ne.
Qed.

Lemma parse_args_overwrite (argv : list string) (ns : gmap string pyval)
    (parts : list (string * pattern)) :
  parse_args parser argv = Parsed ns ->
  arg_strings_pattern parser argv = Parsed parts ->
  overwrite_result (initial_namespace parser !! d) (ns !! d) (uses d parts).
Proof.
  unfold parse_args, parse_known_args. intros H Hparts. rewrite Hparts in H.
  simpl in H.
  match type of H with
  | context [consume parser parts 0 ?st0] =>
      destruct (consume parser parts 0 st0) as [st| |] eqn:Hcons
  end; simpl in H; try discriminate.
  destruct (convert_defaults parser (seen_actions st) (namespace st))
    as [ns1| |] eqn:Hconv; simpl in H; try discriminate.
  destruct (extras st); [|discriminate]. injection H as <-.
  apply consume_overwrite in Hcons;
    [|now apply arg_strings_pattern_from_parser with argv | lia].
  simpl in Hcons.
  now rewrite (convert_defaults_overwrite parser (seen_actions st)
                 (namespace st) ns1 Hover Hconv).
Qed.

Lemma uses_from_parser (parts : list (string * pattern)) :
  Spec.parts_from_parser parser parts ->
  Forall (λ u, u.1 ∈ parser /\ dest u.1 = Some d) (uses d parts).
Proof.
  induction 1 as [|[s letter] rest Hhead _ IH]; simpl; [constructor|].
  destruct letter as [| |t]; try assumption.
  destruct (tuple_action t) as [a|] eqn:Ha; [|assumption].
  case_bool_decide as Hd; [|assumption].
  constructor; [|assumption]. simpl. split; [|assumption].
  now destruct (Hhead t eq_refl a Ha).
Qed.

Lemma occurrences_uses (parts : list (string * pattern)) :
  Spec.occurrences d parts = snd <$> uses d parts.
Proof.
  induction parts as [|[s letter] rest IH]; simpl; [reflexivity|].
  destruct letter as [| |t]; try assumption.
  unfold Spec.names. destruct (tuple_action t) as [a|]; [|assumption].
  destruct (bool_decide (dest a = Some d)); simpl; now rewrite IH.
Qed.

End ArgparseOverwrite.

Section ArgparseNoResult.

Import Py Argparse Spec.

Context `{U : Py.Unicode}.

Context (parser : list Action).

Lemma take_action_extras (a : Action) (args : list string)
    (st st' : parse_state) :
  take_action a args st = Parsed st' -> extras st' = extras st.
Proof.
  unfold take_action.
  destruct (_get_values a args) as [v| |]; simpl; try discriminate.
  destruct (call_action a v (namespace st)) as [ns| |]; simpl;
    try discriminate.
  now intros [= <-].
Qed.

Lemma take_actions_extras (tuples : list (Action * list string)) :
  forall st st' : parse_state,
  take_actions tuples st = Parsed st' -> extras st' = extras st.
Proof.
  induction tuples as [|[a args] tuples IH]; intros st st'; simpl.
  - now intros [= <-].
  - destruct (take_action a args st) as [st1| |] eqn:H1; simpl;
      try discriminate.
    intros H. rewrite (IH _ _ H). now apply take_action_extras in H1.
Qed.

Lemma take_action_help_ends (a : Action) (args : list string)
    (st st' : parse_state) :
  action a = Help -> take_action a args st <> Parsed st'.
Proof.
  intros Ha. unfold take_action.
  destruct (_get_values a args) as [v| |]; simpl; try discriminate.
  unfold call_action. rewrite Ha. discriminate.
Qed.

Lemma explicit_arg_tuples_head (a : Action) (os e : string)
    (following : list string) (tuples : list (Action * list string))
    (n : nat) :
  explicit_arg_tuples parser a os e following = Parsed (tuples, n) ->
  exists args tl, tuples = (a, args) :: tl.
Proof.
  destruct e as [|c e]; simpl.
  - destruct (nargs a); [intros [= <- <-]; eauto..|].
    destruct (is_long os); discriminate.
  - destruct (nargs a); [intros [= <- <-]; eauto..|].
    destruct (is_long os); [discriminate|].
    destruct (assoc _ (option_string_actions parser)) as [a'|];
      [|discriminate].
    destruct e as [|c' e'].
    + destruct (_match_argument a' following); simpl; try discriminate.
      intros [= <- <-]. eauto.
    + destruct (explicit_arg_tuples parser a' _ (String c' e') following)
        as [[tuples' k]| |]; simpl; try discriminate.
      intros [= <- <-]. eauto.
Qed.

Lemma consume_optional_extras (s : string) (t : option_tuple)
    (following : list string) (st st' : parse_state) (n : nat) :
  consume_optional parser s t following st = Parsed (n, st') ->
  (extras st <> [] -> extras st' <> []) /\
  (ends_parse (s, PatO t) = true -> extras st' <> []).
Proof.
  unfold consume_optional, ends_parse, stray, Spec.asks_help. simpl.
  destruct (tuple_action t) as [a|].
  - match goal with
    | |- context [mbind _ ?m] => destruct m as [[tuples k]| |] eqn:Htuples
    end; simpl; try discriminate.
    destruct (take_actions tuples st) as [st1| |] eqn:Ht; simpl;
      try discriminate.
    intros [= <- <-]. rewrite (take_actions_extras _ _ _ Ht).
    split; [auto|]. intros Hhelp. exfalso.
    destruct (action a) eqn:Ha; try discriminate.
    assert (Hhead : exists args tl, tuples = (a, args) :: tl).
    { destruct (tuple_explicit_arg t) as [e|].
      - now apply explicit_arg_tuples_head in Htuples.
      - destruct (_match_argument a following); simpl in Htuples;
          try discriminate.
        injection Htuples as <- <-. eauto. }
    destruct Hhead as (args & tl & ->). simpl in Ht.
    destruct (take_action a args st) as [st2| |] eqn:H2; simpl in Ht;
      try discriminate.
    exact (take_action_help_ends a args st st2 Ha H2).
  - intros [= <- <-]. simpl.
    split; intros _; now destruct (extras st).
Qed.

Lemma consume_extras (parts : list (string * pattern)) :
  forall (skip : nat) (st st' : parse_state),
  consume parser parts skip st = Parsed st' ->
  extras st <> [] -> extras st' <> [].
Proof.
  induction parts as [|[s letter] rest IH]; intros skip st st'; simpl.
  - now intros [= <-].
  - destruct skip as [|k]; [|apply IH].
    destruct letter as [| |t].
    + intros H _. apply (IH _ _ _ H). simpl. now destruct (extras st).
    + intros H _. apply (IH _ _ _ H). simpl. now destruct (extras st).
    + destruct (consume_optional parser s t (following_arguments rest) st)
        as [[n st1]| |] eqn:Hopt; simpl; try discriminate.
      intros H Hne. apply (IH _ _ _ H).
      exact (proj1 (consume_optional_extras _ _ _ _ _ _ Hopt) Hne).
Qed.

Lemma consume_ends (parts : list (string * pattern)) :
  forall (skip : nat) (st st' : parse_state),
  Exists (λ part, ends_parse part = true) parts ->
  skip <= length (following_arguments parts) ->
  consume parser parts skip st = Parsed st' ->
  extras st' <> [].
Proof.
  induction parts as [|[s letter] rest IH]; intros skip st st' Hex Hskip.
  - inversion Hex.
  - destruct skip as [|k]; simpl.
    + destruct letter as [| |t].
      * intros H. apply (consume_extras _ _ _ _ H). simpl.
        now destruct (extras st).
      * intros H. apply (consume_extras _ _ _ _ H). simpl.
        now destruct (extras st).
      * destruct (consume_optional parser s t (following_arguments rest) st)
          as [[n st1]| |] eqn:Hopt; simpl; try discriminate.
        intros H.
        destruct (consume_optional_extras _ _ _ _ _ _ Hopt) as [_ Hend].
        apply Exists_cons in Hex as [Hhere | Hlater].
        -- exact (consume_extras _ _ _ _ H (Hend Hhere)).
        -- apply (IH n st1 st' Hlater); [|assumption].
           exact (consume_optional_bound parser s t _ st st1 n Hopt).
    + apply following_arguments_skip in Hskip as [-> Hk].
      apply Exists_cons in Hex as [Hhere | Hlater]; [discriminate|].
      now apply IH.
Qed.

Lemma arg_strings_pattern_ends (argv : list string) :
  forall (parts : list (string * pattern)) (s : string),
  s ∈ argv -> read_as_end parser s ->
  arg_strings_pattern parser argv = Parsed parts ->
  Exists (λ part, ends_parse part = true) parts.
Proof.
  induction argv as [|s' argv IH]; intros parts s Hin Hend; simpl.
  - now apply elem_of_nil in Hin.
  - destruct (String.eqb_spec s' "--") as [->|Hnd].
    + intros [= <-]. now left.
    + destruct (_parse_optional parser s') as [o| |] eqn:Ho; simpl;
        try discriminate.
      destruct (arg_strings_pattern parser argv) as [parts'| |] eqn:Hp;
        simpl; try discriminate.
      intros [= <-].
      apply elem_of_cons in Hin as [->|Hin]; [|right; now apply (IH _ s)].
      left. destruct Hend as [->|(t & Ht & Hends)]; [contradiction|].
      rewrite Ht in Ho. injection Ho as <-. exact Hends.
Qed.

Lemma parse_args_ends (argv : list string) (s : string)
    (ns : gmap string pyval) :
  s ∈ argv -> read_as_end parser s ->
  parse_args parser argv <> Parsed ns.
Proof.
  intros Hin Hend. unfold parse_args, parse_known_args.
  destruct (arg_strings_pattern parser argv) as [parts| |] eqn:Hparts; simpl;
    try discriminate.
  pose proof (arg_strings_pattern_ends argv parts s Hin Hend Hparts) as Hex.
  match goal with
  | |- context [consume parser parts 0 ?st0] =>
      destruct (consume parser parts 0 st0) as [st| |] eqn:Hcons
  end; simpl; try discriminate.
  apply consume_ends in Hcons; [|assumption|lia].
  destruct (convert_defaults parser (seen_actions st) (namespace st));
    simpl; try discriminate.
  now destruct (extras st).
Qed.

Lemma parse_args_leading_argument (s : string) (rest : list string)
    (ns : gmap string pyval) :
  starts_with_prefix_char s = false ->
  parse_args parser (s :: rest) <> Parsed ns.
Proof.
  intros Hs. unfold parse_args, parse_known_args. simpl.
  destruct (String.eqb_spec s "--") as [->|_]; [discriminate|].
  assert (Hopt : _parse_optional parser s = Parsed None).
  { unfold _parse_optional. rewrite Hs. simpl.
    now destruct (String.eqb s ""). }
  rewrite Hopt. simpl.
  destruct (arg_strings_pattern parser rest) as [parts| |]; simpl;
    try discriminate.
  match goal with
  | |- context [consume parser parts 0 ?st0] =>
      destruct (consume parser parts 0 st0) as [st| |] eqn:Hcons
  end; simpl; try discriminate.
  apply consume_extras in Hcons; [|discriminate].
  destruct (convert_defaults parser (seen_actions st) (namespace st));
    simpl; try discriminate.
  now destruct (extras st).
Qed.

End ArgparseNoResult.

Section OneAction.

Import Py Argparse Spec.

Context `{U : Py.Unicode}.

Context (parser : list Action) (d : string) (act : Action).
Context (Hover : overwritten parser d).
Context (Hone : Forall (λ a, dest a = Some d -> a = act) parser).

Lemma uses_one (parts : list (string * pattern)) :
  Spec.parts_from_parser parser parts ->
  Forall (λ u, u.1 = act) (uses d parts).
Proof.
  intros Hfrom. apply (uses_from_parser parser d) in Hfrom.
  eapply Forall_impl; [exact Hfrom|]. intros [a vals] [Hin Hd]. simpl in *.
  pose proof Hone as H. rewrite Forall_forall in H. exact (H a Hin Hd).
Qed.

Lemma store_result (us : list (Action * list string)) :
  action act = Store -> nargs act = NargsNone ->
  forall o o' : option pyval,
  Forall (λ u, u.1 = act) us ->
  overwrite_result o o' us ->
  Forall (λ vals, vals <> []) (snd <$> us) /\
  Forall (λ s, exists v, _get_values act [s] = Parsed v)
    (taken (snd <$> us)) /\
  match last (taken (snd <$> us)) with
  | None => o' = o
  | Some s => exists v, _get_values act [s] = Parsed v /\ o' = Some v
  end.
Proof.
  intros Hact Hnargs.
  induction us as [|[a vals] us IH]; intros o o' Hall.
  - simpl. intros ->. repeat split; constructor.
  - apply Forall_cons in Hall as [Ha Hall]. simpl in Ha. subst a.
    cbn [overwrite_result]. intros (Hne & v & Hv & Hrest).
    unfold given, stored in Hv, Hrest. rewrite Hnargs in Hv.
    rewrite Hact in Hrest.
    destruct vals as [|s vals].
    { exfalso. apply Hne; [rewrite Hnargs; discriminate | reflexivity]. }
    simpl in Hv. rewrite take_0 in Hv.
    destruct (IH _ _ Hall Hrest) as (Hall1 & Hall2 & Hlast).
    change (snd <$> (act, s :: vals) :: us)
      with ((s :: vals) :: (snd <$> us)).
    change (taken ((s :: vals) :: (snd <$> us)))
      with (s :: taken (snd <$> us)).
    split; [constructor; [discriminate | assumption]|].
    split; [constructor; [eauto | assumption]|].
    destruct (taken (snd <$> us)) as [|s' l].
    + simpl in *. eauto.
    + change (last (s :: s' :: l)) with (last (s' :: l)).
      destruct (last (s' :: l)) eqn:Hl; [exact Hlast|].
      apply last_None in Hl. discriminate.
Qed.

Lemma flag_result (us : list (Action * list string)) :
  action act = StoreTrue ->
  forall o o' : option pyval,
  Forall (λ u, u.1 = act) us ->
  overwrite_result o o' us ->
  o' = match us with [] => o | _ :: _ => Some (VBool true) end.
Proof.
  intros Hact.
  induction us as [|[a vals] us IH]; intros o o' Hall; simpl; [auto|].
  apply Forall_cons in Hall as [Ha Hall]. simpl in Ha. subst a.
  intros (_ & v & _ & Hrest). unfold stored in Hrest. rewrite Hact in Hrest.
  rewrite (IH _ _ Hall Hrest). now destruct us.
Qed.

Lemma store_option (argv : list string) (ns : gmap string pyval)
    (parts : list (string * pattern)) :
  action act = Store -> nargs act = NargsNone ->
  parse_args parser argv = Parsed ns ->
  arg_strings_pattern parser argv = Parsed parts ->
  Forall (λ vals, vals <> []) (Spec.occurrences d parts) /\
  Forall (λ s, exists v, _get_values act [s] = Parsed v)
    (taken (Spec.occurrences d parts)) /\
  match last (taken (Spec.occurrences d parts)) with
  | None => ns !! d = initial_namespace parser !! d
  | Some s => exists v, _get_values act [s] = Parsed v /\ ns !! d = Some v
  end.
Proof.
  intros Hact Hnargs Hparse Hparts.
  rewrite (occurrences_uses d).
  apply store_result with (o := initial_namespace parser !! d);
    [assumption | assumption | |].
  - apply uses_one. now apply arg_strings_pattern_from_parser with argv.
  - now apply (parse_args_overwrite parser d Hover argv).
Qed.

Lemma flag_option (argv : list string) (ns : gmap string pyval)
    (parts : list (string * pattern)) :
  action act = StoreTrue ->
  parse_args parser argv = Parsed ns ->
  arg_strings_pattern parser argv = Parsed parts ->
  ns !! d = match Spec.occurrences d parts with
            | [] => initial_namespace parser !! d
            | _ :: _ => Some (VBool true)
            end.
Proof.
  intros Hact Hparse Hparts.
  rewrite (occurrences_uses d).
  rewrite (flag_result (uses d parts) Hact (initial_namespace parser !! d)
             (ns !! d)).
  - now destruct (uses d parts).
  - apply uses_one. now apply arg_strings_pattern_from_parser with argv.
  - now apply (parse_args_overwrite parser d Hover argv).
Qed.

End OneAction.

Section OptionFields.

Import Py Argparse Spec.

Context `{U : Py.Unicode}.

Context (parser : list Action) (d : string).
Context (Hover : overwritten parser d).

Lemma parse_args_parts (argv : list string) (ns : gmap string pyval) :
  parse_args parser argv = Parsed ns ->
  exists parts, arg_strings_pattern parser argv = Parsed parts.
Proof.
  unfold parse_args, parse_known_args.
  destruct (arg_strings_pattern parser argv) as [parts| |]; simpl;
    try discriminate.
  eauto.
Qed.

Lemma _get_values_store (os dflt_dest : string) (dflt : pyval)
    (ty : string -> conversion) (cs : option (list pyval)) (s : string) :
  _get_values (store os dflt_dest dflt ty cs) [s]
  = if String.eqb s "--" then Parsed (VList [])
    else
      value ← _get_value (store os dflt_dest dflt ty cs) s;
      _check_value (store os dflt_dest dflt ty cs) value ≫= λ _,
      Parsed value.
Proof.
  unfold _get_values. simpl. now destruct (String.eqb s "--").
Qed.

Lemma text_field (os dflt : string) (argv : list string)
    (ns : gmap string pyval) (parts : list (string * pattern)) :
  Forall (λ a, dest a = Some d -> a = store os d (VStr dflt) str None)
    parser ->
  initial_namespace parser !! d = Some (VStr dflt) ->
  parse_args parser argv = Parsed ns ->
  arg_strings_pattern parser argv = Parsed parts ->
  each_given d parts /\
  ns !!! d = match last_taken d parts with
             | Some s => if String.eqb s "--" then VList [] else VStr s
             | None => VStr dflt
             end.
Proof.
  intros Hone Hinit Hparse Hparts.
  destruct (store_option parser d _ Hover Hone argv ns parts
              eq_refl eq_refl Hparse Hparts) as (Hgiven & _ & Hlast).
  split; [exact Hgiven|]. rewrite lookup_total_alt. unfold last_taken.
  destruct (last (taken (Spec.occurrences d parts))) as [s|].
  - destruct Hlast as (v & Hv & ->). rewrite _get_values_store in Hv.
    destruct (String.eqb s "--"); now injection Hv as <-.
  - now rewrite Hlast, Hinit.
Qed.

Lemma choice_field (os dflt : string) (cs : list pyval)
    (argv : list string) (ns : gmap string pyval)
    (parts : list (string * pattern)) :
  Forall (λ a, dest a = Some d ->
               a = store os d (VStr dflt) str_upper (Some cs)) parser ->
  initial_namespace parser !! d = Some (VStr dflt) ->
  parse_args parser argv = Parsed ns ->
  arg_strings_pattern parser argv = Parsed parts ->
  each_given d parts /\
  Forall (λ s, s <> "--" ->
               existsb (pyval_eqb (VStr (upper s))) cs = true)
    (taken (Spec.occurrences d parts)) /\
  ns !!! d = match last_taken d parts with
             | Some s =>
                 if String.eqb s "--" then VList [] else VStr (upper s)
             | None => VStr dflt
             end.
Proof.
  intros Hone Hinit Hparse Hparts.
  destruct (store_option parser d _ Hover Hone argv ns parts
              eq_refl eq_refl Hparse Hparts) as (Hgiven & Hall & Hlast).
  split; [exact Hgiven|]. split.
  - eapply Forall_impl; [exact Hall|]. intros s [v Hv] Hs.
    rewrite _get_values_store in Hv.
    destruct (String.eqb_spec s "--"); [contradiction|].
    unfold _get_value, _check_value in Hv.
    cbn -[existsb pyval_eqb upper] in Hv.
    now destruct (existsb (pyval_eqb (VStr (upper s))) cs).
  - rewrite lookup_total_alt. unfold last_taken.
    destruct (last (taken (Spec.occurrences d parts))) as [s|].
    + destruct Hlast as (v & Hv & ->). rewrite _get_values_store in Hv.
      destruct (String.eqb s "--"); [now injection Hv as <-|].
      unfold _get_value, _check_value in Hv.
      cbn -[existsb pyval_eqb upper] in Hv.
      destruct (existsb (pyval_eqb (VStr (upper s))) cs); [|discriminate].
      now injection Hv as <-.
    + now rewrite Hlast, Hinit.
Qed.


Lemma flag_field (os : string) (argv : list string)
    (ns : gmap string pyval) (parts : list (string * pattern)) :
  Forall (λ a, dest a = Some d -> a = store_true os d) parser ->
  initial_namespace parser !! d = Some (VBool false) ->
  parse_args parser argv = Parsed ns ->
  arg_strings_pattern parser argv = Parsed parts ->
  ns !!! d = VBool (occurs d parts).
Proof.
  intros Hone Hinit Hparse Hparts.
  rewrite lookup_total_alt, (flag_option parser d _ Hover Hone argv ns parts
                               eq_refl Hparse Hparts).
  unfold occurs. destruct (Spec.occurrences d parts); [|reflexivity].
  now rewrite Hinit.
Qed.

End OptionFields.

(** * The fields of the two command lines *)

Section CommandLineFields.

Import Py Argparse Utils Spec.

Context `{U : Py.Unicode}.

Context (isdir : string -> bool).

Ltac each_action :=
  try unfold client_parser; try unfold server_parser;
  unfold ArgumentParser, add_argument; simpl;
  repeat (apply List.Forall_cons); try apply List.Forall_nil.

Ltac is_overwritten :=
  unfold overwritten; each_action; simpl;
  (let Hd := fresh in
   intros Hd;
   first
     [ discriminate Hd
     | split; [auto|];
       split; [repeat constructor; simpl; lia|];
       let s := fresh in
       let E := fresh in
       intros s E;
       first
         [ discriminate E
         | injection E as <-; simpl; try unfold str_upper;
           rewrite ?upper_isascii by reflexivity; reflexivity ] ]).

Ltac is_one_action :=
  each_action; simpl;
  (let Hd := fresh in intros Hd; first [discriminate Hd | reflexivity]).

Lemma existsb_pyval_str (u : string) (cs : list pyval) :
  existsb (pyval_eqb (VStr u)) cs = true -> VStr u ∈ cs.
Proof.
  induction cs as [|c cs IH]; simpl; [discriminate|].
  intros H. apply orb_true_iff in H as [H|H].
  - destruct c; try discriminate. apply String.eqb_eq in H as <-. left.
  - right. auto.
Qed.

Lemma choice_in_choices (d dflt : string) (cs : list pyval)
    (parts : list (string * pattern)) (v : pyval) :
  VStr dflt ∈ cs ->
  each_given d parts ->
  Forall (λ s, s <> "--" ->
               existsb (pyval_eqb (VStr (upper s))) cs = true)
    (taken (Spec.occurrences d parts)) ->
  v = match last_taken d parts with
      | Some s => if String.eqb s "--" then VList [] else VStr (upper s)
      | None => VStr dflt
      end ->
  each_given d parts /\
  Forall (λ s, s <> "--" -> VStr (upper s) ∈ cs)
    (taken (Spec.occurrences d parts)) /\
  v = match last_taken d parts with
      | Some s => if String.eqb s "--" then VList [] else VStr (upper s)
      | None => VStr dflt
      end /\
  (last_taken d parts <> Some "--" -> v ∈ cs).
Proof.
  intros Hdflt Hgiven Hall Hlast.
  assert (Hin : Forall (λ s, s <> "--" -> VStr (upper s) ∈ cs)
                  (taken (Spec.occurrences d parts))).
  { eapply Forall_impl; [exact Hall|]. intros s Hs Hne.
    now apply existsb_pyval_str, Hs. }
  split; [assumption|]. split; [assumption|]. split; [assumption|].
  intros Hne. rewrite Hlast. unfold last_taken in *.
  destruct (last (taken (Spec.occurrences d parts))) as [s|] eqn:Hl;
    [|assumption].
  destruct (String.eqb_spec s "--") as [->|Hs]; [contradiction|].
  rewrite Forall_forall in Hin. apply Hin; [|assumption].
  rewrite last_Some in Hl. destruct Hl as [l' ->].
  apply elem_of_app. right. left.
Qed.

Lemma client_params_of (argv : list string) (params : client_params) :
  get_command_line_params_client isdir argv = Parsed params ->
  exists args parts,
    parse_args (client_parser isdir) argv = Parsed args /\
    arg_strings_pattern (client_parser isdir) argv = Parsed parts /\
    robot_log_level params = args !!! "robot_log_level" /\
    robot_suite params = args !!! "robot_suite" /\
    robot_test params = args !!! "robot_test" /\
    robot_include params = args !!! "robot_include" /\
    robot_exclude params = args !!! "robot_exclude" /\
    robot_debug params = args !!! "robot_debug" /\
    robot_host params = args !!! "robot_host" /\
    robot_port params = args !!! "robot_port" /\
    robot_user params = args !!! "robot_user" /\
    robot_pass params = args !!! "robot_pass" /\
    robot_test_connection params = args !!! "robot_test_connection" /\
    robot_output_dir params = args !!! "robot_output_dir" /\
    robot_output_file params = args !!! "robot_output_file" /\
    robot_log_file params = args !!! "robot_log_file" /\
    robot_report_file params = args !!! "robot_report_file" /\
    robot_client_enforces_server_package_upgrade params
    = args !!! "robot_client_enforces_server_package_upgrade".
Proof.
  unfold get_command_line_params_client.
  destruct (parse_args (client_parser isdir) argv) as [args| |] eqn:Hparse;
    simpl; try discriminate.
  intros [= <-].
  destruct (parse_args_parts _ argv args Hparse) as [parts Hparts].
  exists args, parts. simpl. tauto.
Qed.

Lemma server_params_of (argv : list string) (params : server_params) :
  get_command_line_params_server argv = Parsed params ->
  exists args parts,
    parse_args server_parser argv = Parsed args /\
    arg_strings_pattern server_parser argv = Parsed parts /\
    server_log_level params = args !!! "robot_log_level" /\
    server_debug params = args !!! "robot_debug" /\
    server_host params = args !!! "robot_host" /\
    server_port params = args !!! "robot_port" /\
    server_user params = args !!! "robot_user" /\
    server_pass params = args !!! "robot_pass" /\
    server_keyfile params = args !!! "robot_keyfile" /\
    server_certfile params = args !!! "robot_certfile" /\
    server_upgrade_server_packages params
    = args !!! "robot_upgrade_server_packages".
Proof.
  unfold get_command_line_params_server.
  destruct (parse_args server_parser argv) as [args| |] eqn:Hparse;
    simpl; try discriminate.
  intros [= <-].
  destruct (parse_args_parts _ argv args Hparse) as [parts Hparts].
  exists args, parts. simpl. tauto.
Qed.

(** X13. When the client resolver returns, each of its seven one-string
    options (host, user, password, output directory and the three output
    file names) holds its default when its flag does not occur, and
    otherwise the argument string of the last occurrence of the flag, as it
    is; but if that string is [--], which the spelling [--flag=--] gives,
    the option holds the empty list.  Every occurrence is given an argument
    string. *)
Theorem client_text_options_hold_the_last_value
    (argv : list string) (params : client_params) :
  get_command_line_params_client isdir argv = Parsed params ->
  exists parts,
    arg_strings_pattern (client_parser isdir) argv = Parsed parts /\
    Forall (λ '(d, dflt, field),
              each_given d parts /\
              field params = match last_taken d parts with
                             | Some s =>
                                 if String.eqb s "--" then VList []
                                 else VStr s
                             | None => VStr dflt
                             end)
      [ ("robot_host", "localhost", robot_host);
        ("robot_user", "admin", robot_user);
        ("robot_pass", "admin", robot_pass);
        ("robot_output_dir", ".", robot_output_dir);
        ("robot_output_file", "remote_output.xml", robot_output_file);
        ("robot_log_file", "remote_log.html", robot_log_file);
        ("robot_report_file", "remote_report.html", robot_report_file) ].
Proof.
  intros Hget.
  destruct (client_params_of argv params Hget)
    as (args & parts & Hparse & Hparts & Hfields).
  exists parts. split; [assumption|].
  decompose [and] Hfields.
  repeat (apply List.Forall_cons); try apply List.Forall_nil;
    match goal with
    | |- _ /\ ?f params = match last_taken ?d _ with _ => _ end =>
        match goal with
        | H : f params = _ |- _ => rewrite H
        end;
        eapply (text_field (client_parser isdir) d);
          [is_overwritten | is_one_action
          | reflexivity | exact Hparse | exact Hparts]
    end.
Qed.

(** X14. When the client resolver returns, each of its three switches
    (debug, connection test, enforced upgrade) is [True] if its flag occurs
    on the command line and [False] if it does not. *)
Theorem client_switches_tell_whether_the_flag_occurs
    (argv : list string) (params : client_params) :
  get_command_line_params_client isdir argv = Parsed params ->
  exists parts,
    arg_strings_pattern (client_parser isdir) argv = Parsed parts /\
    Forall (λ '(d, field), field params = VBool (occurs d parts))
      [ ("robot_debug", robot_debug);
        ("robot_test_connection", robot_test_connection);
        ("robot_client_enforces_server_package_upgrade",
         robot_client_enforces_server_package_upgrade) ].
Proof.
  intros Hget.
  destruct (client_params_of argv params Hget)
    as (args & parts & Hparse & Hparts & Hfields).
  exists parts. split; [assumption|].
  decompose [and] Hfields.
  repeat (apply List.Forall_cons); try apply List.Forall_nil;
    match goal with
    | |- ?f params = VBool (occurs ?d _) =>
        match goal with
        | H : f params = _ |- _ => rewrite H
        end;
        eapply (flag_field (client_parser isdir) d);
          [is_overwritten | is_one_action
          | reflexivity | exact Hparse | exact Hparts]
    end.
Qed.

(** X15. When the client resolver returns, the log level is WARN when
    [--log-level] does not occur, and otherwise the upper-case form of the
    argument string of its last occurrence, which is one of TRACE, DEBUG,
    INFO, WARN and NONE; but if that string is [--], which the spelling
    [--log-level=--] gives, the log level is the empty list and none of the
    five.  The upper-case form of the argument string of every occurrence,
    other than [--], is one of the five. *)
Theorem client_log_level_is_a_known_level
    (argv : list string) (params : client_params) :
  get_command_line_params_client isdir argv = Parsed params ->
  exists parts,
    arg_strings_pattern (client_parser isdir) argv = Parsed parts /\
    each_given "robot_log_level" parts /\
    Forall (λ s, s <> "--" ->
                 VStr (upper s)
                 ∈ [VStr "TRACE"; VStr "DEBUG"; VStr "INFO"; VStr "WARN";
                    VStr "NONE"])
      (taken (Spec.occurrences "robot_log_level" parts)) /\
    robot_log_level params
    = match last_taken "robot_log_level" parts with
      | Some s => if String.eqb s "--" then VList [] else VStr (upper s)
      | None => VStr "WARN"
      end /\
    (last_taken "robot_log_level" parts <> Some "--" ->
     robot_log_level params
     ∈ [VStr "TRACE"; VStr "DEBUG"; VStr "INFO"; VStr "WARN"; VStr "NONE"]).
Proof.
  intros Hget.
  destruct (client_params_of argv params Hget)
    as (args & parts & Hparse & Hparts & -> & _).
  exists parts. split; [assumption|].
  destruct (choice_field (client_parser isdir) "robot_log_level"
              ltac:(is_overwritten) "--log-level" "WARN"
              log_levels argv args parts
              ltac:(is_one_action) eq_refl Hparse Hparts)
    as (Hgiven & Hall & Hlast).
  refine (choice_in_choices "robot_log_level" "WARN" log_levels parts _ _
            Hgiven Hall Hlast).
  unfold log_levels. rewrite !elem_of_cons. tauto.
Qed.


(** X17. When the client resolver returns, each of the four filters (suite,
    test, include, exclude) is [None] if its flag does not occur, and
    otherwise the list of the argument strings that the occurrences of its
    flag hand to the parser, in order and with duplicates kept; each
    occurrence is given at least one string, and of the strings of an
    occurrence argparse drops the first [--], which the spelling
    [--flag=--] gives. *)
Theorem client_filters_accumulate_in_order
    (argv : list string) (params : client_params) :
  get_command_line_params_client isdir argv = Parsed params ->
  exists parts,
    arg_strings_pattern (client_parser isdir) argv = Parsed parts /\
    Forall (λ '(d, field),
              each_given d parts /\
              field params = match Spec.occurrences d parts with
                             | [] => VNone
                             | _ :: _ => VList (VStr <$> kept d parts)
                             end)
      [ ("robot_suite", robot_suite);
        ("robot_test", robot_test);
        ("robot_include", robot_include);
        ("robot_exclude", robot_exclude) ].
Proof.
  intros Hget.
  destruct (client_params_of argv params Hget)
    as (args & parts & Hparse & Hparts & Hfields).
  exists parts. split; [assumption|].
  decompose [and] Hfields.
  repeat (apply List.Forall_cons); try apply List.Forall_nil;
    match goal with
    | |- each_given ?d _ /\ ?f params = _ =>
        match goal with
        | H : f params = _ |- _ => rewrite H
        end;
        assert (Hacc : Spec.accumulates (client_parser isdir) d)
          by (unfold Spec.accumulates; each_action; simpl;
              intros Hd;
              first
                [ discriminate Hd
                | repeat split; simpl;
                  [ repeat constructor; simpl; lia
                  | intros s v [= <-]; reflexivity ] ]);
        destruct (client_namespace_field isdir d argv args Hacc eq_refl
                    Hparse) as (parts' & Hparts' & Hall & Hfield);
        rewrite Hparts in Hparts'; injection Hparts' as <-;
        split; [exact Hall | exact Hfield]
    end.
Qed.

(** X18. When the server resolver returns, each of its five one-string
    options (host, user, password, key file, certificate file) holds its
    default when its flag does not occur, and otherwise the argument string
    of the last occurrence of the flag, as it is and without any check of
    the file; but if that string is [--], which the spelling [--flag=--]
    gives, the option holds the empty list. *)
Theorem server_text_options_hold_the_last_value
    (argv : list string) (params : server_params) :
  get_command_line_params_server argv = Parsed params ->
  exists parts,
    arg_strings_pattern server_parser argv = Parsed parts /\
    Forall (λ '(d, dflt, field),
              each_given d parts /\
              field params = match last_taken d parts with
                             | Some s =>
                                 if String.eqb s "--" then VList []
                                 else VStr s
                             | None => VStr dflt
                             end)
      [ ("robot_host", "localhost", server_host);
        ("robot_user", "admin", server_user);
        ("robot_pass", "admin", server_pass);
        ("robot_keyfile", "privkey.pem", server_keyfile);
        ("robot_certfile", "cacert.pem", server_certfile) ].
Proof.
  intros Hget.
  destruct (server_params_of argv params Hget)
    as (args & parts & Hparse & Hparts & Hfields).
  exists parts. split; [assumption|].
  decompose [and] Hfields.
  repeat (apply List.Forall_cons); try apply List.Forall_nil;
    match goal with
    | |- _ /\ ?f params = match last_taken ?d _ with _ => _ end =>
        match goal with
        | H : f params = _ |- _ => rewrite H
        end;
        eapply (text_field server_parser d);
          [is_overwritten | is_one_action
          | reflexivity | exact Hparse | exact Hparts]
    end.
Qed.

(** X19. When the server resolver returns, the log level and the upgrade
    policy are their defaults (WARN, NEVER) when their flags do not occur,
    and otherwise the upper-case form of the argument string of the last
    occurrence, which is one of TRACE, DEBUG, INFO, WARN, NONE for the one
    and of NEVER, OUTDATED, ALWAYS for the other; but if that string is
    [--], which the spelling [--flag=--] gives, the option holds the empty
    list and none of its choices. *)
Theorem server_choices_are_known_values
    (argv : list string) (params : server_params) :
  get_command_line_params_server argv = Parsed params ->
  exists parts,
    arg_strings_pattern server_parser argv = Parsed parts /\
    Forall (λ '(d, dflt, cs, field),
              each_given d parts /\
              Forall (λ s, s <> "--" -> VStr (upper s) ∈ cs)
                (taken (Spec.occurrences d parts)) /\
              field params = match last_taken d parts with
                             | Some s =>
                                 if String.eqb s "--" then VList []
                                 else VStr (upper s)
                             | None => VStr dflt
                             end /\
              (last_taken d parts <> Some "--" -> field params ∈ cs))
      [ ("robot_log_level", "WARN",
         [VStr "TRACE"; VStr "DEBUG"; VStr "INFO"; VStr "WARN"; VStr "NONE"],
         server_log_level);
        ("robot_upgrade_server_packages", "NEVER",
         [VStr "NEVER"; VStr "OUTDATED"; VStr "ALWAYS"],
         server_upgrade_server_packages) ].
Proof.
  intros Hget.
  destruct (server_params_of argv params Hget)
    as (args & parts & Hparse & Hparts & Hfields).
  exists parts. split; [assumption|].
  decompose [and] Hfields.
  repeat (apply List.Forall_cons); try apply List.Forall_nil.
  - match goal with
    | H : server_log_level params = _ |- _ => rewrite H
    end.
    destruct (choice_field server_parser "robot_log_level"
                ltac:(is_overwritten) "--log-level" "WARN" log_levels
                argv args parts ltac:(is_one_action) eq_refl Hparse Hparts)
      as (Hgiven & Hall & Hlast).
    refine (choice_in_choices "robot_log_level" "WARN" log_levels parts _ _
              Hgiven Hall Hlast).
    unfold log_levels. rewrite !elem_of_cons. tauto.
  - match goal with
    | H : server_upgrade_server_packages params = _ |- _ => rewrite H
    end.
    destruct (choice_field server_parser "robot_upgrade_server_packages"
                ltac:(is_overwritten) "--upgrade-server-packages" "NEVER"
                upgrade_policies argv args parts ltac:(is_one_action)
                eq_refl Hparse Hparts) as (Hgiven & Hall & Hlast).
    refine (choice_in_choices "robot_upgrade_server_packages" "NEVER"
              upgrade_policies parts _ _ Hgiven Hall Hlast).
    unfold upgrade_policies. rewrite !elem_of_cons. tauto.
Qed.


(** X21. Neither resolver returns a configuration for an argument list
    that holds [-h], [--help] or the separator [--], wherever the string
    stands: the process exits from inside the parser. *)
Theorem help_or_separator_gives_no_configuration
    (argv : list string) (s : string) :
  s ∈ ["-h"; "--help"; "--"] -> s ∈ argv ->
  (forall params,
     get_command_line_params_client isdir argv <> Parsed params) /\
  (forall params, get_command_line_params_server argv <> Parsed params).
Proof.
  intros Hs Hin.
  assert (Hend : forall parser,
            parser = client_parser isdir \/ parser = server_parser ->
            read_as_end parser s).
  { intros parser Hp. rewrite !elem_of_cons in Hs.
    destruct Hs as [-> | [-> | [-> | Hs]]];
      [| | now left | now apply elem_of_nil in Hs];
      right; destruct Hp as [-> | ->]; eexists; split; reflexivity. }
  split; intros params.
  - unfold get_command_line_params_client.
    destruct (parse_args (client_parser isdir) argv) as [args| |] eqn:Hparse;
      simpl; try discriminate.
    exfalso.
    exact (parse_args_ends (client_parser isdir) argv s args Hin
             (Hend _ (or_introl eq_refl)) Hparse).
  - unfold get_command_line_params_server.
    destruct (parse_args server_parser argv) as [args| |] eqn:Hparse;
      simpl; try discriminate.
    exfalso.
    exact (parse_args_ends server_parser argv s args Hin
             (Hend _ (or_intror eq_refl)) Hparse).
Qed.

(** X22. Neither resolver returns a configuration for an argument list
    that holds a string which its parser reads as an option that it does
    not know. *)
Theorem unknown_option_gives_no_configuration
    (argv : list string) (s : string) :
  s ∈ argv ->
  (_parse_optional (client_parser isdir) s
   = Parsed (Some (OptionTuple None s None)) ->
   forall params,
     get_command_line_params_client isdir argv <> Parsed params) /\
  (_parse_optional server_parser s
   = Parsed (Some (OptionTuple None s None)) ->
   forall params, get_command_line_params_server argv <> Parsed params).
Proof.
  intros Hin. split; intros Hs params.
  - unfold get_command_line_params_client.
    destruct (parse_args (client_parser isdir) argv) as [args| |] eqn:Hparse;
      simpl; try discriminate.
    exfalso.
    refine (parse_args_ends (client_parser isdir) argv s args Hin _ Hparse).
    right. eexists. split; [exact Hs | reflexivity].
  - unfold get_command_line_params_server.
    destruct (parse_args server_parser argv) as [args| |] eqn:Hparse;
      simpl; try discriminate.
    exfalso.
    refine (parse_args_ends server_parser argv s args Hin _ Hparse).
    right. eexists. split; [exact Hs | reflexivity].
Qed.

(** X23. Neither resolver takes a positional argument: an argument list
    whose first string does not start with [-] gives no configuration. *)
Theorem leading_argument_gives_no_configuration
    (s : string) (rest : list string) :
  starts_with_prefix_char s = false ->
  (forall params,
     get_command_line_params_client isdir (s :: rest) <> Parsed params) /\
  (forall params,
     get_command_line_params_server (s :: rest) <> Parsed params).
Proof.
  intros Hs. split; intros params.
  - unfold get_command_line_params_client.
    destruct (parse_args (client_parser isdir) (s :: rest)) as [args| |]
      eqn:Hparse; simpl; try discriminate.
    exfalso.
    exact (parse_args_leading_argument (client_parser isdir) s rest args Hs
             Hparse).
  - unfold get_command_line_params_server.
    destruct (parse_args server_parser (s :: rest)) as [args| |] eqn:Hparse;
      simpl; try discriminate.
    exfalso.
    exact (parse_args_leading_argument server_parser s rest args Hs Hparse).
Qed.

End CommandLineFields.

(** * The further properties at concrete inputs *)

Section PathExamples.

Import Posixpath Utils Spec.

Lemma resolve_output_path_is_absolute_and_stable_witness :
  isabs "/home/u" = true /\
  isabs (resolve_output_path "/home/u" "../log.html" "out") = true /\
  resolve_output_path "/srv"
    (resolve_output_path "/home/u" "../log.html" "out") "reports"
  = resolve_output_path "/home/u" "../log.html" "out".
Proof.
  assert (H : isabs "/home/u" = true) by reflexivity.
  destruct (resolve_output_path_is_absolute_and_stable
              "/home/u" "../log.html" "out" H) as [Habs Hstable].
  split; [exact H|]. split; [exact Habs|]. exact (Hstable "/srv" "reports").
Defined.

Lemma resolve_output_path_has_clean_components_witness :
  isabs "/home/u" = true /\
  exists k comps,
    (k = 1 \/ k = 2) /\
    Forall (λ c, clean c /\ c <> "..") comps /\
    resolve_output_path "/home/u" "a/../log.html" "./out//"
    = slashes k +:+ String.concat "/" comps.
Proof.
  assert (H : isabs "/home/u" = true) by reflexivity.
  split; [exact H|].
  exact (resolve_output_path_has_clean_components
           "/home/u" "a/../log.html" "./out//" H).
Defined.

Lemma resolve_output_path_ignores_directories_witness :
  isabs "/var/log.html" = true /\ isabs "/out" = true /\
  resolve_output_path "/home/u" "/var/log.html" "/out"
  = normpath "/var/log.html" /\
  resolve_output_path "/home/u" "log.html" "/out"
  = resolve_output_path "/srv" "log.html" "/out".
Proof.
  assert (H1 : isabs "/var/log.html" = true) by reflexivity.
  assert (H2 : isabs "/out" = true) by reflexivity.
  split; [exact H1|]. split; [exact H2|]. split.
  - exact (proj1 (proj1 (resolve_output_path_ignores_directories
                           "/home/u" "/srv" "/var/log.html" "/out" "x") H1)).
  - exact (proj2 (resolve_output_path_ignores_directories
                    "/home/u" "/srv" "log.html" "/out" "x") H2).
Defined.

Lemma calculate_ts_parent_path_joins_ancestors_witness :
  Forall plain_name (family_tree (Suite "api" (Some (Suite "root" None)))) /\
  calculate_ts_parent_path
    (Suite "login" (Some (Suite "api" (Some (Suite "root" None)))))
  = "root/api".
Proof.
  assert (H : Forall plain_name
                (family_tree (Suite "api" (Some (Suite "root" None))))).
  { repeat (apply List.Forall_cons; [repeat split; discriminate|]).
    apply List.Forall_nil. }
  split; [exact H|].
  exact (proj2 (calculate_ts_parent_path_joins_ancestors
                  "login" (Suite "api" (Some (Suite "root" None)))) H).
Defined.

Lemma calculate_ts_parent_path_extends_parent_witness :
  Forall plain_name (family_tree (Suite "api" (Some (Suite "root" None)))) /\
  calculate_ts_parent_path
    (Suite "login" (Some (Suite "api" (Some (Suite "root" None)))))
  = calculate_ts_parent_path (Suite "api" (Some (Suite "root" None)))
    +:+ "/" +:+ "api".
Proof.
  assert (H : Forall plain_name
                (family_tree (Suite "api" (Some (Suite "root" None))))).
  { repeat (apply List.Forall_cons; [repeat split; discriminate|]).
    apply List.Forall_nil. }
  split; [exact H|].
  exact (calculate_ts_parent_path_extends_parent
           "login" (Suite "api" (Some (Suite "root" None))) H).
Defined.

Lemma calculate_ts_parent_path_restarts_at_absolute_name_witness :
  isabs (name (Suite "/opt\suites" (Some (Suite "root" None)))) = true /\
  calculate_ts_parent_path
    (Suite "login" (Some (Suite "/opt\suites" (Some (Suite "root" None)))))
  = "/opt/suites".
Proof.
  assert (H : isabs (name (Suite "/opt\suites" (Some (Suite "root" None))))
              = true) by reflexivity.
  split; [exact H|].
  exact (calculate_ts_parent_path_restarts_at_absolute_name
           "login" (Suite "/opt\suites" (Some (Suite "root" None))) H).
Defined.

End PathExamples.

Section PipCheckAnswerExamples.

Import Utils Fixtures Spec.

Lemma definite_answer_compares_parsed_versions_witness :
  (run_check release_packaging sample_index "requests" "<=" (Some "1.0")).1
  = Return (Some false) /\
  exists vi vt,
    version_parse release_packaging "1.0.0" = Some vi /\
    version_parse release_packaging "1.0" = Some vt /\
    false = Spec.denotes release_packaging "<" vi vt.
Proof.
  assert (H : (run_check release_packaging sample_index "requests" "<="
                 (Some "1.0")).1 = Return (Some false)) by reflexivity.
  split; [exact H|].
  destruct (definite_answer_compares_parsed_versions release_packaging
              sample_index "requests" "<=" (Some "1.0") false H)
    as (_ & d & i & t & vi & vt & Hd & _ & Hi & _ & Ht & _ & Hpi & Hpt & Hb).
  injection Hd as <-. injection Hi as <-.
  destruct Ht as [[Hl _] | [_ Ht]].
  - exfalso. destruct Hl; discriminate.
  - injection Ht as <-. exists vi, vt. auto.
Defined.

Lemma operator_changes_only_the_answer_witness :
  ("<" ∈ valid_operators) /\ ("!=" ∈ valid_operators) /\
  (run_check release_packaging sample_index "offline" "<" (Some "latest")).2
  = (run_check release_packaging sample_index "offline" "!="
       (Some "latest")).2.
Proof.
  assert (H1 : "<" ∈ valid_operators)
    by (apply (bool_decide_unpack _); vm_compute; exact I).
  assert (H2 : "!=" ∈ valid_operators)
    by (apply (bool_decide_unpack _); vm_compute; exact I).
  split; [exact H1|]. split; [exact H2|].
  exact (proj1 (operator_changes_only_the_answer release_packaging
                  sample_index "offline" "<" "!=" (Some "latest") H1 H2)).
Defined.

Lemma latest_in_any_letter_case_witness :
  Py.lower "LaTeSt" = "latest" /\
  check_for_pip_package_condition release_packaging sample_index
    "requests" "==" (Some "LaTeSt") []
  = check_for_pip_package_condition release_packaging sample_index
      "requests" "==" (Some "latest") [].
Proof.
  assert (H : Py.lower "LaTeSt" = "latest") by reflexivity.
  split; [exact H|].
  exact (latest_in_any_letter_case release_packaging sample_index
           "requests" "==" "LaTeSt" [] H).
Defined.

End PipCheckAnswerExamples.

Section CommandLineExamples.

Import Py Argparse Utils Fixtures Spec.

#[local] Existing Instance ascii_unicode.

Lemma client_text_options_hold_the_last_value_witness :
  exists params,
    get_command_line_params_client two_dirs
      ["--host"; "a"; "--debug"; "--host=b"; "--user=--"] = Parsed params
    /\ robot_host params = VStr "b"
    /\ robot_user params = VList []
    /\ robot_pass params = VStr "admin".
Proof.
  destruct (get_command_line_params_client two_dirs
              ["--host"; "a"; "--debug"; "--host=b"; "--user=--"])
    as [params| |] eqn:Hget; try (vm_compute in Hget; discriminate).
  exists params. split; [reflexivity|].
  destruct (client_text_options_hold_the_last_value two_dirs
              ["--host"; "a"; "--debug"; "--host=b"; "--user=--"] params
              Hget)
    as (parts & Hparts & H).
  vm_compute in Hparts. injection Hparts as <-.
  apply Forall_cons in H as [[_ Hhost] H].
  apply Forall_cons in H as [[_ Huser] H].
  apply Forall_cons in H as [[_ Hpass] _].
  split; [exact Hhost|]. split; [exact Huser | exact Hpass].
Defined.

Lemma client_switches_tell_whether_the_flag_occurs_witness :
  exists params,
    get_command_line_params_client two_dirs ["--test-connection"]
    = Parsed params
    /\ robot_debug params = VBool false
    /\ robot_test_connection params = VBool true.
Proof.
  destruct (get_command_line_params_client two_dirs ["--test-connection"])
    as [params| |] eqn:Hget; try (vm_compute in Hget; discriminate).
  exists params. split; [reflexivity|].
  destruct (client_switches_tell_whether_the_flag_occurs two_dirs
              ["--test-connection"] params Hget) as (parts & Hparts & H).
  vm_compute in Hparts. injection Hparts as <-.
  apply Forall_cons in H as [Hdebug H].
  apply Forall_cons in H as [Htest _].
  split; [exact Hdebug | exact Htest].
Defined.

Lemma client_log_level_is_a_known_level_witness :
  exists params,
    get_command_line_params_client two_dirs ["--log-level"; "debug"]
    = Parsed params
    /\ robot_log_level params = VStr "DEBUG".
Proof.
  destruct (get_command_line_params_client two_dirs ["--log-level"; "debug"])
    as [params| |] eqn:Hget; try (vm_compute in Hget; discriminate).
  exists params. split; [reflexivity|].
  destruct (client_log_level_is_a_known_level two_dirs
              ["--log-level"; "debug"] params Hget)
    as (parts & Hparts & _ & _ & H & _).
  assert (E : arg_strings_pattern (client_parser two_dirs)
               ["--log-level"; "debug"]
             = Parsed
                 [ ("--log-level",
                    PatO (OptionTuple
                            (Some (store "--log-level" "robot_log_level"
                                     (VStr "WARN") str_upper
                                     (Some log_levels)))
                            "--log-level" None));
                   ("debug", PatA) ])
    by reflexivity.
  rewrite E in Hparts. injection Hparts as <-. exact H.
Defined.


Lemma client_filters_accumulate_in_order_witness :
  exists params,
    get_command_line_params_client two_dirs
      ["--include"; "smoke"; "api"; "--debug"; "--include=smoke"]
    = Parsed params
    /\ robot_include params = VList [VStr "smoke"; VStr "api"; VStr "smoke"]
    /\ robot_exclude params = VNone.
Proof.
  destruct (get_command_line_params_client two_dirs
              ["--include"; "smoke"; "api"; "--debug"; "--include=smoke"])
    as [params| |] eqn:Hget; try (vm_compute in Hget; discriminate).
  exists params. split; [reflexivity|].
  destruct (client_filters_accumulate_in_order two_dirs
              ["--include"; "smoke"; "api"; "--debug"; "--include=smoke"]
              params Hget) as (parts & Hparts & H).
  vm_compute in Hparts. injection Hparts as <-.
  apply Forall_cons in H as [_ H].
  apply Forall_cons in H as [_ H].
  apply Forall_cons in H as [[_ Hinc] H].
  apply Forall_cons in H as [[_ Hexc] _].
  split; [exact Hinc | exact Hexc].
Defined.

Lemma server_text_options_hold_the_last_value_witness :
  exists params,
    get_command_line_params_server ["--keyfile"; "/no/such/key.pem"]
    = Parsed params
    /\ server_keyfile params = VStr "/no/such/key.pem"
    /\ server_certfile params = VStr "cacert.pem".
Proof.
  destruct (get_command_line_params_server ["--keyfile"; "/no/such/key.pem"])
    as [params| |] eqn:Hget; try (vm_compute in Hget; discriminate).
  exists params. split; [reflexivity|].
  destruct (server_text_options_hold_the_last_value
              ["--keyfile"; "/no/such/key.pem"] params Hget)
    as (parts & Hparts & H).
  vm_compute in Hparts. injection Hparts as <-.
  apply Forall_cons in H as [_ H].
  apply Forall_cons in H as [_ H].
  apply Forall_cons in H as [_ H].
  apply Forall_cons in H as [[_ Hkey] H].
  apply Forall_cons in H as [[_ Hcert] _].
  split; [exact Hkey | exact Hcert].
Defined.

Lemma server_choices_are_known_values_witness :
  exists params,
    get_command_line_params_server ["--upgrade-server-packages"; "outdated"]
    = Parsed params
    /\ server_upgrade_server_packages params = VStr "OUTDATED"
    /\ server_log_level params = VStr "WARN".
Proof.
  destruct (get_command_line_params_server
              ["--upgrade-server-packages"; "outdated"])
    as [params| |] eqn:Hget; try (vm_compute in Hget; discriminate).
  exists params. split; [reflexivity|].
  destruct (server_choices_are_known_values
              ["--upgrade-server-packages"; "outdated"] params Hget)
    as (parts & Hparts & H).
  assert (E : arg_strings_pattern server_parser
               ["--upgrade-server-packages"; "outdated"]
             = Parsed
                 [ ("--upgrade-server-packages",
                    PatO (OptionTuple
                            (Some (store "--upgrade-server-packages"
                                     "robot_upgrade_server_packages"
                                     (VStr "NEVER") str_upper
                                     (Some upgrade_policies)))
                            "--upgrade-server-packages" None));
                   ("outdated", PatA) ])
    by reflexivity.
  rewrite E in Hparts. injection Hparts as <-.
  apply Forall_cons in H as [(_ & _ & Hlevel & _) H].
  apply Forall_cons in H as [(_ & _ & Hpolicy & _) _].
  split; [exact Hpolicy | exact Hlevel].
Defined.


Lemma help_or_separator_gives_no_configuration_witness :
  ("--" ∈ ["-h"; "--help"; "--"]) /\
  ("--" ∈ ["--host"; "--"; "server"]) /\
  (forall params,
     get_command_line_params_client two_dirs ["--host"; "--"; "server"]
     <> Parsed params) /\
  (forall params,
     get_command_line_params_server ["--host"; "--"; "server"]
     <> Parsed params).
Proof.
  assert (H1 : "--" ∈ ["-h"; "--help"; "--"])
    by (apply (bool_decide_unpack _); vm_compute; exact I).
  assert (H2 : "--" ∈ ["--host"; "--"; "server"])
    by (apply (bool_decide_unpack _); vm_compute; exact I).
  split; [exact H1|]. split; [exact H2|].
  exact (help_or_separator_gives_no_configuration two_dirs
           ["--host"; "--"; "server"] "--" H1 H2).
Defined.

Lemma unknown_option_gives_no_configuration_witness :
  ("--keyfile" ∈ ["--debug"; "--keyfile"; "k.pem"]) /\
  _parse_optional (client_parser two_dirs) "--keyfile"
  = Parsed (Some (OptionTuple None "--keyfile" None)) /\
  forall params,
    get_command_line_params_client two_dirs ["--debug"; "--keyfile"; "k.pem"]
    <> Parsed params.
Proof.
  assert (H1 : "--keyfile" ∈ ["--debug"; "--keyfile"; "k.pem"])
    by (apply (bool_decide_unpack _); vm_compute; exact I).
  assert (H2 : _parse_optional (client_parser two_dirs) "--keyfile"
               = Parsed (Some (OptionTuple None "--keyfile" None)))
    by reflexivity.
  split; [exact H1|]. split; [exact H2|].
  exact (proj1 (unknown_option_gives_no_configuration two_dirs
                  ["--debug"; "--keyfile"; "k.pem"] "--keyfile" H1) H2).
Defined.

Lemma leading_argument_gives_no_configuration_witness :
  starts_with_prefix_char "tests" = false /\
  (forall params,
     get_command_line_params_client two_dirs ["tests"; "--debug"]
     <> Parsed params) /\
  (forall params,
     get_command_line_params_server ["tests"; "--debug"] <> Parsed params).
Proof.
  assert (H : starts_with_prefix_char "tests" = false) by reflexivity.
  split; [exact H|].
  exact (leading_argument_gives_no_configuration two_dirs "tests"
           ["--debug"] H).
Defined.

End CommandLineExamples.
